(** * Excel to MySQL product synchronisation: the ingestion pipeline

    A shallow embedding of [app_sicar_productos.py]: the value coercers
    ([parse_num], [parse_bool], [normalize_unit_name]), the row filter of
    [_clean_autocorrect], the parameter conversion [_to_py_mysql], the
    transactional upload [upload_excel_to_db] and the helpers of the
    interface ([norm_key], the search box, the preview, the width of the
    columns, the header of the download), followed by the properties the
    specification states about them and by further properties of the same
    code. *)

From Stdlib Require Import ZArith NArith List String Ascii Bool Lia.
From Stdlib Require Import Floats.SpecFloat.
From stdpp Require Import gmap list option.
Import ListNotations.

(** Python's [str] is a sequence of Unicode code points. *)
Abbreviation pystr := (list N).

(** ** Text primitives of the Python runtime *)
Module PyText.
Local Open Scope N_scope.

(** An ASCII literal as a Python string. *)
Definition py (s : string) : pystr := map N_of_ascii (list_ascii_of_string s).

(** [str.isspace] on one code point, which is also what [str.strip()]
    removes (Unicode 14 table of CPython 3.11). *)
Definition is_space (c : N) : bool :=
  ((0x09 <=? c) && (c <=? 0x0D)) || ((0x1C <=? c) && (c <=? 0x20))
  || (c =? 0x85) || (c =? 0xA0) || (c =? 0x1680)
  || ((0x2000 <=? c) && (c <=? 0x200A))
  || (c =? 0x2028) || (c =? 0x2029) || (c =? 0x202F) || (c =? 0x205F)
  || (c =? 0x3000).

Fixpoint lstrip (s : pystr) : pystr :=
  match s with
  | c :: r => if is_space c then lstrip r else s
  | [] => []
  end.

Definition rstrip (s : pystr) : pystr := rev (lstrip (rev s)).

(** [s.strip()] *)
Definition strip (s : pystr) : pystr := rstrip (lstrip s).

(** Case mapping, from the Unicode 14.0 database of CPython 3.11.  A run
    [(first, count, step, image)] maps [first + k * step] to
    [image + k * step] for every [k < count]; the characters whose image
    has several characters are listed apart; any other character is mapped
    to itself. *)
Definition in_run (c : N) (r : N * N * N * N) : option N :=
  let '(first, count, step, image) := r in
  if (first <=? c) && (c <? first + count * step)
     && ((c - first) mod step =? 0)
  then Some (image + (c - first)) else None.

Fixpoint run_image (runs : list (N * N * N * N)) (c : N) : option N :=
  match runs with
  | [] => None
  | r :: rs => match in_run c r with
               | Some d => Some d
               | None => run_image rs c
               end
  end.

Fixpoint special (t : list (N * pystr)) (c : N) : option pystr :=
  match t with
  | [] => None
  | (k, v) :: rest => if k =? c then Some v else special rest c
  end.

Definition full_case (runs : list (N * N * N * N)) (t : list (N * pystr))
           (c : N) : pystr :=
  match special t c with
  | Some v => v
  | None => match run_image runs c with
            | Some d => [d]
            | None => [c]
            end
  end.

Definition in_ranges (t : list (N * N)) (c : N) : bool :=
  existsb (fun r => (fst r <=? c) && (c <=? snd r)) t.

(** The characters with a one-character upper case. *)
Definition UPPER_RUNS : list (N * N * N * N) :=
  [
    (0x61, 26, 1, 0x41); (0xB5, 1, 1, 0x39C); (0xE0, 23, 1, 0xC0);
    (0xF8, 7, 1, 0xD8); (0xFF, 1, 1, 0x178); (0x101, 24, 2, 0x100);
    (0x131, 1, 1, 0x49); (0x133, 3, 2, 0x132); (0x13A, 8, 2, 0x139);
    (0x14B, 23, 2, 0x14A); (0x17A, 3, 2, 0x179); (0x17F, 1, 1, 0x53);
    (0x180, 1, 1, 0x243); (0x183, 2, 2, 0x182); (0x188, 1, 1, 0x187);
    (0x18C, 1, 1, 0x18B); (0x192, 1, 1, 0x191); (0x195, 1, 1, 0x1F6);
    (0x199, 1, 1, 0x198); (0x19A, 1, 1, 0x23D); (0x19E, 1, 1, 0x220);
    (0x1A1, 3, 2, 0x1A0); (0x1A8, 1, 1, 0x1A7); (0x1AD, 1, 1, 0x1AC);
    (0x1B0, 1, 1, 0x1AF); (0x1B4, 2, 2, 0x1B3); (0x1B9, 1, 1, 0x1B8);
    (0x1BD, 1, 1, 0x1BC); (0x1BF, 1, 1, 0x1F7); (0x1C5, 1, 1, 0x1C4);
    (0x1C6, 1, 1, 0x1C4); (0x1C8, 1, 1, 0x1C7); (0x1C9, 1, 1, 0x1C7);
    (0x1CB, 1, 1, 0x1CA); (0x1CC, 1, 1, 0x1CA); (0x1CE, 8, 2, 0x1CD);
    (0x1DD, 1, 1, 0x18E); (0x1DF, 9, 2, 0x1DE); (0x1F2, 1, 1, 0x1F1);
    (0x1F3, 1, 1, 0x1F1); (0x1F5, 1, 1, 0x1F4); (0x1F9, 20, 2, 0x1F8);
    (0x223, 9, 2, 0x222); (0x23C, 1, 1, 0x23B); (0x23F, 2, 1, 0x2C7E);
    (0x242, 1, 1, 0x241); (0x247, 5, 2, 0x246); (0x250, 1, 1, 0x2C6F);
    (0x251, 1, 1, 0x2C6D); (0x252, 1, 1, 0x2C70); (0x253, 1, 1, 0x181);
    (0x254, 1, 1, 0x186); (0x256, 2, 1, 0x189); (0x259, 1, 1, 0x18F);
    (0x25B, 1, 1, 0x190); (0x25C, 1, 1, 0xA7AB); (0x260, 1, 1, 0x193);
    (0x261, 1, 1, 0xA7AC); (0x263, 1, 1, 0x194); (0x265, 1, 1, 0xA78D);
    (0x266, 1, 1, 0xA7AA); (0x268, 1, 1, 0x197); (0x269, 1, 1, 0x196);
    (0x26A, 1, 1, 0xA7AE); (0x26B, 1, 1, 0x2C62); (0x26C, 1, 1, 0xA7AD);
    (0x26F, 1, 1, 0x19C); (0x271, 1, 1, 0x2C6E); (0x272, 1, 1, 0x19D);
    (0x275, 1, 1, 0x19F); (0x27D, 1, 1, 0x2C64); (0x280, 1, 1, 0x1A6);
    (0x282, 1, 1, 0xA7C5); (0x283, 1, 1, 0x1A9); (0x287, 1, 1, 0xA7B1);
    (0x288, 1, 1, 0x1AE); (0x289, 1, 1, 0x244); (0x28A, 2, 1, 0x1B1);
    (0x28C, 1, 1, 0x245); (0x292, 1, 1, 0x1B7); (0x29D, 1, 1, 0xA7B2);
    (0x29E, 1, 1, 0xA7B0); (0x345, 1, 1, 0x399); (0x371, 2, 2, 0x370);
    (0x377, 1, 1, 0x376); (0x37B, 3, 1, 0x3FD); (0x3AC, 1, 1, 0x386);
    (0x3AD, 3, 1, 0x388); (0x3B1, 17, 1, 0x391); (0x3C2, 1, 1, 0x3A3);
    (0x3C3, 9, 1, 0x3A3); (0x3CC, 1, 1, 0x38C); (0x3CD, 2, 1, 0x38E);
    (0x3D0, 1, 1, 0x392); (0x3D1, 1, 1, 0x398); (0x3D5, 1, 1, 0x3A6);
    (0x3D6, 1, 1, 0x3A0); (0x3D7, 1, 1, 0x3CF); (0x3D9, 12, 2, 0x3D8);
    (0x3F0, 1, 1, 0x39A); (0x3F1, 1, 1, 0x3A1); (0x3F2, 1, 1, 0x3F9);
    (0x3F3, 1, 1, 0x37F); (0x3F5, 1, 1, 0x395); (0x3F8, 1, 1, 0x3F7);
    (0x3FB, 1, 1, 0x3FA); (0x430, 32, 1, 0x410); (0x450, 16, 1, 0x400);
    (0x461, 17, 2, 0x460); (0x48B, 27, 2, 0x48A); (0x4C2, 7, 2, 0x4C1);
    (0x4CF, 1, 1, 0x4C0); (0x4D1, 48, 2, 0x4D0); (0x561, 38, 1, 0x531);
    (0x10D0, 43, 1, 0x1C90); (0x10FD, 3, 1, 0x1CBD); (0x13F8, 6, 1, 0x13F0);
    (0x1C80, 1, 1, 0x412); (0x1C81, 1, 1, 0x414); (0x1C82, 1, 1, 0x41E);
    (0x1C83, 2, 1, 0x421); (0x1C85, 1, 1, 0x422); (0x1C86, 1, 1, 0x42A);
    (0x1C87, 1, 1, 0x462); (0x1C88, 1, 1, 0xA64A); (0x1D79, 1, 1, 0xA77D);
    (0x1D7D, 1, 1, 0x2C63); (0x1D8E, 1, 1, 0xA7C6); (0x1E01, 75, 2, 0x1E00);
    (0x1E9B, 1, 1, 0x1E60); (0x1EA1, 48, 2, 0x1EA0); (0x1F00, 8, 1, 0x1F08);
    (0x1F10, 6, 1, 0x1F18); (0x1F20, 8, 1, 0x1F28); (0x1F30, 8, 1, 0x1F38);
    (0x1F40, 6, 1, 0x1F48); (0x1F51, 4, 2, 0x1F59); (0x1F60, 8, 1, 0x1F68);
    (0x1F70, 2, 1, 0x1FBA); (0x1F72, 4, 1, 0x1FC8); (0x1F76, 2, 1, 0x1FDA);
    (0x1F78, 2, 1, 0x1FF8); (0x1F7A, 2, 1, 0x1FEA); (0x1F7C, 2, 1, 0x1FFA);
    (0x1FB0, 2, 1, 0x1FB8); (0x1FBE, 1, 1, 0x399); (0x1FD0, 2, 1, 0x1FD8);
    (0x1FE0, 2, 1, 0x1FE8); (0x1FE5, 1, 1, 0x1FEC); (0x214E, 1, 1, 0x2132);
    (0x2170, 16, 1, 0x2160); (0x2184, 1, 1, 0x2183); (0x24D0, 26, 1, 0x24B6);
    (0x2C30, 48, 1, 0x2C00); (0x2C61, 1, 1, 0x2C60); (0x2C65, 1, 1, 0x23A);
    (0x2C66, 1, 1, 0x23E); (0x2C68, 3, 2, 0x2C67); (0x2C73, 1, 1, 0x2C72);
    (0x2C76, 1, 1, 0x2C75); (0x2C81, 50, 2, 0x2C80); (0x2CEC, 2, 2, 0x2CEB);
    (0x2CF3, 1, 1, 0x2CF2); (0x2D00, 38, 1, 0x10A0); (0x2D27, 1, 1, 0x10C7);
    (0x2D2D, 1, 1, 0x10CD); (0xA641, 23, 2, 0xA640); (0xA681, 14, 2, 0xA680);
    (0xA723, 7, 2, 0xA722); (0xA733, 31, 2, 0xA732); (0xA77A, 2, 2, 0xA779);
    (0xA77F, 5, 2, 0xA77E); (0xA78C, 1, 1, 0xA78B); (0xA791, 2, 2, 0xA790);
    (0xA794, 1, 1, 0xA7C4); (0xA797, 10, 2, 0xA796); (0xA7B5, 8, 2, 0xA7B4);
    (0xA7C8, 2, 2, 0xA7C7); (0xA7D1, 1, 1, 0xA7D0); (0xA7D7, 2, 2, 0xA7D6);
    (0xA7F6, 1, 1, 0xA7F5); (0xAB53, 1, 1, 0xA7B3); (0xAB70, 80, 1, 0x13A0);
    (0xFF41, 26, 1, 0xFF21); (0x10428, 40, 1, 0x10400);
    (0x104D8, 36, 1, 0x104B0); (0x10597, 19, 2, 0x10570);
    (0x10598, 5, 2, 0x10571); (0x105A4, 7, 2, 0x1057D);
    (0x105B4, 3, 2, 0x1058D); (0x105BC, 1, 1, 0x10595);
    (0x10CC0, 51, 1, 0x10C80); (0x118C0, 32, 1, 0x118A0);
    (0x16E60, 32, 1, 0x16E40); (0x1E922, 34, 1, 0x1E900) ].

(** The characters whose upper case has several characters. *)
Definition UPPER_SPECIAL : list (N * pystr) :=
  [
    (0xDF, [0x53; 0x53]); (0x149, [0x2BC; 0x4E]); (0x1F0, [0x4A; 0x30C]);
    (0x390, [0x399; 0x308; 0x301]); (0x3B0, [0x3A5; 0x308; 0x301]);
    (0x587, [0x535; 0x552]); (0x1E96, [0x48; 0x331]);
    (0x1E97, [0x54; 0x308]); (0x1E98, [0x57; 0x30A]);
    (0x1E99, [0x59; 0x30A]); (0x1E9A, [0x41; 0x2BE]);
    (0x1F50, [0x3A5; 0x313]); (0x1F52, [0x3A5; 0x313; 0x300]);
    (0x1F54, [0x3A5; 0x313; 0x301]); (0x1F56, [0x3A5; 0x313; 0x342]);
    (0x1F80, [0x1F08; 0x399]); (0x1F81, [0x1F09; 0x399]);
    (0x1F82, [0x1F0A; 0x399]); (0x1F83, [0x1F0B; 0x399]);
    (0x1F84, [0x1F0C; 0x399]); (0x1F85, [0x1F0D; 0x399]);
    (0x1F86, [0x1F0E; 0x399]); (0x1F87, [0x1F0F; 0x399]);
    (0x1F88, [0x1F08; 0x399]); (0x1F89, [0x1F09; 0x399]);
    (0x1F8A, [0x1F0A; 0x399]); (0x1F8B, [0x1F0B; 0x399]);
    (0x1F8C, [0x1F0C; 0x399]); (0x1F8D, [0x1F0D; 0x399]);
    (0x1F8E, [0x1F0E; 0x399]); (0x1F8F, [0x1F0F; 0x399]);
    (0x1F90, [0x1F28; 0x399]); (0x1F91, [0x1F29; 0x399]);
    (0x1F92, [0x1F2A; 0x399]); (0x1F93, [0x1F2B; 0x399]);
    (0x1F94, [0x1F2C; 0x399]); (0x1F95, [0x1F2D; 0x399]);
    (0x1F96, [0x1F2E; 0x399]); (0x1F97, [0x1F2F; 0x399]);
    (0x1F98, [0x1F28; 0x399]); (0x1F99, [0x1F29; 0x399]);
    (0x1F9A, [0x1F2A; 0x399]); (0x1F9B, [0x1F2B; 0x399]);
    (0x1F9C, [0x1F2C; 0x399]); (0x1F9D, [0x1F2D; 0x399]);
    (0x1F9E, [0x1F2E; 0x399]); (0x1F9F, [0x1F2F; 0x399]);
    (0x1FA0, [0x1F68; 0x399]); (0x1FA1, [0x1F69; 0x399]);
    (0x1FA2, [0x1F6A; 0x399]); (0x1FA3, [0x1F6B; 0x399]);
    (0x1FA4, [0x1F6C; 0x399]); (0x1FA5, [0x1F6D; 0x399]);
    (0x1FA6, [0x1F6E; 0x399]); (0x1FA7, [0x1F6F; 0x399]);
    (0x1FA8, [0x1F68; 0x399]); (0x1FA9, [0x1F69; 0x399]);
    (0x1FAA, [0x1F6A; 0x399]); (0x1FAB, [0x1F6B; 0x399]);
    (0x1FAC, [0x1F6C; 0x399]); (0x1FAD, [0x1F6D; 0x399]);
    (0x1FAE, [0x1F6E; 0x399]); (0x1FAF, [0x1F6F; 0x399]);
    (0x1FB2, [0x1FBA; 0x399]); (0x1FB3, [0x391; 0x399]);
    (0x1FB4, [0x386; 0x399]); (0x1FB6, [0x391; 0x342]);
    (0x1FB7, [0x391; 0x342; 0x399]); (0x1FBC, [0x391; 0x399]);
    (0x1FC2, [0x1FCA; 0x399]); (0x1FC3, [0x397; 0x399]);
    (0x1FC4, [0x389; 0x399]); (0x1FC6, [0x397; 0x342]);
    (0x1FC7, [0x397; 0x342; 0x399]); (0x1FCC, [0x397; 0x399]);
    (0x1FD2, [0x399; 0x308; 0x300]); (0x1FD3, [0x399; 0x308; 0x301]);
    (0x1FD6, [0x399; 0x342]); (0x1FD7, [0x399; 0x308; 0x342]);
    (0x1FE2, [0x3A5; 0x308; 0x300]); (0x1FE3, [0x3A5; 0x308; 0x301]);
    (0x1FE4, [0x3A1; 0x313]); (0x1FE6, [0x3A5; 0x342]);
    (0x1FE7, [0x3A5; 0x308; 0x342]); (0x1FF2, [0x1FFA; 0x399]);
    (0x1FF3, [0x3A9; 0x399]); (0x1FF4, [0x38F; 0x399]);
    (0x1FF6, [0x3A9; 0x342]); (0x1FF7, [0x3A9; 0x342; 0x399]);
    (0x1FFC, [0x3A9; 0x399]); (0xFB00, [0x46; 0x46]); (0xFB01, [0x46; 0x49]);
    (0xFB02, [0x46; 0x4C]); (0xFB03, [0x46; 0x46; 0x49]);
    (0xFB04, [0x46; 0x46; 0x4C]); (0xFB05, [0x53; 0x54]);
    (0xFB06, [0x53; 0x54]); (0xFB13, [0x544; 0x546]);
    (0xFB14, [0x544; 0x535]); (0xFB15, [0x544; 0x53B]);
    (0xFB16, [0x54E; 0x546]); (0xFB17, [0x544; 0x53D]) ].

(** The characters with a one-character lower case. *)
Definition LOWER_RUNS : list (N * N * N * N) :=
  [
    (0x41, 26, 1, 0x61); (0xC0, 23, 1, 0xE0); (0xD8, 7, 1, 0xF8);
    (0x100, 24, 2, 0x101); (0x132, 3, 2, 0x133); (0x139, 8, 2, 0x13A);
    (0x14A, 23, 2, 0x14B); (0x178, 1, 1, 0xFF); (0x179, 3, 2, 0x17A);
    (0x181, 1, 1, 0x253); (0x182, 2, 2, 0x183); (0x186, 1, 1, 0x254);
    (0x187, 1, 1, 0x188); (0x189, 2, 1, 0x256); (0x18B, 1, 1, 0x18C);
    (0x18E, 1, 1, 0x1DD); (0x18F, 1, 1, 0x259); (0x190, 1, 1, 0x25B);
    (0x191, 1, 1, 0x192); (0x193, 1, 1, 0x260); (0x194, 1, 1, 0x263);
    (0x196, 1, 1, 0x269); (0x197, 1, 1, 0x268); (0x198, 1, 1, 0x199);
    (0x19C, 1, 1, 0x26F); (0x19D, 1, 1, 0x272); (0x19F, 1, 1, 0x275);
    (0x1A0, 3, 2, 0x1A1); (0x1A6, 1, 1, 0x280); (0x1A7, 1, 1, 0x1A8);
    (0x1A9, 1, 1, 0x283); (0x1AC, 1, 1, 0x1AD); (0x1AE, 1, 1, 0x288);
    (0x1AF, 1, 1, 0x1B0); (0x1B1, 2, 1, 0x28A); (0x1B3, 2, 2, 0x1B4);
    (0x1B7, 1, 1, 0x292); (0x1B8, 1, 1, 0x1B9); (0x1BC, 1, 1, 0x1BD);
    (0x1C4, 1, 1, 0x1C6); (0x1C5, 1, 1, 0x1C6); (0x1C7, 1, 1, 0x1C9);
    (0x1C8, 1, 1, 0x1C9); (0x1CA, 1, 1, 0x1CC); (0x1CB, 9, 2, 0x1CC);
    (0x1DE, 9, 2, 0x1DF); (0x1F1, 1, 1, 0x1F3); (0x1F2, 2, 2, 0x1F3);
    (0x1F6, 1, 1, 0x195); (0x1F7, 1, 1, 0x1BF); (0x1F8, 20, 2, 0x1F9);
    (0x220, 1, 1, 0x19E); (0x222, 9, 2, 0x223); (0x23A, 1, 1, 0x2C65);
    (0x23B, 1, 1, 0x23C); (0x23D, 1, 1, 0x19A); (0x23E, 1, 1, 0x2C66);
    (0x241, 1, 1, 0x242); (0x243, 1, 1, 0x180); (0x244, 1, 1, 0x289);
    (0x245, 1, 1, 0x28C); (0x246, 5, 2, 0x247); (0x370, 2, 2, 0x371);
    (0x376, 1, 1, 0x377); (0x37F, 1, 1, 0x3F3); (0x386, 1, 1, 0x3AC);
    (0x388, 3, 1, 0x3AD); (0x38C, 1, 1, 0x3CC); (0x38E, 2, 1, 0x3CD);
    (0x391, 17, 1, 0x3B1); (0x3A3, 9, 1, 0x3C3); (0x3CF, 1, 1, 0x3D7);
    (0x3D8, 12, 2, 0x3D9); (0x3F4, 1, 1, 0x3B8); (0x3F7, 1, 1, 0x3F8);
    (0x3F9, 1, 1, 0x3F2); (0x3FA, 1, 1, 0x3FB); (0x3FD, 3, 1, 0x37B);
    (0x400, 16, 1, 0x450); (0x410, 32, 1, 0x430); (0x460, 17, 2, 0x461);
    (0x48A, 27, 2, 0x48B); (0x4C0, 1, 1, 0x4CF); (0x4C1, 7, 2, 0x4C2);
    (0x4D0, 48, 2, 0x4D1); (0x531, 38, 1, 0x561); (0x10A0, 38, 1, 0x2D00);
    (0x10C7, 1, 1, 0x2D27); (0x10CD, 1, 1, 0x2D2D); (0x13A0, 80, 1, 0xAB70);
    (0x13F0, 6, 1, 0x13F8); (0x1C90, 43, 1, 0x10D0); (0x1CBD, 3, 1, 0x10FD);
    (0x1E00, 75, 2, 0x1E01); (0x1E9E, 1, 1, 0xDF); (0x1EA0, 48, 2, 0x1EA1);
    (0x1F08, 8, 1, 0x1F00); (0x1F18, 6, 1, 0x1F10); (0x1F28, 8, 1, 0x1F20);
    (0x1F38, 8, 1, 0x1F30); (0x1F48, 6, 1, 0x1F40); (0x1F59, 4, 2, 0x1F51);
    (0x1F68, 8, 1, 0x1F60); (0x1F88, 8, 1, 0x1F80); (0x1F98, 8, 1, 0x1F90);
    (0x1FA8, 8, 1, 0x1FA0); (0x1FB8, 2, 1, 0x1FB0); (0x1FBA, 2, 1, 0x1F70);
    (0x1FBC, 1, 1, 0x1FB3); (0x1FC8, 4, 1, 0x1F72); (0x1FCC, 1, 1, 0x1FC3);
    (0x1FD8, 2, 1, 0x1FD0); (0x1FDA, 2, 1, 0x1F76); (0x1FE8, 2, 1, 0x1FE0);
    (0x1FEA, 2, 1, 0x1F7A); (0x1FEC, 1, 1, 0x1FE5); (0x1FF8, 2, 1, 0x1F78);
    (0x1FFA, 2, 1, 0x1F7C); (0x1FFC, 1, 1, 0x1FF3); (0x2126, 1, 1, 0x3C9);
    (0x212A, 1, 1, 0x6B); (0x212B, 1, 1, 0xE5); (0x2132, 1, 1, 0x214E);
    (0x2160, 16, 1, 0x2170); (0x2183, 1, 1, 0x2184); (0x24B6, 26, 1, 0x24D0);
    (0x2C00, 48, 1, 0x2C30); (0x2C60, 1, 1, 0x2C61); (0x2C62, 1, 1, 0x26B);
    (0x2C63, 1, 1, 0x1D7D); (0x2C64, 1, 1, 0x27D); (0x2C67, 3, 2, 0x2C68);
    (0x2C6D, 1, 1, 0x251); (0x2C6E, 1, 1, 0x271); (0x2C6F, 1, 1, 0x250);
    (0x2C70, 1, 1, 0x252); (0x2C72, 1, 1, 0x2C73); (0x2C75, 1, 1, 0x2C76);
    (0x2C7E, 2, 1, 0x23F); (0x2C80, 50, 2, 0x2C81); (0x2CEB, 2, 2, 0x2CEC);
    (0x2CF2, 1, 1, 0x2CF3); (0xA640, 23, 2, 0xA641); (0xA680, 14, 2, 0xA681);
    (0xA722, 7, 2, 0xA723); (0xA732, 31, 2, 0xA733); (0xA779, 2, 2, 0xA77A);
    (0xA77D, 1, 1, 0x1D79); (0xA77E, 5, 2, 0xA77F); (0xA78B, 1, 1, 0xA78C);
    (0xA78D, 1, 1, 0x265); (0xA790, 2, 2, 0xA791); (0xA796, 10, 2, 0xA797);
    (0xA7AA, 1, 1, 0x266); (0xA7AB, 1, 1, 0x25C); (0xA7AC, 1, 1, 0x261);
    (0xA7AD, 1, 1, 0x26C); (0xA7AE, 1, 1, 0x26A); (0xA7B0, 1, 1, 0x29E);
    (0xA7B1, 1, 1, 0x287); (0xA7B2, 1, 1, 0x29D); (0xA7B3, 1, 1, 0xAB53);
    (0xA7B4, 8, 2, 0xA7B5); (0xA7C4, 1, 1, 0xA794); (0xA7C5, 1, 1, 0x282);
    (0xA7C6, 1, 1, 0x1D8E); (0xA7C7, 2, 2, 0xA7C8); (0xA7D0, 1, 1, 0xA7D1);
    (0xA7D6, 2, 2, 0xA7D7); (0xA7F5, 1, 1, 0xA7F6); (0xFF21, 26, 1, 0xFF41);
    (0x10400, 40, 1, 0x10428); (0x104B0, 36, 1, 0x104D8);
    (0x10570, 19, 2, 0x10597); (0x10571, 5, 2, 0x10598);
    (0x1057D, 7, 2, 0x105A4); (0x1058D, 3, 2, 0x105B4);
    (0x10595, 1, 1, 0x105BC); (0x10C80, 51, 1, 0x10CC0);
    (0x118A0, 32, 1, 0x118C0); (0x16E40, 32, 1, 0x16E60);
    (0x1E900, 34, 1, 0x1E922) ].

(** The character whose lower case has two characters. *)
Definition LOWER_SPECIAL : list (N * pystr) :=
  [
    (0x130, [0x69; 0x307]) ].

(** The property Cased: closed ranges of code points. *)
Definition CASED : list (N * N) :=
  [
    (0x41, 0x5A); (0x61, 0x7A); (0xAA, 0xAA); (0xB5, 0xB5); (0xBA, 0xBA);
    (0xC0, 0xD6); (0xD8, 0xF6); (0xF8, 0x1BA); (0x1BC, 0x1BF);
    (0x1C4, 0x293); (0x295, 0x2B8); (0x2C0, 0x2C1); (0x2E0, 0x2E4);
    (0x345, 0x345); (0x370, 0x373); (0x376, 0x377); (0x37A, 0x37D);
    (0x37F, 0x37F); (0x386, 0x386); (0x388, 0x38A); (0x38C, 0x38C);
    (0x38E, 0x3A1); (0x3A3, 0x3F5); (0x3F7, 0x481); (0x48A, 0x52F);
    (0x531, 0x556); (0x560, 0x588); (0x10A0, 0x10C5); (0x10C7, 0x10C7);
    (0x10CD, 0x10CD); (0x10D0, 0x10FA); (0x10FD, 0x10FF); (0x13A0, 0x13F5);
    (0x13F8, 0x13FD); (0x1C80, 0x1C88); (0x1C90, 0x1CBA); (0x1CBD, 0x1CBF);
    (0x1D00, 0x1DBF); (0x1E00, 0x1F15); (0x1F18, 0x1F1D); (0x1F20, 0x1F45);
    (0x1F48, 0x1F4D); (0x1F50, 0x1F57); (0x1F59, 0x1F59); (0x1F5B, 0x1F5B);
    (0x1F5D, 0x1F5D); (0x1F5F, 0x1F7D); (0x1F80, 0x1FB4); (0x1FB6, 0x1FBC);
    (0x1FBE, 0x1FBE); (0x1FC2, 0x1FC4); (0x1FC6, 0x1FCC); (0x1FD0, 0x1FD3);
    (0x1FD6, 0x1FDB); (0x1FE0, 0x1FEC); (0x1FF2, 0x1FF4); (0x1FF6, 0x1FFC);
    (0x2071, 0x2071); (0x207F, 0x207F); (0x2090, 0x209C); (0x2102, 0x2102);
    (0x2107, 0x2107); (0x210A, 0x2113); (0x2115, 0x2115); (0x2119, 0x211D);
    (0x2124, 0x2124); (0x2126, 0x2126); (0x2128, 0x2128); (0x212A, 0x212D);
    (0x212F, 0x2134); (0x2139, 0x2139); (0x213C, 0x213F); (0x2145, 0x2149);
    (0x214E, 0x214E); (0x2160, 0x217F); (0x2183, 0x2184); (0x24B6, 0x24E9);
    (0x2C00, 0x2CE4); (0x2CEB, 0x2CEE); (0x2CF2, 0x2CF3); (0x2D00, 0x2D25);
    (0x2D27, 0x2D27); (0x2D2D, 0x2D2D); (0xA640, 0xA66D); (0xA680, 0xA69D);
    (0xA722, 0xA787); (0xA78B, 0xA78E); (0xA790, 0xA7CA); (0xA7D0, 0xA7D1);
    (0xA7D3, 0xA7D3); (0xA7D5, 0xA7D9); (0xA7F5, 0xA7F6); (0xA7F8, 0xA7FA);
    (0xAB30, 0xAB5A); (0xAB5C, 0xAB68); (0xAB70, 0xABBF); (0xFB00, 0xFB06);
    (0xFB13, 0xFB17); (0xFF21, 0xFF3A); (0xFF41, 0xFF5A); (0x10400, 0x1044F);
    (0x104B0, 0x104D3); (0x104D8, 0x104FB); (0x10570, 0x1057A);
    (0x1057C, 0x1058A); (0x1058C, 0x10592); (0x10594, 0x10595);
    (0x10597, 0x105A1); (0x105A3, 0x105B1); (0x105B3, 0x105B9);
    (0x105BB, 0x105BC); (0x10780, 0x10780); (0x10783, 0x10785);
    (0x10787, 0x107B0); (0x107B2, 0x107BA); (0x10C80, 0x10CB2);
    (0x10CC0, 0x10CF2); (0x118A0, 0x118DF); (0x16E40, 0x16E7F);
    (0x1D400, 0x1D454); (0x1D456, 0x1D49C); (0x1D49E, 0x1D49F);
    (0x1D4A2, 0x1D4A2); (0x1D4A5, 0x1D4A6); (0x1D4A9, 0x1D4AC);
    (0x1D4AE, 0x1D4B9); (0x1D4BB, 0x1D4BB); (0x1D4BD, 0x1D4C3);
    (0x1D4C5, 0x1D505); (0x1D507, 0x1D50A); (0x1D50D, 0x1D514);
    (0x1D516, 0x1D51C); (0x1D51E, 0x1D539); (0x1D53B, 0x1D53E);
    (0x1D540, 0x1D544); (0x1D546, 0x1D546); (0x1D54A, 0x1D550);
    (0x1D552, 0x1D6A5); (0x1D6A8, 0x1D6C0); (0x1D6C2, 0x1D6DA);
    (0x1D6DC, 0x1D6FA); (0x1D6FC, 0x1D714); (0x1D716, 0x1D734);
    (0x1D736, 0x1D74E); (0x1D750, 0x1D76E); (0x1D770, 0x1D788);
    (0x1D78A, 0x1D7A8); (0x1D7AA, 0x1D7C2); (0x1D7C4, 0x1D7CB);
    (0x1DF00, 0x1DF09); (0x1DF0B, 0x1DF1E); (0x1E900, 0x1E943);
    (0x1F130, 0x1F149); (0x1F150, 0x1F169); (0x1F170, 0x1F189) ].

(** The property Case_Ignorable: closed ranges of code points. *)
Definition CASE_IGNORABLE : list (N * N) :=
  [
    (0x27, 0x27); (0x2E, 0x2E); (0x3A, 0x3A); (0x5E, 0x5E); (0x60, 0x60);
    (0xA8, 0xA8); (0xAD, 0xAD); (0xAF, 0xAF); (0xB4, 0xB4); (0xB7, 0xB8);
    (0x2B0, 0x36F); (0x374, 0x375); (0x37A, 0x37A); (0x384, 0x385);
    (0x387, 0x387); (0x483, 0x489); (0x559, 0x559); (0x55F, 0x55F);
    (0x591, 0x5BD); (0x5BF, 0x5BF); (0x5C1, 0x5C2); (0x5C4, 0x5C5);
    (0x5C7, 0x5C7); (0x5F4, 0x5F4); (0x600, 0x605); (0x610, 0x61A);
    (0x61C, 0x61C); (0x640, 0x640); (0x64B, 0x65F); (0x670, 0x670);
    (0x6D6, 0x6DD); (0x6DF, 0x6E8); (0x6EA, 0x6ED); (0x70F, 0x70F);
    (0x711, 0x711); (0x730, 0x74A); (0x7A6, 0x7B0); (0x7EB, 0x7F5);
    (0x7FA, 0x7FA); (0x7FD, 0x7FD); (0x816, 0x82D); (0x859, 0x85B);
    (0x888, 0x888); (0x890, 0x891); (0x898, 0x89F); (0x8C9, 0x902);
    (0x93A, 0x93A); (0x93C, 0x93C); (0x941, 0x948); (0x94D, 0x94D);
    (0x951, 0x957); (0x962, 0x963); (0x971, 0x971); (0x981, 0x981);
    (0x9BC, 0x9BC); (0x9C1, 0x9C4); (0x9CD, 0x9CD); (0x9E2, 0x9E3);
    (0x9FE, 0x9FE); (0xA01, 0xA02); (0xA3C, 0xA3C); (0xA41, 0xA42);
    (0xA47, 0xA48); (0xA4B, 0xA4D); (0xA51, 0xA51); (0xA70, 0xA71);
    (0xA75, 0xA75); (0xA81, 0xA82); (0xABC, 0xABC); (0xAC1, 0xAC5);
    (0xAC7, 0xAC8); (0xACD, 0xACD); (0xAE2, 0xAE3); (0xAFA, 0xAFF);
    (0xB01, 0xB01); (0xB3C, 0xB3C); (0xB3F, 0xB3F); (0xB41, 0xB44);
    (0xB4D, 0xB4D); (0xB55, 0xB56); (0xB62, 0xB63); (0xB82, 0xB82);
    (0xBC0, 0xBC0); (0xBCD, 0xBCD); (0xC00, 0xC00); (0xC04, 0xC04);
    (0xC3C, 0xC3C); (0xC3E, 0xC40); (0xC46, 0xC48); (0xC4A, 0xC4D);
    (0xC55, 0xC56); (0xC62, 0xC63); (0xC81, 0xC81); (0xCBC, 0xCBC);
    (0xCBF, 0xCBF); (0xCC6, 0xCC6); (0xCCC, 0xCCD); (0xCE2, 0xCE3);
    (0xD00, 0xD01); (0xD3B, 0xD3C); (0xD41, 0xD44); (0xD4D, 0xD4D);
    (0xD62, 0xD63); (0xD81, 0xD81); (0xDCA, 0xDCA); (0xDD2, 0xDD4);
    (0xDD6, 0xDD6); (0xE31, 0xE31); (0xE34, 0xE3A); (0xE46, 0xE4E);
    (0xEB1, 0xEB1); (0xEB4, 0xEBC); (0xEC6, 0xEC6); (0xEC8, 0xECD);
    (0xF18, 0xF19); (0xF35, 0xF35); (0xF37, 0xF37); (0xF39, 0xF39);
    (0xF71, 0xF7E); (0xF80, 0xF84); (0xF86, 0xF87); (0xF8D, 0xF97);
    (0xF99, 0xFBC); (0xFC6, 0xFC6); (0x102D, 0x1030); (0x1032, 0x1037);
    (0x1039, 0x103A); (0x103D, 0x103E); (0x1058, 0x1059); (0x105E, 0x1060);
    (0x1071, 0x1074); (0x1082, 0x1082); (0x1085, 0x1086); (0x108D, 0x108D);
    (0x109D, 0x109D); (0x10FC, 0x10FC); (0x135D, 0x135F); (0x1712, 0x1714);
    (0x1732, 0x1733); (0x1752, 0x1753); (0x1772, 0x1773); (0x17B4, 0x17B5);
    (0x17B7, 0x17BD); (0x17C6, 0x17C6); (0x17C9, 0x17D3); (0x17D7, 0x17D7);
    (0x17DD, 0x17DD); (0x180B, 0x180F); (0x1843, 0x1843); (0x1885, 0x1886);
    (0x18A9, 0x18A9); (0x1920, 0x1922); (0x1927, 0x1928); (0x1932, 0x1932);
    (0x1939, 0x193B); (0x1A17, 0x1A18); (0x1A1B, 0x1A1B); (0x1A56, 0x1A56);
    (0x1A58, 0x1A5E); (0x1A60, 0x1A60); (0x1A62, 0x1A62); (0x1A65, 0x1A6C);
    (0x1A73, 0x1A7C); (0x1A7F, 0x1A7F); (0x1AA7, 0x1AA7); (0x1AB0, 0x1ACE);
    (0x1B00, 0x1B03); (0x1B34, 0x1B34); (0x1B36, 0x1B3A); (0x1B3C, 0x1B3C);
    (0x1B42, 0x1B42); (0x1B6B, 0x1B73); (0x1B80, 0x1B81); (0x1BA2, 0x1BA5);
    (0x1BA8, 0x1BA9); (0x1BAB, 0x1BAD); (0x1BE6, 0x1BE6); (0x1BE8, 0x1BE9);
    (0x1BED, 0x1BED); (0x1BEF, 0x1BF1); (0x1C2C, 0x1C33); (0x1C36, 0x1C37);
    (0x1C78, 0x1C7D); (0x1CD0, 0x1CD2); (0x1CD4, 0x1CE0); (0x1CE2, 0x1CE8);
    (0x1CED, 0x1CED); (0x1CF4, 0x1CF4); (0x1CF8, 0x1CF9); (0x1D2C, 0x1D6A);
    (0x1D78, 0x1D78); (0x1D9B, 0x1DFF); (0x1FBD, 0x1FBD); (0x1FBF, 0x1FC1);
    (0x1FCD, 0x1FCF); (0x1FDD, 0x1FDF); (0x1FED, 0x1FEF); (0x1FFD, 0x1FFE);
    (0x200B, 0x200F); (0x2018, 0x2019); (0x2024, 0x2024); (0x2027, 0x2027);
    (0x202A, 0x202E); (0x2060, 0x2064); (0x2066, 0x206F); (0x2071, 0x2071);
    (0x207F, 0x207F); (0x2090, 0x209C); (0x20D0, 0x20F0); (0x2C7C, 0x2C7D);
    (0x2CEF, 0x2CF1); (0x2D6F, 0x2D6F); (0x2D7F, 0x2D7F); (0x2DE0, 0x2DFF);
    (0x2E2F, 0x2E2F); (0x3005, 0x3005); (0x302A, 0x302D); (0x3031, 0x3035);
    (0x303B, 0x303B); (0x3099, 0x309E); (0x30FC, 0x30FE); (0xA015, 0xA015);
    (0xA4F8, 0xA4FD); (0xA60C, 0xA60C); (0xA66F, 0xA672); (0xA674, 0xA67D);
    (0xA67F, 0xA67F); (0xA69C, 0xA69F); (0xA6F0, 0xA6F1); (0xA700, 0xA721);
    (0xA770, 0xA770); (0xA788, 0xA78A); (0xA7F2, 0xA7F4); (0xA7F8, 0xA7F9);
    (0xA802, 0xA802); (0xA806, 0xA806); (0xA80B, 0xA80B); (0xA825, 0xA826);
    (0xA82C, 0xA82C); (0xA8C4, 0xA8C5); (0xA8E0, 0xA8F1); (0xA8FF, 0xA8FF);
    (0xA926, 0xA92D); (0xA947, 0xA951); (0xA980, 0xA982); (0xA9B3, 0xA9B3);
    (0xA9B6, 0xA9B9); (0xA9BC, 0xA9BD); (0xA9CF, 0xA9CF); (0xA9E5, 0xA9E6);
    (0xAA29, 0xAA2E); (0xAA31, 0xAA32); (0xAA35, 0xAA36); (0xAA43, 0xAA43);
    (0xAA4C, 0xAA4C); (0xAA70, 0xAA70); (0xAA7C, 0xAA7C); (0xAAB0, 0xAAB0);
    (0xAAB2, 0xAAB4); (0xAAB7, 0xAAB8); (0xAABE, 0xAABF); (0xAAC1, 0xAAC1);
    (0xAADD, 0xAADD); (0xAAEC, 0xAAED); (0xAAF3, 0xAAF4); (0xAAF6, 0xAAF6);
    (0xAB5B, 0xAB5F); (0xAB69, 0xAB6B); (0xABE5, 0xABE5); (0xABE8, 0xABE8);
    (0xABED, 0xABED); (0xFB1E, 0xFB1E); (0xFBB2, 0xFBC2); (0xFE00, 0xFE0F);
    (0xFE13, 0xFE13); (0xFE20, 0xFE2F); (0xFE52, 0xFE52); (0xFE55, 0xFE55);
    (0xFEFF, 0xFEFF); (0xFF07, 0xFF07); (0xFF0E, 0xFF0E); (0xFF1A, 0xFF1A);
    (0xFF3E, 0xFF3E); (0xFF40, 0xFF40); (0xFF70, 0xFF70); (0xFF9E, 0xFF9F);
    (0xFFE3, 0xFFE3); (0xFFF9, 0xFFFB); (0x101FD, 0x101FD);
    (0x102E0, 0x102E0); (0x10376, 0x1037A); (0x10780, 0x10785);
    (0x10787, 0x107B0); (0x107B2, 0x107BA); (0x10A01, 0x10A03);
    (0x10A05, 0x10A06); (0x10A0C, 0x10A0F); (0x10A38, 0x10A3A);
    (0x10A3F, 0x10A3F); (0x10AE5, 0x10AE6); (0x10D24, 0x10D27);
    (0x10EAB, 0x10EAC); (0x10F46, 0x10F50); (0x10F82, 0x10F85);
    (0x11001, 0x11001); (0x11038, 0x11046); (0x11070, 0x11070);
    (0x11073, 0x11074); (0x1107F, 0x11081); (0x110B3, 0x110B6);
    (0x110B9, 0x110BA); (0x110BD, 0x110BD); (0x110C2, 0x110C2);
    (0x110CD, 0x110CD); (0x11100, 0x11102); (0x11127, 0x1112B);
    (0x1112D, 0x11134); (0x11173, 0x11173); (0x11180, 0x11181);
    (0x111B6, 0x111BE); (0x111C9, 0x111CC); (0x111CF, 0x111CF);
    (0x1122F, 0x11231); (0x11234, 0x11234); (0x11236, 0x11237);
    (0x1123E, 0x1123E); (0x112DF, 0x112DF); (0x112E3, 0x112EA);
    (0x11300, 0x11301); (0x1133B, 0x1133C); (0x11340, 0x11340);
    (0x11366, 0x1136C); (0x11370, 0x11374); (0x11438, 0x1143F);
    (0x11442, 0x11444); (0x11446, 0x11446); (0x1145E, 0x1145E);
    (0x114B3, 0x114B8); (0x114BA, 0x114BA); (0x114BF, 0x114C0);
    (0x114C2, 0x114C3); (0x115B2, 0x115B5); (0x115BC, 0x115BD);
    (0x115BF, 0x115C0); (0x115DC, 0x115DD); (0x11633, 0x1163A);
    (0x1163D, 0x1163D); (0x1163F, 0x11640); (0x116AB, 0x116AB);
    (0x116AD, 0x116AD); (0x116B0, 0x116B5); (0x116B7, 0x116B7);
    (0x1171D, 0x1171F); (0x11722, 0x11725); (0x11727, 0x1172B);
    (0x1182F, 0x11837); (0x11839, 0x1183A); (0x1193B, 0x1193C);
    (0x1193E, 0x1193E); (0x11943, 0x11943); (0x119D4, 0x119D7);
    (0x119DA, 0x119DB); (0x119E0, 0x119E0); (0x11A01, 0x11A0A);
    (0x11A33, 0x11A38); (0x11A3B, 0x11A3E); (0x11A47, 0x11A47);
    (0x11A51, 0x11A56); (0x11A59, 0x11A5B); (0x11A8A, 0x11A96);
    (0x11A98, 0x11A99); (0x11C30, 0x11C36); (0x11C38, 0x11C3D);
    (0x11C3F, 0x11C3F); (0x11C92, 0x11CA7); (0x11CAA, 0x11CB0);
    (0x11CB2, 0x11CB3); (0x11CB5, 0x11CB6); (0x11D31, 0x11D36);
    (0x11D3A, 0x11D3A); (0x11D3C, 0x11D3D); (0x11D3F, 0x11D45);
    (0x11D47, 0x11D47); (0x11D90, 0x11D91); (0x11D95, 0x11D95);
    (0x11D97, 0x11D97); (0x11EF3, 0x11EF4); (0x13430, 0x13438);
    (0x16AF0, 0x16AF4); (0x16B30, 0x16B36); (0x16B40, 0x16B43);
    (0x16F4F, 0x16F4F); (0x16F8F, 0x16F9F); (0x16FE0, 0x16FE1);
    (0x16FE3, 0x16FE4); (0x1AFF0, 0x1AFF3); (0x1AFF5, 0x1AFFB);
    (0x1AFFD, 0x1AFFE); (0x1BC9D, 0x1BC9E); (0x1BCA0, 0x1BCA3);
    (0x1CF00, 0x1CF2D); (0x1CF30, 0x1CF46); (0x1D167, 0x1D169);
    (0x1D173, 0x1D182); (0x1D185, 0x1D18B); (0x1D1AA, 0x1D1AD);
    (0x1D242, 0x1D244); (0x1DA00, 0x1DA36); (0x1DA3B, 0x1DA6C);
    (0x1DA75, 0x1DA75); (0x1DA84, 0x1DA84); (0x1DA9B, 0x1DA9F);
    (0x1DAA1, 0x1DAAF); (0x1E000, 0x1E006); (0x1E008, 0x1E018);
    (0x1E01B, 0x1E021); (0x1E023, 0x1E024); (0x1E026, 0x1E02A);
    (0x1E130, 0x1E13D); (0x1E2AE, 0x1E2AE); (0x1E2EC, 0x1E2EF);
    (0x1E8D0, 0x1E8D6); (0x1E944, 0x1E94B); (0x1F3FB, 0x1F3FF);
    (0xE0001, 0xE0001); (0xE0020, 0xE007F); (0xE0100, 0xE01EF) ].

(** The upper case and the lower case of one character. *)
Definition upper_cp (c : N) : pystr := full_case UPPER_RUNS UPPER_SPECIAL c.
Definition lower_cp (c : N) : pystr := full_case LOWER_RUNS LOWER_SPECIAL c.

Definition cased (c : N) : bool := in_ranges CASED c.
Definition case_ignorable (c : N) : bool := in_ranges CASE_IGNORABLE c.

(** [s.upper()] *)
Definition upper (s : pystr) : pystr := flat_map upper_cp s.

(** [s.lower()]: character by character, except for the capital sigma
    U+03A3, which becomes the final sigma U+03C2 when, case-ignorable
    characters skipped, a cased character stands before it and none after
    it, else the sigma U+03C3.  [before] tells whether the nearest
    character before that is not case-ignorable is cased. *)
Fixpoint final_after (rest : pystr) : bool :=
  match rest with
  | [] => true
  | c :: r => if case_ignorable c then final_after r else negb (cased c)
  end.

Fixpoint lower_from (before : bool) (s : pystr) : pystr :=
  match s with
  | [] => []
  | c :: r =>
      (if c =? 0x3A3
       then [if before && final_after r then 0x3C2 else 0x3C3]
       else lower_cp c)
      ++ lower_from (if case_ignorable c then before else cased c) r
  end.

Definition lower (s : pystr) : pystr := lower_from false s.

(** [s.replace(old, new)] for a one-character [old]. *)
Definition replace (old : N) (new : pystr) (s : pystr) : pystr :=
  flat_map (fun c => if c =? old then new else [c]) s.

(** [sep.join(parts)] *)
Fixpoint join (sep : pystr) (parts : list pystr) : pystr :=
  match parts with
  | [] => []
  | [p] => p
  | p :: ps => p ++ sep ++ join sep ps
  end.

(** Unicode decimal digits (category Nd): each block holds the ten digits
    0..9 in order; the list gives the code point of every block's zero. *)
Definition Nd_zeros : list N :=
  [ 0x30; 0x660; 0x6F0; 0x7C0; 0x966; 0x9E6; 0xA66; 0xAE6; 0xB66; 0xBE6;
    0xC66; 0xCE6; 0xD66; 0xDE6; 0xE50; 0xED0; 0xF20; 0x1040; 0x1090;
    0x17E0; 0x1810; 0x1946; 0x19D0; 0x1A80; 0x1A90; 0x1B50; 0x1BB0;
    0x1C40; 0x1C50; 0xA620; 0xA8D0; 0xA900; 0xA9D0; 0xA9F0; 0xAA50;
    0xABF0; 0xFF10; 0x104A0; 0x10D30; 0x11066; 0x110F0; 0x11136;
    0x111D0; 0x112F0; 0x11450; 0x114D0; 0x11650; 0x116C0; 0x11730;
    0x118E0; 0x11950; 0x11C50; 0x11D50; 0x11DA0; 0x16A60; 0x16AC0;
    0x16B50; 0x1D7CE; 0x1D7D8; 0x1D7E2; 0x1D7EC; 0x1D7F6; 0x1E140;
    0x1E2F0; 0x1E950; 0x1FBF0 ].

Fixpoint digit_in (zeros : list N) (c : N) : option N :=
  match zeros with
  | [] => None
  | z :: zs => if (z <=? c) && (c <? z + 10) then Some (c - z)
               else digit_in zs c
  end.

(** The value of a decimal digit, [None] for any other code point. *)
Definition digit_value (c : N) : option N := digit_in Nd_zeros c.

(** The class [\d] of [re] on [str] patterns. *)
Definition is_digit (c : N) : bool :=
  match digit_value c with Some _ => true | None => false end.

(** [str(n)] for a non-negative integer. *)
Fixpoint uint_digits (u : Decimal.uint) : pystr :=
  match u with
  | Decimal.Nil => []
  | Decimal.D0 r => 0x30 :: uint_digits r
  | Decimal.D1 r => 0x31 :: uint_digits r
  | Decimal.D2 r => 0x32 :: uint_digits r
  | Decimal.D3 r => 0x33 :: uint_digits r
  | Decimal.D4 r => 0x34 :: uint_digits r
  | Decimal.D5 r => 0x35 :: uint_digits r
  | Decimal.D6 r => 0x36 :: uint_digits r
  | Decimal.D7 r => 0x37 :: uint_digits r
  | Decimal.D8 r => 0x38 :: uint_digits r
  | Decimal.D9 r => 0x39 :: uint_digits r
  end.

Definition str_N (n : N) : pystr := uint_digits (N.to_uint n).

(** [str(z)] for an [int]. *)
Definition str_Z (z : Z) : pystr :=
  match z with
  | Zneg p => 0x2D :: str_N (Npos p)
  | _ => str_N (Z.to_N z)
  end.
End PyText.
Import PyText.


(** ** The backtracking matcher of [re] *)
Module PyRe.
(** The fragment of the pattern language the program uses: a character
    class, concatenation, a greedy optional group and a greedy
    one-or-more repetition of a character class. *)
Inductive regex :=
| Cls (p : N -> bool)
| Cat (a b : regex)
| Opt (a : regex)
| Plus (p : N -> bool).

(** Greedy repetition: take one more character first, give it back when
    the continuation fails. *)
Fixpoint star_k {A} (p : N -> bool) (s : pystr) (k : pystr -> option A)
  : option A :=
  match s with
  | c :: r =>
      if p c then
        match star_k p r k with
        | Some x => Some x
        | None => k s
        end
      else k s
  | [] => k s
  end.

(** [run a s k]: match [a] at the head of [s] and hand the rest of the
    input to the continuation [k]; alternatives are tried in the order
    of the engine (greedy first). *)
Fixpoint run {A} (a : regex) (s : pystr) (k : pystr -> option A)
  : option A :=
  match a with
  | Cls p =>
      match s with
      | c :: r => if p c then k r else None
      | [] => None
      end
  | Cat a b => run a s (fun r => run b r k)
  | Opt a =>
      match run a s k with
      | Some x => Some x
      | None => k s
      end
  | Plus p =>
      match s with
      | c :: r => if p c then star_k p r k else None
      | [] => None
      end
  end.

(** The text consumed when [rest] is what remains of [s]. *)
Definition consumed (s rest : pystr) : pystr :=
  take (length s - length rest) s.

(** [re.match(a, s)]: the matched text, [m.group(0)]. *)
Definition re_match (a : regex) (s : pystr) : option pystr :=
  run a s (fun rest => Some (consumed s rest)).

(** [re.search(a, s)]: the match at the leftmost position that has one. *)
Fixpoint re_search (a : regex) (s : pystr) : option pystr :=
  match re_match a s with
  | Some m => Some m
  | None =>
      match s with
      | [] => None
      | _ :: r => re_search a r
      end
  end.

(** [re.fullmatch(a, s)] *)
Definition re_fullmatch (a : regex) (s : pystr) : option pystr :=
  run a s (fun rest => match rest with [] => Some s | _ => None end).

Definition chr (c : N) : regex := Cls (N.eqb c).
End PyRe.
Import PyRe.

(** The two patterns of the program: [-?\d+(?:\.\d+)?] in [parse_num] and
    [\d+(?:[\.,]\d+)?] in [normalize_unit_name]. *)
Definition NUM_RE : regex :=
  Cat (Opt (chr 0x2D)) (Cat (Plus is_digit) (Opt (Cat (chr 0x2E) (Plus is_digit)))).

Definition UNIT_NUM_RE : regex :=
  Cat (Plus is_digit)
      (Opt (Cat (Cls (fun c => N.eqb c 0x2E || N.eqb c 0x2C)) (Plus is_digit))).


(** ** Python's [float]: IEEE 754 binary64 *)
Module PyFloat.
Local Open Scope Z_scope.

Abbreviation float := spec_float.
Definition prec : Z := 53.
Definition emax : Z := 1024.

Definition is_nan (f : float) : bool :=
  match f with S754_nan => true | _ => false end.
Definition is_inf (f : float) : bool :=
  match f with S754_infinity _ => true | _ => false end.

(** [f == g] and [f != 0] on floats. *)
Definition feqb (f g : float) : bool := SFeqb f g.
Definition nonzero (f : float) : bool := negb (feqb f (S754_zero false)).

(** The double nearest to [(-1)^neg * m * 10^e10], ties to even: the
    value [float()] gives to a decimal numeral. *)
Definition of_decimal (neg : bool) (m : N) (e10 : Z) : float :=
  match m with
  | N0 => S754_zero neg
  | Npos p =>
      if 0 <=? e10 then
        binary_round prec emax neg (p * Z.to_pos (10 ^ e10)) 0
      else
        let '(q, e, l) :=
          SFdiv_core_binary prec emax (Zpos p) 0 (10 ^ (- e10)) 0 in
        binary_round_aux prec emax neg q e l
  end.

(** [float(z)] for an [int]: the nearest double, [None] for the
    [OverflowError] of an integer too large for a double. *)
Definition of_int (z : Z) : option float :=
  match binary_normalize prec emax z 0 false with
  | S754_infinity _ => None
  | f => Some f
  end.

Definition one : float := of_decimal false 1 0.
Definition zero : float := S754_zero false.

(** *** [float(s)] for a string *)

Definition number_of (ds : list N) : N :=
  fold_left (fun acc d => (10 * acc + d)%N) ds 0%N.

(** After a first digit: [(["_"] digit)*]. *)
Fixpoint digitpart_more (s : pystr) : list N * pystr :=
  match s with
  | c :: r =>
      match digit_value c with
      | Some d => let '(ds, rest) := digitpart_more r in (d :: ds, rest)
      | None =>
          if (c =? 0x5F)%N then
            match r with
            | c2 :: r2 =>
                match digit_value c2 with
                | Some d =>
                    let '(ds, rest) := digitpart_more r2 in (d :: ds, rest)
                | None => ([], s)
                end
            | [] => ([], s)
            end
          else ([], s)
      end
  | [] => ([], [])
  end.

(** [digitpart ::= digit (["_"] digit)*] *)
Definition digitpart (s : pystr) : option (list N * pystr) :=
  match s with
  | c :: r =>
      match digit_value c with
      | Some d => let '(ds, rest) := digitpart_more r in Some (d :: ds, rest)
      | None => None
      end
  | [] => None
  end.

Definition sign_of (s : pystr) : bool * pystr :=
  match s with
  | c :: r => if (c =? 0x2D)%N then (true, r)
              else if (c =? 0x2B)%N then (false, r) else (false, s)
  | [] => (false, s)
  end.

(** [exponent ::= ("e" | "E") [sign] digitpart], to the end of the text. *)
Definition exponent (s : pystr) : option Z :=
  match s with
  | [] => Some 0
  | c :: r =>
      if (c =? 0x65)%N || (c =? 0x45)%N then
        let '(neg, r1) := sign_of r in
        match digitpart r1 with
        | Some (ds, []) =>
            let e := Z.of_N (number_of ds) in
            Some (if neg then - e else e)
        | _ => None
        end
      else None
  end.

(** [number ::= [digitpart] "." digitpart | digitpart ["."]], then the
    exponent. *)
Definition floatnumber (neg : bool) (s : pystr) : option float :=
  let finish (ip fp : list N) (rest : pystr) :=
    match exponent rest with
    | Some e =>
        Some (of_decimal neg (number_of (ip ++ fp)) (e - Z.of_nat (length fp)))
    | None => None
    end in
  match digitpart s with
  | Some (ip, c :: r) =>
      if (c =? 0x2E)%N then
        match digitpart r with
        | Some (fp, rest) => finish ip fp rest
        | None => finish ip [] r
        end
      else finish ip [] (c :: r)
  | Some (ip, []) => finish ip [] []
  | None =>
      match s with
      | c :: r =>
          if (c =? 0x2E)%N then
            match digitpart r with
            | Some (fp, rest) => finish [] fp rest
            | None => None
            end
          else None
      | [] => None
      end
  end.

(** [float(s)]: [None] stands for [ValueError]. *)
Definition of_str (s : pystr) : option float :=
  let '(neg, r) := sign_of (strip s) in
  let w := lower r in
  if bool_decide (w = py "inf") || bool_decide (w = py "infinity")
  then Some (S754_infinity neg)
  else if bool_decide (w = py "nan") then Some S754_nan
  else floatnumber neg r.

(** *** [repr(f)], which is also [str(f)]

    The shortest decimal numeral that reads back as [f], the one nearest
    to [f] when several have that length, printed in positional notation
    when the decimal point falls within [-4 < decpt <= 16] and in
    exponent notation otherwise. *)

(** [f = num/den] for a finite positive [f = m * 2^e]. *)
Definition ratio (m : positive) (e : Z) : Z * Z :=
  if 0 <=? e then (Zpos m * 2 ^ e, 1) else (Zpos m, 2 ^ (- e)).

(** [num/den] scaled by [10^(-k)]. *)
Definition scaled (nd : Z * Z) (k : Z) : Z * Z :=
  let '(num, den) := nd in
  if 0 <=? k then (num, den * 10 ^ k) else (num * 10 ^ (- k), den).

(** [10^j <= num/den] *)
Definition pow10_le (nd : Z * Z) (j : Z) : bool :=
  let '(a, b) := scaled nd j in b <=? a.

(** [floor (log10 (m * 2^e))] *)
Definition ilog10 (m : positive) (e : Z) : Z :=
  let nd := ratio m e in
  let j0 := (Zpos (digits2_pos m) + e - 1) * 30103 / 100000 in
  if pow10_le nd (j0 + 1) then j0 + 1
  else if pow10_le nd j0 then j0 else j0 - 1.

Definition reads_back (m : positive) (e : Z) (d : Z) (k : Z) : bool :=
  match of_decimal false (Z.to_N d) k with
  | S754_finite _ m' e' => (Zpos m' =? Zpos m) && (e' =? e)
  | _ => false
  end.

(** The numeral with [n] significant digits, if one reads back as [f]:
    its digits as an integer [d] with [f ~ d * 10^k]. *)
Definition shortest_at (m : positive) (e : Z) (n : Z) : option (Z * Z) :=
  let k := ilog10 m e - (n - 1) in
  let '(a, b) := scaled (ratio m e) k in
  let lo := a / b in
  let r := a mod b in
  let hi := lo + 1 in
  match reads_back m e lo k, reads_back m e hi k with
  | true, true => if 2 * r <=? b then Some (lo, k) else Some (hi, k)
  | true, false => Some (lo, k)
  | false, true => Some (hi, k)
  | false, false => None
  end.

Fixpoint shortest_from (m : positive) (e : Z) (n : Z) (fuel : nat)
  : Z * Z :=
  match fuel with
  | O => (Zpos m, 0)
  | S fuel' =>
      match shortest_at m e n with
      | Some dk => dk
      | None => shortest_from m e (n + 1) fuel'
      end
  end.

(** Seventeen significant digits always read back. *)
Definition shortest (m : positive) (e : Z) : Z * Z :=
  shortest_from m e 1 17.

Fixpoint drop_zeros_end (fuel : nat) (d k : Z) : Z * Z :=
  match fuel with
  | O => (d, k)
  | S fuel' =>
      if (d mod 10 =? 0) && negb (d =? 0)
      then drop_zeros_end fuel' (d / 10) (k + 1)
      else (d, k)
  end.

Definition zeros (n : Z) : pystr := repeat 0x30%N (Z.to_nat n).

Definition repr_finite (m : positive) (e : Z) : pystr :=
  let '(d0, k0) := shortest m e in
  let '(d, k) := drop_zeros_end 20 d0 k0 in
  let ds := str_Z d in
  let n := Z.of_nat (length ds) in
  let decpt := n + k in
  if (decpt <=? -4) || (16 <? decpt) then
    let x := decpt - 1 in
    let xs := str_Z (Z.abs x) in
    take 1 ds
    ++ (if 1 <? n then 0x2E%N :: drop 1 ds else [])
    ++ [0x65%N; if x <? 0 then 0x2D%N else 0x2B%N]
    ++ (if Z.abs x <? 10 then 0x30%N :: xs else xs)
  else if decpt <=? 0 then
    py "0." ++ zeros (- decpt) ++ ds
  else if n <=? decpt then
    ds ++ zeros (decpt - n) ++ py ".0"
  else
    take (Z.to_nat decpt) ds ++ 0x2E%N :: drop (Z.to_nat decpt) ds.

Definition repr (f : float) : pystr :=
  match f with
  | S754_nan => py "nan"
  | S754_infinity neg => if neg then py "-inf" else py "inf"
  | S754_zero neg => if neg then py "-0.0" else py "0.0"
  | S754_finite neg m e =>
      (if neg then [0x2D%N] else []) ++ repr_finite m e
  end.
End PyFloat.

Import PyFloat.

(** ** Cell values

    What a cell of a data frame, a coerced value or a statement parameter
    can be: [None], a number or a text.  An empty spreadsheet cell is read
    as the float [NaN].  A column holds the values of its cells as the
    objects [astype(object)] gives: a column of floats holds [NaN] where a
    value is missing. *)
Inductive number :=
| NBool (b : bool)
| NInt (z : Z)
| NFloat (f : float).

Inductive cell :=
| CNone
| CNum (n : number)
| CStr (s : pystr).

Abbreviation CBool b := (CNum (NBool b)).
Abbreviation CInt z := (CNum (NInt z)).
Abbreviation CFloat f := (CNum (NFloat f)).

(** [pd.isna(x)] on a scalar. *)
Definition isna (x : cell) : bool :=
  match x with
  | CNone => true
  | CFloat f => is_nan f
  | _ => false
  end.

Definition str_number (n : number) : pystr :=
  match n with
  | NBool b => if b then py "True" else py "False"
  | NInt z => str_Z z
  | NFloat f => repr f
  end.

(** [str(x)]; [Series.astype(str)] applies it to every element. *)
Definition py_str (x : cell) : pystr :=
  match x with
  | CNone => py "None"
  | CNum n => str_number n
  | CStr s => s
  end.

Inductive exn := OverflowError.

(** ** The coercers and their counters

    The three closures of [_clean_autocorrect] update the [nonlocal]
    counters; a computation takes the counters and ends with a value and
    the new counters, or with an exception nobody catches. *)
Record counters := {
  num_coerced : nat;
  bool_coerced : nat;
  unit_normalized : nat
}.

Inductive outcome (A : Type) :=
| Ret (a : A) (st : counters)
| Exc (e : exn).
Arguments Ret {A} a st.
Arguments Exc {A} e.

Definition M (A : Type) : Type := counters -> outcome A.

#[global] Instance M_ret : MRet M := fun A a st => Ret a st.
#[global] Instance M_bind : MBind M := fun A B k m st =>
  match m st with
  | Ret a st' => k a st'
  | Exc e => Exc e
  end.

Definition raise {A} (e : exn) : M A := fun _ => Exc e.

Definition plus_num (n : nat) (st : counters) : counters :=
  {| num_coerced := num_coerced st + n;
     bool_coerced := bool_coerced st;
     unit_normalized := unit_normalized st |}.
Definition plus_bool (n : nat) (st : counters) : counters :=
  {| num_coerced := num_coerced st;
     bool_coerced := bool_coerced st + n;
     unit_normalized := unit_normalized st |}.
Definition plus_unit (n : nat) (st : counters) : counters :=
  {| num_coerced := num_coerced st;
     bool_coerced := bool_coerced st;
     unit_normalized := unit_normalized st + n |}.

(** [num_coerced += n], [bool_coerced += n], [unit_normalized += n] *)
Definition add_num (n : nat) : M unit := fun st => Ret tt (plus_num n st).
Definition add_bool (n : nat) : M unit := fun st => Ret tt (plus_bool n st).
Definition add_unit (n : nat) : M unit := fun st => Ret tt (plus_unit n st).

(** [float(x)] for a number. *)
Definition to_float (n : number) : M float :=
  match n with
  | NBool b => mret (if b then one else zero)
  | NInt z => match of_int z with
              | Some f => mret f
              | None => raise OverflowError
              end
  | NFloat f => mret f
  end.

(** The branch [isinstance(x, (int, float))] is the case [CNum]: [bool] is
    a subclass of [int]. *)
Definition parse_num (x : cell) : M cell :=
  if isna x then mret CNone
  else
    match x with
    | CNum n => f ← to_float n; mret (CFloat f)
    | _ =>
        let s := strip (py_str x) in
        if bool_decide (s = []) then mret CNone
        else
          let s := replace 0x2C [0x2E%N] s in
          match re_search NUM_RE s with
          | Some g =>
              add_num (if bool_decide (s ≠ g) then 1 else 0);;
              match of_str g with
              | Some f => mret (CFloat f)
              | None => mret CNone
              end
          | None => mret CNone
          end
    end.

(** [x in (0, 1)] for a number. *)
Definition in_0_1 (n : number) : bool :=
  match n with
  | NBool _ => true
  | NInt z => (z =? 0)%Z || (z =? 1)%Z
  | NFloat f => feqb f zero || feqb f one
  end.

Definition TRUE_TOKENS : list pystr :=
  [py "1"; py "true"; py "t"; py "si"; py "s" ++ [0xED%N]; py "y"; py "yes"].
Definition FALSE_TOKENS : list pystr :=
  [py "0"; py "false"; py "f"; py "no"; py "n"].

(** [s in tokens] *)
Definition mem (s : pystr) (tokens : list pystr) : bool :=
  bool_decide (s ∈ tokens).

Definition parse_bool (x : cell) : M cell :=
  if isna x then mret CNone
  else
    match x with
    | CNum n =>
        add_bool (if in_0_1 n then 0 else 1);;
        f ← to_float n;
        mret (CInt (if nonzero f then 1 else 0))
    | _ =>
        let s := lower (strip (py_str x)) in
        if mem s TRUE_TOKENS then
          (if mem s [py "1"; py "true"] then mret tt else add_bool 1);;
          mret (CInt 1)
        else if mem s FALSE_TOKENS then
          (if mem s [py "0"; py "false"] then mret tt else add_bool 1);;
          mret (CInt 0)
        else
          match of_str (replace 0x2C [0x2E%N] s) with
          | Some v => add_bool 1;; mret (CInt (if nonzero v then 1 else 0))
          | None => mret CNone
          end
    end.

Definition UNIT_NORMALIZATION : gmap pystr pystr :=
  list_to_map
    [ (py "PZ", py "PIEZA"); (py "PZA", py "PIEZA"); (py "PZAS", py "PIEZA");
      (py "PIEZA", py "PIEZA"); (py "PIEZAS", py "PIEZA");
      (py "KG", py "KG"); (py "KILO", py "KG"); (py "KILOGRAMO", py "KG");
      (py "KILOS", py "KG"); (py "KGS", py "KG");
      (py "L", py "L"); (py "LT", py "L"); (py "LTS", py "L");
      (py "LITRO", py "L"); (py "LITROS", py "L");
      (py "M", py "M"); (py "MT", py "M"); (py "MTS", py "M");
      (py "METRO", py "M"); (py "METROS", py "M");
      (py "CJ", py "CAJA"); (py "CAJA", py "CAJA"); (py "CAJ", py "CAJA");
      (py "PAQ", py "PAQUETE"); (py "PAQUETE", py "PAQUETE") ].

Definition normalize_unit_name (x : cell) : M cell :=
  if isna x then mret CNone
  else
    let s := strip (py_str x) in
    if bool_decide (s = []) then mret CNone
    else
      match re_fullmatch UNIT_NUM_RE s with
      | Some _ => add_unit 1;; mret CNone
      | None =>
          let key := replace 0x20 [] (replace 0x2E [] (upper s)) in
          let canon := default (upper s) (UNIT_NORMALIZATION !! key) in
          (if bool_decide (canon ≠ s) then add_unit 1 else mret tt);;
          mret (CStr canon)
      end.

(** The lambda applied to the columns of type ['str']. *)
Definition clean_text (v : cell) : M cell :=
  if isna v || bool_decide (strip (py_str v) = []) then mret CNone
  else mret (CStr (strip (py_str v))).

Definition st0 : counters :=
  {| num_coerced := 0; bool_coerced := 0; unit_normalized := 0 |}.


(** ** The field registry *)
Inductive typ := TStr | TNum | TBool | TUnit.

(** Spreadsheet column, destination column and semantic type, in the order
    of the dictionary literal. *)
Definition ALLOWED_MAP : list (pystr * (pystr * typ)) :=
  [ (py "descripcion", (py "descripcion", TStr));
    (py "existencia", (py "existencia", TNum));
    (py "servicio", (py "servicio", TBool));
    (py "precio_compra", (py "preciocompra", TNum));
    (py "precio1", (py "precio1", TNum));
    (py "precio2", (py "precio2", TNum));
    (py "precio3", (py "precio3", TNum));
    (py "unidad_compra", (py "unidadCompra", TUnit));
    (py "unidad_venta", (py "unidadVenta", TUnit));
    (py "factor", (py "factor", TNum));
    (py "granel", (py "granel", TBool));
    (py "clave_alterna", (py "clavealterna", TStr)) ].

(** [ALLOWED_MAP.get(c)] and [c in ALLOWED_MAP] *)
Fixpoint assoc {A} (c : pystr) (l : list (pystr * A)) : option A :=
  match l with
  | [] => None
  | (k, v) :: r => if bool_decide (k = c) then Some v else assoc c r
  end.

Definition in_allowed (c : pystr) : bool :=
  match assoc c ALLOWED_MAP with Some _ => true | None => false end.

(** ** Data frames

    A data frame is the ordered list of its named columns; every column
    holds one cell per row. *)
Abbreviation Series := (list cell).
Abbreviation DataFrame := (list (pystr * Series)).

Definition columns (df : DataFrame) : list pystr := map fst df.

Definition nrows (df : DataFrame) : nat :=
  match df with
  | [] => 0
  | (_, v) :: _ => length v
  end.

(** [df.empty] *)
Definition df_empty (df : DataFrame) : bool :=
  match df with
  | [] => true
  | (_, v) :: _ => match v with [] => true | _ => false end
  end.

(** [df[c]] for a column the frame has. *)
Definition col (c : pystr) (df : DataFrame) : Series :=
  default [] (assoc c df).

(** [df[c] = v] for a column the frame has. *)
Definition set_col (c : pystr) (v : Series) (df : DataFrame) : DataFrame :=
  map (fun p => if bool_decide (fst p = c) then (fst p, v) else p) df.

(** [s[mask]] and [df[mask]] for a boolean mask. *)
Fixpoint keep_rows {A} (mask : list bool) (v : list A) : list A :=
  match mask, v with
  | b :: m, x :: r => if b then x :: keep_rows m r else keep_rows m r
  | _, _ => []
  end.

Definition select_rows (mask : list bool) (df : DataFrame) : DataFrame :=
  map (fun p => (fst p, keep_rows mask (snd p))) df.

(** [df.loc[:, ~df.columns.duplicated()]]: the first column of each name. *)
Fixpoint drop_duplicated (seen : list pystr) (df : DataFrame) : DataFrame :=
  match df with
  | [] => []
  | (c, v) :: r =>
      if bool_decide (c ∈ seen) then drop_duplicated seen r
      else (c, v) :: drop_duplicated (c :: seen) r
  end.

(** [df.to_dict(orient='records')]: one dictionary per row, in the order of
    the rows; the first row takes the head of every column and the others
    come from the tails. *)
Definition head_record (df : DataFrame) : list (pystr * cell) :=
  map (fun p => (fst p, hd CNone (snd p))) df.

Definition tail_df (df : DataFrame) : DataFrame :=
  map (fun p => (fst p, tl (snd p))) df.

Fixpoint records (n : nat) (df : DataFrame) : list (list (pystr * cell)) :=
  match n with
  | O => []
  | S n' => head_record df :: records n' (tail_df df)
  end.

Definition to_records (df : DataFrame) : list (list (pystr * cell)) :=
  records (nrows df) df.

(** [row[c]], the value a record has for a column; a statement reads its
    parameters by name in the same way. *)
Definition param (row : list (pystr * cell)) (c : pystr) : cell :=
  default CNone (assoc c row).

(** ** [_clean_autocorrect] *)

Record report := {
  dropped_rows : nat;
  coerced : counters
}.

Definition ID : pystr := py "id".
Definition CLAVE : pystr := py "clave".

(** [c in ('id','clave') or c in ALLOWED_MAP] *)
Definition kept (c : pystr) : bool :=
  bool_decide (c = ID) || bool_decide (c = CLAVE) || in_allowed c.

(** [df[c].astype(str).str.strip().str.lower()] on one cell. *)
Definition cell_text (x : cell) : pystr := lower (strip (py_str x)).

(** One turn of the loop over [sample_cols]:
    [mask_template |= (... == c)]. *)
Definition mask_or (df : DataFrame) (mask : list bool) (c : pystr)
  : list bool :=
  zip_with orb mask
    (map (fun x => bool_decide (cell_text x = c)) (col c df)).

Definition sample_cols (df : DataFrame) (key_col : pystr) : list pystr :=
  List.filter (fun c => bool_decide (c ≠ key_col)) (columns df).

Definition mask_template (df : DataFrame) (key_col : pystr) : list bool :=
  fold_left (mask_or df) (sample_cols df key_col)
            (repeat false (nrows df)).

Definition coercer (t : typ) : cell -> M cell :=
  match t with
  | TNum => parse_num
  | TBool => parse_bool
  | TUnit => normalize_unit_name
  | TStr => clean_text
  end.

(** *** The dtype of the column [Series.apply] returns

    [Series.apply] collects the values the function returned and passes
    them to [lib.maybe_convert_objects] (pandas 2.2), whose loop notes what
    it has seen and stops at the first value that no numeric dtype holds.
    Where the values are numbers and missing values only, the column comes
    back as an array of floats, [None] being [NaN] and an integer the float
    of the same value; otherwise the values stay as they are. *)
Inductive flag :=
| null_ | nan_ | bool_ | float_ | int_ | sint_ | uint_ | object_.

#[global] Instance flag_eq_dec : EqDecision flag.
Proof. solve_decision. Defined.

Definition has (seen : list flag) (x : flag) : bool := bool_decide (x ∈ seen).

Definition INT64_MIN : Z := - 2 ^ 63.
Definition INT64_MAX : Z := 2 ^ 63 - 1.
Definition UINT64_MAX : Z := 2 ^ 64 - 1.

(** One turn of the loop.  The range of an integer is looked at only as
    long as no [None] has been seen. *)
Definition see (seen : list flag) (val : cell) : list flag :=
  if has seen object_ then seen
  else
    match val with
    | CNone => null_ :: seen
    | CFloat f => if is_nan f then nan_ :: seen else float_ :: seen
    | CBool _ => bool_ :: seen
    | CInt z =>
        let seen := int_ :: seen in
        if has seen null_ then seen
        else
          let seen := if (INT64_MIN <=? z)%Z && (z <? 0)%Z
                      then sint_ :: seen else seen in
          let seen := if (INT64_MAX <? z)%Z && (z <=? UINT64_MAX)%Z
                      then uint_ :: seen else seen in
          if has seen uint_ && has seen sint_
             || (UINT64_MAX <? z)%Z || (z <? INT64_MIN)%Z
          then object_ :: seen else seen
    | CStr _ => object_ :: seen
    end.

(** [floats[i]] for a value: [NaN] for [None], the nearest double for an
    integer.  Where the conversion of an integer overflows to an infinity
    Python raises [OverflowError] instead; the integers that reach a column
    here are 0, 1 and the identifiers of the server, of 64 bits at most,
    far below. *)
Definition to_float64 (val : cell) : cell :=
  match val with
  | CNone => CFloat S754_nan
  | CInt z => CFloat (binary_normalize prec emax z 0 false)
  | _ => val
  end.

Definition maybe_convert_objects (objects : Series) : Series :=
  let seen := fold_left see objects [] in
  let floats := map to_float64 objects in
  if has seen bool_ then objects       (* booleans, alone or among objects *)
  else if has seen object_ then objects
  else if has seen null_ || has seen nan_ then
    if has seen float_ then floats
    else if has seen int_ then floats
    else if has seen nan_ then floats
    else objects                       (* [None] only *)
  else if has seen float_ then floats
  else objects.                        (* integers only, or nothing *)

(** The loop over [ALLOWED_MAP.items()]; [df[col].apply(...)] gives the
    values of the coercer under the dtype found for them. *)
Fixpoint coerce_columns (am : list (pystr * (pystr * typ))) (df : DataFrame)
  : M DataFrame :=
  match am with
  | [] => mret df
  | (c, (_, t)) :: rest =>
      if bool_decide (c ∈ columns df) then
        v ← mapM (coercer t) (col c df);
        coerce_columns rest (set_col c (maybe_convert_objects v) df)
      else coerce_columns rest df
  end.

(** The frame after the key column is made text and the rows with an empty
    key are removed. *)
Definition keyed (df : DataFrame) (key_col : pystr) : DataFrame :=
  let df := List.filter (fun p => kept (fst p)) df in
  let df :=
    set_col key_col (map (fun x => CStr (strip (py_str x))) (col key_col df))
            df in
  select_rows
    (map (fun x => negb (isna x) && negb (bool_decide (py_str x = [])))
         (col key_col df))
    df.

(** The frame after the echo rows are removed, and how many they were. *)
Definition filtered (df : DataFrame) (key_col : pystr) : DataFrame * nat :=
  let df := keyed df key_col in
  let mask := mask_template df key_col in
  let dropped := length (List.filter id mask) in
  (match dropped with
   | O => df
   | _ => select_rows (map negb mask) df
   end, dropped).

(** The cleaned frame and the report, or the exception that escapes. *)
Definition _clean_autocorrect (df : DataFrame) (key_col : pystr)
  : exn + DataFrame * report :=
  let '(df, dropped) := filtered df key_col in
  match coerce_columns ALLOWED_MAP df st0 with
  | Ret df st => inr (df, {| dropped_rows := dropped; coerced := st |})
  | Exc e => inl e
  end.


(** ** Statement parameters *)

(** [_to_py_mysql(v)]: booleans become integers, [NaN] and the infinities
    become [None], texts are trimmed and the empty text becomes [None]. *)
Definition _to_py_mysql (v : cell) : cell :=
  match v with
  | CNone => CNone
  | CBool b => CInt (if b then 1 else 0)
  | CInt z => CInt z
  | CFloat f => if is_nan f || is_inf f then CNone else CFloat f
  | CStr s => let s := strip s in
              if bool_decide (s = []) then CNone else CStr s
  end.

(** [obj.where(pd.notnull(obj), None)] on one cell. *)
Definition notnull_or_none (x : cell) : cell := if isna x then CNone else x.

(** [{k: _to_py_mysql(v) for k, v in row.items()}] *)
Definition params_of_record (rec : list (pystr * cell))
  : list (pystr * cell) :=
  map (fun kv => (fst kv, _to_py_mysql (snd kv))) rec.

(** [df_to_mysql_params(df)] *)
Definition df_to_mysql_params (df : DataFrame) : list (list (pystr * cell)) :=
  let obj := map (fun p => (fst p, map notnull_or_none (snd p))) df in
  map params_of_record (to_records obj).

(** [re.sub(r"[ .]", "", s)] *)
Definition drop_space_dot (s : pystr) : pystr :=
  List.filter (fun c => negb ((c =? 0x20)%N || (c =? 0x2E)%N)) s.

(** ** The database and the upload *)

(** A row of [articulo]: column name to value, [CNone] being [NULL]. *)
Abbreviation art_row := (gmap pystr cell).
Abbreviation table := (list art_row).

Definition field (r : art_row) (c : pystr) : cell := default CNone (r !! c).

(** A row of the result of [SQL_LOOKUPS]; [uni_id] is an integer key of the
    server, of 64 bits at most. *)
Record lookup_row := {
  uni_id : Z;
  key_nombre : option pystr;
  key_abrev : option pystr
}.

Record database := {
  unidad : list lookup_row;  (* what [SQL_LOOKUPS] returns *)
  articulo : table
}.

Inductive statement :=
| SQL_LOOKUPS
| SQL_UPDATE (sql_upd : pystr).

Inductive db_event :=
| Connect
| Execute (q : statement)
| ExecuteMany (q : statement) (nparams : nat)
| Commit
| Rollback
| Close.

(** The message boxes shown to the user, named by their titles. *)
Inductive dialog :=
| ExcelVacio
| SinIdentificador
| SinColumnasDeDatos
| SubidaCompletada (rows_used : nat) (rep : report)
| ErrorAlSubir.

(** Where the driver raises, if it does. *)
Inductive fault :=
| NoFault
| ConnectFails
| LookupFails
| WriteFails (i : nat).  (* at the parameter row of index [i] *)

(** A connection opened with [autocommit=False] on a transactional engine:
    statements change the [pending] state, which becomes durable at
    [commit] and is discarded at [rollback]. *)
Record conn := {
  committed : table;
  pending : table
}.

Definition conn_open (t : table) : conn := {| committed := t; pending := t |}.
Definition conn_commit (c : conn) : conn :=
  {| committed := pending c; pending := pending c |}.
Definition conn_rollback (c : conn) : conn :=
  {| committed := committed c; pending := committed c |}.
(** What the table holds once the connection is closed. *)
Definition conn_close (c : conn) : table := committed c.

Record result := {
  table_after : table;
  trace : list db_event;
  dialogs : list dialog;
  escaped : option exn
}.

(** The truth value of an optional text: [None] and [''] are false. *)
Definition truthy (o : option pystr) : bool :=
  match o with
  | Some (_ :: _) => true
  | _ => false
  end.

(** The loop that fills [unit_key_to_id]. *)
Definition unit_index (rows_lookup : list lookup_row) : gmap pystr Z :=
  fold_left
    (fun d r =>
       let d := if truthy (key_nombre r)
                then <[default [] (key_nombre r) := uni_id r]> d else d in
       if truthy (key_abrev r)
       then <[default [] (key_abrev r) := uni_id r]> d else d)
    rows_lookup ∅.

Definition to_unit_id (unit_key_to_id : gmap pystr Z) (x : cell) : cell :=
  if isna x || bool_decide (strip (py_str x) = []) then CNone
  else
    let s := upper (strip (py_str x)) in
    let s := default s (UNIT_NORMALIZATION !! s) in
    let key := drop_space_dot s in
    match unit_key_to_id !! key with
    | Some uid => CInt uid
    | None => CNone
    end.

(** The loop over [('unidad_compra', 'unidad_venta')]:
    [clean_df[col].apply(to_unit_id)], the identifiers under the dtype
    found for them. *)
Definition resolve_units (d : gmap pystr Z) (df : DataFrame) : DataFrame :=
  fold_left
    (fun df c =>
       if bool_decide (c ∈ columns df)
       then set_col c (maybe_convert_objects (map (to_unit_id d) (col c df)))
                    df
       else df)
    [py "unidad_compra"; py "unidad_venta"] df.

Definition update_cols_of (clean_df : DataFrame) : list pystr :=
  List.filter in_allowed (columns clean_df).

Definition dbcol_of (c : pystr) : pystr :=
  match assoc c ALLOWED_MAP with
  | Some (dbcol, _) => dbcol
  | None => c
  end.

(** [f"{dbcol}=COALESCE(%({c})s,{dbcol})"] *)
Definition set_part (c : pystr) : pystr :=
  dbcol_of c ++ py "=COALESCE(%(" ++ c ++ py ")s," ++ dbcol_of c ++ py ")".

Definition where_col_of (key_col : pystr) : pystr :=
  if bool_decide (key_col = ID) then py "art_id" else py "clave".

Definition sql_upd_of (update_cols : list pystr) (key_col : pystr) : pystr :=
  py "UPDATE articulo SET " ++ join (py ", ") (map set_part update_cols)
  ++ py " WHERE " ++ where_col_of key_col ++ py "=%(" ++ key_col ++ py ")s".

(** [COALESCE(new, old)] *)
Definition coalesce (new old : cell) : cell :=
  match new with
  | CNone => old
  | _ => new
  end.

(** [df[present]]: the listed columns, in the order of the list. *)
Definition select_cols (names : list pystr) (df : DataFrame) : DataFrame :=
  map (fun c => (c, col c df)) names.

(** The header after [str(c).strip().lower()] and the removal of the
    duplicated names. *)
Definition normalized (df : DataFrame) : DataFrame :=
  drop_duplicated [] (map (fun p => (lower (strip (fst p)), snd p)) df).

(** ['id' if 'id' in df.columns else ('clave' if 'clave' in df.columns else
    None)] *)
Definition key_col_of (df : DataFrame) : option pystr :=
  if bool_decide (ID ∈ columns df) then Some ID
  else if bool_decide (CLAVE ∈ columns df) then Some CLAVE else None.

Section Upload.
(** The comparison of the server in [WHERE col = param]. *)
Variable sql_eq : cell -> cell -> bool.

(** The [SET] list on one row of the table. *)
Definition set_row (update_cols : list pystr) (row : list (pystr * cell))
           (r : art_row) : art_row :=
  fold_left
    (fun r c =>
       <[dbcol_of c := coalesce (param row c) (field r (dbcol_of c))]> r)
    update_cols r.

(** The update statement run with the parameters of one record. *)
Definition exec_update (update_cols : list pystr) (key_col : pystr)
           (row : list (pystr * cell)) (t : table) : table :=
  map (fun r =>
         if sql_eq (field r (where_col_of key_col)) (param row key_col)
         then set_row update_cols row r else r)
      t.

(** [cur.executemany(sql_upd, rows)]: the statement once per record, in
    order; [inl] when the driver raises, with what was done until then. *)
Fixpoint executemany (update_cols : list pystr) (key_col : pystr)
         (rows : list (list (pystr * cell))) (fail_at : option nat)
         (t : table) : table + table :=
  match rows with
  | [] => inr t
  | row :: rest =>
      match fail_at with
      | Some O => inl t
      | _ =>
          executemany update_cols key_col rest (pred <$> fail_at)
                      (exec_update update_cols key_col row t)
      end
  end.

Definition fail_index (f : fault) : option nat :=
  match f with
  | WriteFails i => Some i
  | _ => None
  end.

(** The statement for every record of the batch, in order. *)
Definition apply_all (update_cols : list pystr) (key_col : pystr)
           (rows : list (list (pystr * cell))) (t : table) : table :=
  fold_left (fun t row => exec_update update_cols key_col row t) rows t.

(** [clean_df] once the unit columns hold identifiers, [update_cols] and
    [rows] as the upload computes them. *)
Definition resolved (clean_df : DataFrame) (db : database) : DataFrame :=
  resolve_units (unit_index (unidad db)) clean_df.

Definition batch_cols (clean_df : DataFrame) (db : database) : list pystr :=
  update_cols_of (resolved clean_df db).

Definition batch_rows (clean_df : DataFrame) (key_col : pystr)
           (db : database) : list (list (pystr * cell)) :=
  let present := batch_cols clean_df db ++ [key_col] in
  df_to_mysql_params (select_cols present (resolved clean_df db)).

(** The part of [upload_excel_to_db] inside the outer [try].  The branch
    without editable columns shows its warning, rolls back, closes the
    connection and returns; the [finally] clause then calls [conn.close()]
    on the closed connection, the second [Close] of the trace, for which
    the driver raises [Error("Already closed")]: the outer [except] shows
    the error message. *)
Definition transact (clean_df : DataFrame) (rep : report) (key_col : pystr)
           (db : database) (f : fault) : result :=
  match f with
  | ConnectFails =>
      {| table_after := articulo db; trace := [Connect];
         dialogs := [ErrorAlSubir]; escaped := None |}
  | _ =>
      let c := conn_open (articulo db) in
      match f with
      | LookupFails =>
          let c := conn_rollback c in
          {| table_after := conn_close c;
             trace := [Connect; Execute SQL_LOOKUPS; Rollback; Close];
             dialogs := [ErrorAlSubir]; escaped := None |}
      | _ =>
          let update_cols := batch_cols clean_df db in
          let set_parts := map set_part update_cols in
          match set_parts with
          | [] =>
              let c := conn_rollback c in
              {| table_after := conn_close c;
                 trace := [Connect; Execute SQL_LOOKUPS; Rollback; Close;
                           Close];
                 dialogs := [SinColumnasDeDatos; ErrorAlSubir];
                 escaped := None |}
          | _ =>
              let sql_upd := sql_upd_of update_cols key_col in
              let rows := batch_rows clean_df key_col db in
              let ev := [Connect; Execute SQL_LOOKUPS;
                         ExecuteMany (SQL_UPDATE sql_upd) (length rows)] in
              match executemany update_cols key_col rows (fail_index f)
                                (pending c) with
              | inr t =>
                  let c := {| committed := committed c; pending := t |} in
                  let c := conn_commit c in
                  {| table_after := conn_close c;
                     trace := ev ++ [Commit; Close];
                     dialogs := [SubidaCompletada (length rows) rep];
                     escaped := None |}
              | inl t =>
                  let c := {| committed := committed c; pending := t |} in
                  let c := conn_rollback c in
                  {| table_after := conn_close c;
                     trace := ev ++ [Rollback; Close];
                     dialogs := [ErrorAlSubir]; escaped := None |}
              end
          end
      end
  end.

(** [upload_excel_to_db], from the frame [_read_excel_safe] returned. *)
Definition upload_excel_to_db (df : DataFrame) (db : database) (f : fault)
  : result :=
  let quiet (ds : list dialog) (e : option exn) :=
    {| table_after := articulo db; trace := []; dialogs := ds;
       escaped := e |} in
  if df_empty df then quiet [ExcelVacio] None
  else
    let df := normalized df in
    match key_col_of df with
    | None => quiet [SinIdentificador] None
    | Some key_col =>
        match _clean_autocorrect df key_col with
        | inl e => quiet [] (Some e)
        | inr (clean_df, rep) => transact clean_df rep key_col db f
        end
    end.
End Upload.

(** ** [norm_key] *)

(** The truth value of a cell: [None], [False], zero and [''] are false. *)
Definition cell_truth (x : cell) : bool :=
  match x with
  | CNone => false
  | CBool b => b
  | CInt z => negb (z =? 0)%Z
  | CFloat f => nonzero f
  | CStr s => negb (bool_decide (s = []))
  end.

(** [norm_key(s)]: [re.sub(r"[ .]", "", str(s or '').upper())] *)
Definition norm_key (s : cell) : pystr :=
  drop_space_dot (upper (py_str (if cell_truth s then s else CStr []))).

(** ** The search box: [apply_filter_current_tab] *)

(** [s.startswith(t)] and [t in s] for two texts. *)
Fixpoint startswith (s t : pystr) {struct t} : bool :=
  match t, s with
  | [], _ => true
  | c :: t', d :: s' => (c =? d)%N && startswith s' t'
  | _ :: _, [] => false
  end.

Fixpoint contains (t s : pystr) : bool :=
  startswith s t
  || match s with
     | [] => false
     | _ :: r => contains t r
     end.

(** The loop over the columns of one row, with its [break]; an item is
    [None] where the table has none. *)
Fixpoint row_shown (text : pystr) (items : list (option pystr)) : bool :=
  match items with
  | [] => false
  | Some s :: rest =>
      if contains text (lower s) then true else row_shown text rest
  | None :: rest => row_shown text rest
  end.

(** [apply_filter_current_tab] on the table of the current tab, given the
    text of the search box: for every row whether it is hidden afterwards,
    and the message of the status bar, [None] when it is cleared, else the
    number of matching rows and the text searched. *)
Definition apply_filter_current_tab (query : pystr)
           (table : list (list (option pystr)))
  : list bool * option (nat * pystr) :=
  let text := lower (strip query) in
  if bool_decide (text = []) then (map (fun _ => false) table, None)
  else
    let '(hidden, matches) :=
      fold_left
        (fun '(hidden, matches) items =>
           let show := row_shown text items in
           (hidden ++ [negb show], if show then S matches else matches))
        table ([], 0) in
    (hidden, Some (matches, text)).

(** ** The preview of a sheet: [create_tab] and [_truncate_msg] *)

(** [df.head(n)]: the first [n] rows, all but the last [-n] when [n] is
    negative. *)
Definition df_head (n : Z) (df : DataFrame) : DataFrame :=
  let k := if (0 <=? n)%Z then Z.to_nat n
           else nrows df - Z.to_nat (- n) in
  map (fun p => (fst p, firstn k (snd p))) df.

(** The rows [create_tab] shows and whether it left some out; [limit] is
    [None] when "Cargar todo" is checked, else [max_preview_rows]. *)
Definition preview (load_all : bool) (max_preview_rows : Z) (df : DataFrame)
  : DataFrame * bool :=
  let limit := if load_all then None else Some max_preview_rows in
  let df_preview :=
    match limit with
    | Some l =>
        if negb (l =? 0)%Z && (l <? Z.of_nat (nrows df))%Z then df_head l df
        else df
    | None => df
    end in
  (df_preview, nrows df_preview <? nrows df).

(** The three messages of [_truncate_msg], named by their first words. *)
Inductive info :=
| SinDatos
| Mostrando (shown total : nat)
| TotalFilas (total : nat).

Definition _truncate_msg (truncated : bool) (shown total : nat) : info :=
  if total =? 0 then SinDatos
  else if truncated then Mostrando shown total
  else TotalFilas total.

(** ** The width of a column: [_write_df_to_excel_file] *)

(** The loop over the cells of a column of the sheet, then
    [min(max_len + 2, 60)]; a cell is [None] or holds a value, given here
    by its text [str(v)]. *)
Definition column_width (column_cells : list (option pystr)) : nat :=
  let max_len :=
    fold_left
      (fun max_len v =>
         match v with
         | None => max_len
         | Some s => let ln := length s in
                     if max_len <? ln then ln else max_len
         end)
      column_cells 0 in
  Nat.min (max_len + 2) 60.

(** ** The download: [SQL_PRODUCTOS] *)

(** The select list of [SQL_PRODUCTOS]: column of [articulo] and alias. *)
Definition SQL_PRODUCTOS : list (pystr * pystr) :=
  [ (py "art_id", py "id");
    (py "clave", py "clave");
    (py "clavealterna", py "clave_alterna");
    (py "descripcion", py "descripcion");
    (py "existencia", py "existencia");
    (py "servicio", py "servicio");
    (py "preciocompra", py "precio_compra");
    (py "precio1", py "precio1");
    (py "precio2", py "precio2");
    (py "precio3", py "precio3");
    (py "unidadCompra", py "unidad_compra");
    (py "unidadVenta", py "unidad_venta");
    (py "factor", py "factor");
    (py "granel", py "granel") ].

(** * Notions of the statements

    The row-wise reading of the filters, the language of a pattern, and
    the sheets and tables of the examples. *)

(** ** What a statement receives *)

(** What the statement receives for a cell of a numeric column: the value
    [parse_num] returns, after [df_to_mysql_params] has replaced the missing
    values by [None] and applied [_to_py_mysql]. *)
Definition num_param (x : cell) (st : counters) : outcome cell :=
  match parse_num x st with
  | Ret v st' => Ret (_to_py_mysql (notnull_or_none v)) st'
  | Exc e => Exc e
  end.

(** The names the registry knows. *)
Definition allowed_keys : list pystr := map fst ALLOWED_MAP.

(** Comparison of a key with a stored value, as texts. *)
Definition text_eq (a b : cell) : bool := bool_decide (py_str a = py_str b).

(** ** Frames and their rows *)

(** Every column holds [n] cells. *)
Definition rect (n : nat) (df : DataFrame) : Prop :=
  Forall (fun p => length (snd p) = n) df.

(** A frame as pandas builds it: the names are distinct and the columns
    have the length of the index. *)
Definition well_formed (df : DataFrame) : Prop :=
  NoDup (columns df) /\ rect (nrows df) df.

(** [df[c] = df[c].map(g)], record by record. *)
Definition update_at (c : pystr) (g : cell -> cell) (rec : list (pystr * cell))
  : list (pystr * cell) :=
  map (fun kv => if bool_decide (fst kv = c) then (fst kv, g (param rec c))
                 else kv) rec.

(** Some column of [cs] holds its own name in the record. *)
Definition echo_in (cs : list pystr) (rec : list (pystr * cell)) : bool :=
  existsb (fun c => bool_decide (cell_text (param rec c) = c)) cs.

(** Echo row: some cell other than the key holds, trimmed and lower-cased,
    the name of its own column. *)
Definition echo (key_col : pystr) (rec : list (pystr * cell)) : bool :=
  existsb (fun kv => bool_decide (fst kv <> key_col)
                     && bool_decide (cell_text (snd kv) = fst kv)) rec.

(** [astype(str).str.strip()] on the key cell. *)
Definition to_key (x : cell) : cell := CStr (strip (py_str x)).

(** [notna() & (!= '')] on the key cell. *)
Definition key_ok (x : cell) : bool :=
  negb (isna x) && negb (bool_decide (py_str x = [])).

(** A row as the filters see it: the columns of the registry and the two
    key columns, the key made text. *)
Definition keyed_record (key_col : pystr) (rec : list (pystr * cell))
  : list (pystr * cell) :=
  update_at key_col to_key (List.filter (fun kv => kept (fst kv)) rec).

(** The rows that pass the key filter, then the rows kept and the number of
    rows dropped by the echo filter. *)
Definition rowwise (key_col : pystr) (recs : list (list (pystr * cell)))
  : list (list (pystr * cell)) * nat :=
  let rs := List.filter (fun rec => key_ok (param rec key_col))
                        (map (keyed_record key_col) recs) in
  (List.filter (fun rec => negb (echo key_col rec)) rs,
   length (List.filter (echo key_col) rs)).

(** ** Patterns and texts *)

(** The texts a pattern matches. *)
Inductive matches : regex -> pystr -> Prop :=
| M_cls p c : p c = true -> matches (Cls p) [c]
| M_cat a b s t : matches a s -> matches b t -> matches (Cat a b) (s ++ t)
| M_opt_none a : matches (Opt a) []
| M_opt_some a s : matches a s -> matches (Opt a) s
| M_plus p c s :
    p c = true -> Forall (fun d => p d = true) s -> matches (Plus p) (c :: s).

(** A character of a numeral: a digit, a point or a comma. *)
Definition numch (c : N) : bool :=
  is_digit c || (c =? 0x2E)%N || (c =? 0x2C)%N.

(** No space at either end. *)
Definition trimmed (s : pystr) : Prop := lstrip s = s /\ lstrip (rev s) = rev s.

(** The unit names on the right-hand side of [UNIT_NORMALIZATION]. *)
Definition CANONICAL_UNITS : list pystr :=
  [py "PIEZA"; py "KG"; py "L"; py "M"; py "CAJA"; py "PAQUETE"].

(** What remains after the longest run of characters of a class. *)
Fixpoint skip (p : N -> bool) (s : pystr) : pystr :=
  match s with
  | c :: r => if p c then skip p r else s
  | [] => []
  end.

(** What remains after an optional fraction: a point and digits. *)
Definition frac_rest (r : pystr) : pystr :=
  match r with
  | c :: c2 :: r2 => if (0x2E =? c)%N && is_digit c2
                     then skip is_digit r2 else r
  | _ => r
  end.

(** What remains after digits and an optional fraction, if the text
    starts with a digit. *)
Definition unsigned_rest (r : pystr) : option pystr :=
  match r with
  | c :: r1 => if is_digit c then Some (frac_rest (skip is_digit r1)) else None
  | [] => None
  end.

(** What remains of the text after the match of the numeric pattern at its
    head. *)
Definition num_rest (s : pystr) : option pystr :=
  match s with
  | c :: r => if (0x2D =? c)%N then unsigned_rest r else unsigned_rest s
  | [] => None
  end.

(** The first token of a text: a text of the pattern, at the first
    position where one starts, the longest that starts there. *)
Definition first_token (a : regex) (s g : pystr) : Prop :=
  exists pre post,
    s = pre ++ g ++ post
    /\ matches a g
    /\ (forall pre' g' post',
          s = pre' ++ g' ++ post' -> matches a g' ->
          length pre <= length pre')
    /\ (forall g' post',
          g ++ post = g' ++ post' -> matches a g' -> length g' <= length g).

(** Where a run of digits ends: at the end of the text or at a character
    that is neither a digit nor an underscore. *)
Definition stops (rest : pystr) : Prop :=
  match rest with
  | [] => True
  | c :: _ => is_digit c = false /\ c <> 0x5F%N
  end.

(** ** Sheets and tables of the examples *)

(** A product with three units in stock. *)
Definition pan_row : art_row :=
  {[ py "art_id" := CInt 1;
     py "descripcion" := CStr (py "Pan");
     py "existencia" := CInt 3 ]}.

(** A database with that product alone and no unit catalogue. *)
Definition one_product : database :=
  {| unidad := []; articulo := [pan_row] |}.

(** A sheet with the key column and nothing else. *)
Definition key_only_df : DataFrame := [ (py "id", [CInt 1; CInt 2]) ].

(** A batch of two records on the same product; neither carries a
    quantity: one holds NaN, the other [None]. *)
Definition null_batch : list (list (pystr * cell)) :=
  [ [ (py "existencia", CFloat S754_nan); (py "id", CStr (py "1")) ];
    [ (py "existencia", CNone); (py "id", CStr (py "1")) ] ].

(** A sheet whose second row has no key. *)
Definition nan_key_df : DataFrame :=
  [ (py "id", [CStr (py "A7"); CFloat S754_nan]);
    (py "descripcion", [CStr (py "Pan"); CStr (py "Leche")]) ].

(** A sheet with a column the registry does not know; its cell repeats the
    header. *)
Definition notes_df : DataFrame :=
  [ (py "id", [CInt 1]); (py "notas", [CStr (py "Notas ")]) ].

(** A sheet whose only row repeats a header and has a blank key. *)
Definition blank_key_df : DataFrame :=
  [ (py "id", [CStr (py "  ")]);
    (py "descripcion", [CStr (py "descripcion")]) ].

(** Two products and a row that repeats the header; the first product is
    described by the name of another column. *)
Definition echo_df : DataFrame :=
  [ (py "id", [CInt 1; CInt 2; CInt 3]);
    (py "descripcion",
     [CStr (py "existencia"); CStr (py " Descripcion"); CStr (py "Pan")]);
    (py "existencia", [CInt 4; CInt 5; CStr (py "6")]) ].

(** Two rows: the first repeats the header of a column the registry does
    not know, the second that of a column it knows. *)
Definition notes_echo_df : DataFrame :=
  [ (py "id", [CInt 1; CInt 2]);
    (py "descripcion", [CStr (py "Pan"); CStr (py "descripcion")]);
    (py "notas", [CStr (py "NOTAS"); CStr (py "x")]) ].

(** ** Values, rows and tables of the batch *)

(** A value the driver can bind: [None], an integer, a finite float or a
    text that is trimmed and not empty. *)
Definition sql_value (v : cell) : Prop :=
  match v with
  | CNone => True
  | CBool _ => False
  | CInt _ => True
  | CFloat f => is_nan f = false /\ is_inf f = false
  | CStr s => s <> [] /\ trimmed s
  end.

(** What the coercer of a type can return. *)
Definition coerced_value (t : typ) (v : cell) : Prop :=
  match t with
  | TNum => v = CNone \/ exists f, v = CFloat f /\ is_nan f = false
  | TBool => v = CNone \/ v = CInt 0 \/ v = CInt 1
  | TUnit => v = CNone
             \/ exists u, v = CStr u /\ u <> [] /\ trimmed u /\ upper u = u
  | TStr => v = CNone \/ exists s, v = CStr s /\ s <> [] /\ trimmed s
  end.

(** The key of a record of the batch: a text, trimmed and not empty. *)
Definition key_text (x : cell) : Prop :=
  exists k, x = CStr k /\ k <> [] /\ trimmed k.

(** What the statement can receive for a column of a type: null, a finite
    float, 0 or 1, a text that is trimmed and not empty, the identifier of
    a unit of the catalogue; 0, 1 and an identifier as integers or, from a
    column pandas holds as floats, as the floats of the same value. *)
Definition param_value (db : database) (t : typ) (v : cell) : Prop :=
  match t with
  | TNum => v = CNone
            \/ exists f, v = CFloat f /\ is_nan f = false /\ is_inf f = false
  | TBool => v = CNone \/ v = CInt 0 \/ v = CInt 1
              \/ v = CFloat zero \/ v = CFloat one
  | TUnit => v = CNone
             \/ exists r, r ∈ unidad db
                  /\ (v = CInt (uni_id r)
                      \/ exists f, of_int (uni_id r) = Some f /\ v = CFloat f)
  | TStr => v = CNone \/ exists s, v = CStr s /\ s <> [] /\ trimmed s
  end.

(** An integer that 64 bits hold with a sign. *)
Definition int64 (z : Z) : Prop := (INT64_MIN <= z <= INT64_MAX)%Z.

(** The values of a column of flags or of identifiers before pandas looks
    for its dtype: [None] or such an integer. *)
Definition plain (y : cell) : Prop :=
  y = CNone \/ exists z, y = CInt z /\ int64 z.

Definition is_none (y : cell) : bool :=
  match y with CNone => true | _ => false end.
Definition is_int (y : cell) : bool :=
  match y with CInt _ => true | _ => false end.

(** What the loop of [maybe_convert_objects] notes on such a column. *)
Definition tame (seen : list flag) : Prop :=
  forall x, x ∈ seen -> x = null_ \/ x = int_ \/ x = sint_.

(** One row of the table after the statement has run for every record of
    the batch, and the value of one of its fields: [a] tells the records
    that address the row. *)
Definition row_after (sql_eq : cell -> cell -> bool) (update_cols : list pystr)
           (key_col : pystr) (rows : list (list (pystr * cell)))
           (r : art_row) : art_row :=
  fold_left
    (fun r row =>
       if sql_eq (field r (where_col_of key_col)) (param row key_col)
       then set_row update_cols row r else r)
    rows r.

Definition value_after (c : pystr) (a : list (pystr * cell) -> bool)
           (rows : list (list (pystr * cell))) (x : cell) : cell :=
  fold_left (fun x row => if a row then coalesce (param row c) x else x)
            rows x.

(** The name under which a unit is looked up in the catalogue: the text,
    trimmed, in upper case, without dots and spaces, a synonym replaced by
    its canonical name. *)
Definition unit_key (s : pystr) : pystr :=
  let k := drop_space_dot (upper (strip s)) in
  default k (UNIT_NORMALIZATION !! k).

(** What the cleaning leaves of [echo_df]: the row that repeats the header
    is gone, the quantities are floats. *)
Definition echo_clean_df : DataFrame :=
  [ (py "id", [CStr (py "1"); CStr (py "3")]);
    (py "descripcion", [CStr (py "existencia"); CStr (py "Pan")]);
    (py "existencia",
     [CFloat (of_decimal false 4 0); CFloat (of_decimal false 6 0)]) ].

Definition echo_report : report := {| dropped_rows := 1; coerced := st0 |}.

(** A sheet with the header of the download and one empty row. *)
Definition downloaded_df : DataFrame :=
  map (fun p => (snd p, [CFloat S754_nan])) SQL_PRODUCTOS.

(** A sheet of two products; the second leaves the flag and the unit
    empty. *)
Definition gaps_df : DataFrame :=
  [ (py "id", [CInt 1; CInt 2]);
    (py "servicio", [CStr (py "si"); CFloat S754_nan]);
    (py "unidad_venta", [CStr (py "kg"); CFloat S754_nan]) ].

(** A catalogue with the unit KG alone, under the identifier 3. *)
Definition kg_catalogue : database :=
  {| unidad := [ {| uni_id := 3; key_nombre := Some (py "KG");
                    key_abrev := None |} ];
     articulo := [] |}.

(** What the cleaning leaves of [gaps_df]: the column of the flag is a
    column of floats. *)
Definition gaps_clean_df : DataFrame :=
  [ (py "id", [CStr (py "1"); CStr (py "2")]);
    (py "servicio", [CFloat one; CFloat S754_nan]);
    (py "unidad_venta", [CStr (py "KG"); CNone]) ].

Definition gaps_report : report :=
  {| dropped_rows := 0;
     coerced := {| num_coerced := 0; bool_coerced := 1;
                   unit_normalized := 1 |} |}.

(** The batch of [gaps_df] on that catalogue: the flag and the identifier
    of the first row are floats. *)
Definition gaps_batch : list (list (pystr * cell)) :=
  [ [ (py "servicio", CFloat one);
      (py "unidad_venta", CFloat (of_decimal false 3 0));
      (py "id", CStr (py "1")) ];
    [ (py "servicio", CNone); (py "unidad_venta", CNone);
      (py "id", CStr (py "2")) ] ].

(** Three records on the product of [pan_row]: the second gives the
    quantity 8, the third gives none. *)
Definition three_records : list (list (pystr * cell)) :=
  [ [ (py "existencia", CInt 5); (py "id", CStr (py "1")) ];
    [ (py "existencia", CInt 8); (py "id", CStr (py "1")) ];
    [ (py "existencia", CNone); (py "id", CStr (py "1")) ] ].

(** * Properties *)

(** ** Counters *)

Lemma plus_num_0 st : plus_num 0 st = st.
Proof. destruct st; unfold plus_num; simpl; f_equal; lia. Qed.

Lemma plus_bool_0 st : plus_bool 0 st = st.
Proof. destruct st; unfold plus_bool; simpl; f_equal; lia. Qed.

Lemma plus_unit_0 st : plus_unit 0 st = st.
Proof. destruct st; unfold plus_unit; simpl; f_equal; lia. Qed.

(** ** The boolean coercer *)

Lemma false_token_not_true t : t ∈ FALSE_TOKENS -> mem t TRUE_TOKENS = false.
Proof.
  unfold FALSE_TOKENS. intros H.
  repeat (apply elem_of_cons in H as [-> | H]; [vm_compute; reflexivity |]).
  by apply elem_of_nil in H.
Qed.

(** What [parse_bool] does on a text whose trimmed, lower-cased form is
    [t]. *)
Lemma parse_bool_text s st :
  parse_bool (CStr s) st =
  let t := lower (strip s) in
  if mem t TRUE_TOKENS then
    Ret (CInt 1) (if mem t [py "1"; py "true"] then st else plus_bool 1 st)
  else if mem t FALSE_TOKENS then
    Ret (CInt 0) (if mem t [py "0"; py "false"] then st else plus_bool 1 st)
  else
    match of_str (replace 0x2C [0x2E%N] t) with
    | Some v => Ret (CInt (if nonzero v then 1 else 0)) (plus_bool 1 st)
    | None => Ret CNone st
    end.
Proof.
  unfold parse_bool; cbn [isna py_str].
  repeat case_match; reflexivity.
Qed.

(** C5: on a text whose trimmed, lower-cased form is one of
    1, true, t, si, sí, y, yes the boolean coercer returns 1, on one of
    0, false, f, no, n it returns 0, and [bool_coerced] grows by one exactly
    when that form is not 1, 0, true or false; "sí", "SI" and "Yes" give 1
    with a correction counted, "1" and "true" give 1 with none. *)
Theorem parse_bool_tokens (s : pystr) (st : counters) :
  (lower (strip s) ∈ TRUE_TOKENS ->
   parse_bool (CStr s) st =
   Ret (CInt 1)
       (if bool_decide (lower (strip s) ∈ [py "1"; py "true"])
        then st else plus_bool 1 st))
  /\ (lower (strip s) ∈ FALSE_TOKENS ->
      parse_bool (CStr s) st =
      Ret (CInt 0)
          (if bool_decide (lower (strip s) ∈ [py "0"; py "false"])
           then st else plus_bool 1 st))
  /\ parse_bool (CStr (py "s" ++ [0xED%N])) st = Ret (CInt 1) (plus_bool 1 st)
  /\ parse_bool (CStr (py "SI")) st = Ret (CInt 1) (plus_bool 1 st)
  /\ parse_bool (CStr (py "Yes")) st = Ret (CInt 1) (plus_bool 1 st)
  /\ parse_bool (CStr (py "1")) st = Ret (CInt 1) st
  /\ parse_bool (CStr (py "true")) st = Ret (CInt 1) st.
Proof.
  split; [| split].
  - intros H. rewrite parse_bool_text. cbv zeta.
    unfold mem at 1. rewrite (bool_decide_eq_true_2 _ H). reflexivity.
  - intros H. rewrite parse_bool_text. cbv zeta.
    rewrite (false_token_not_true _ H).
    unfold mem at 1. rewrite (bool_decide_eq_true_2 _ H). reflexivity.
  - repeat split; rewrite parse_bool_text; vm_compute; reflexivity.
Qed.

(** The tokens are matched whatever the case of the input. *)
Lemma parse_bool_upper_si_acute st :
  parse_bool (CStr [0x53%N; 0xCD%N]) st = Ret (CInt 1) (plus_bool 1 st).
Proof. rewrite parse_bool_text. vm_compute. reflexivity. Qed.

(** ** The numeric coercer on numbers *)

Section RoundingSign.
Local Open Scope Z_scope.

Lemma shr_1_nonneg mrs : 0 <= shr_m mrs -> 0 <= shr_m (shr_1 mrs).
Proof.
  destruct mrs as [m r s]; simpl.
  destruct m as [| [p | p |] | p]; simpl; lia.
Qed.

Lemma iter_shr_1_nonneg p :
  forall mrs, 0 <= shr_m mrs -> 0 <= shr_m (SpecFloat.iter_pos shr_1 p mrs).
Proof.
  induction p as [p IH | p IH |]; intros mrs H; simpl.
  - apply IH, IH, shr_1_nonneg, H.
  - apply IH, IH, H.
  - apply shr_1_nonneg, H.
Qed.

Lemma shr_fexp_nonneg m e l :
  0 <= m -> 0 <= shr_m (fst (shr_fexp prec emax m e l)).
Proof.
  intros H. unfold shr_fexp, shr.
  assert (H0 : 0 <= shr_m (shr_record_of_loc m l))
    by (destruct l as [| []]; simpl; exact H).
  destruct (fexp prec emax (Zdigits2 m + e) - e); simpl; auto.
  apply iter_shr_1_nonneg, H0.
Qed.

Lemma round_nearest_even_nonneg m l : 0 <= m -> 0 <= round_nearest_even m l.
Proof.
  intros H. destruct l as [| []]; simpl; try lia.
  destruct (Z.even m); lia.
Qed.

Lemma binary_round_aux_not_nan sx m e l :
  0 <= m -> is_nan (binary_round_aux prec emax sx m e l) = false.
Proof.
  intros H. unfold binary_round_aux.
  pose proof (shr_fexp_nonneg m e l H) as H1.
  destruct (shr_fexp prec emax m e l) as [mrs' e']; simpl in H1.
  pose proof (shr_fexp_nonneg _ e' loc_Exact
                (round_nearest_even_nonneg _ (loc_of_shr_record mrs') H1))
    as H2.
  destruct (shr_fexp prec emax (round_nearest_even _ _) e' loc_Exact)
    as [mrs'' e'']; simpl in H2.
  destruct (shr_m mrs'') as [| p | p]; try reflexivity.
  - destruct (e'' <=? emax - prec); reflexivity.
  - lia.
Qed.

Lemma binary_round_not_nan sx m e :
  is_nan (binary_round prec emax sx m e) = false.
Proof.
  unfold binary_round. destruct (shl_align _ _ _) as [mz ez].
  apply binary_round_aux_not_nan. lia.
Qed.
End RoundingSign.

Lemma binary_normalize_not_nan z :
  is_nan (binary_normalize prec emax z 0 false) = false.
Proof. destruct z; simpl; [reflexivity | apply binary_round_not_nan ..]. Qed.

(** [float(z)], when it exists, is a finite number. *)
Lemma of_int_finite z f :
  of_int z = Some f -> is_nan f = false /\ is_inf f = false.
Proof.
  unfold of_int. intros H.
  pose proof (binary_normalize_not_nan z) as Hn.
  destruct (binary_normalize prec emax z 0 false); inversion H; subst;
    split; auto.
Qed.

(** The nearest double of an integer is [float(z)] or an infinity. *)
Lemma binary_normalize_of_int z :
  let f := binary_normalize prec emax z 0 false in
  is_inf f = true \/ of_int z = Some f.
Proof.
  cbv zeta. unfold of_int.
  destruct (binary_normalize prec emax z 0 false); auto.
Qed.

(** C8: a number is accepted as it is by the numeric coercer, with no
    correction counted: a float other than NaN is returned unchanged, an
    integer or a boolean as the float of the same value; NaN is coerced to
    null by [parse_num], and an infinity of either sign by [_to_py_mysql]
    when the parameters of the statement are built, so that the statement
    receives null for both and the number itself otherwise. *)
Theorem parse_num_machine_number (st : counters) :
  (forall f, is_nan f = false -> parse_num (CFloat f) st = Ret (CFloat f) st)
  /\ (forall z f, of_int z = Some f ->
        parse_num (CInt z) st = Ret (CFloat f) st
        /\ num_param (CInt z) st = Ret (CFloat f) st)
  /\ (forall b, parse_num (CBool b) st
                = Ret (CFloat (if b then one else zero)) st)
  /\ parse_num (CFloat S754_nan) st = Ret CNone st
  /\ (forall f, num_param (CFloat f) st
                = Ret (if is_nan f || is_inf f then CNone else CFloat f) st)
  /\ (forall s, _to_py_mysql (CFloat (S754_infinity s)) = CNone)
  /\ _to_py_mysql (CFloat S754_nan) = CNone.
Proof.
  split; [| split; [| split; [| split; [| split; [| split]]]]].
  - intros f Hf. unfold parse_num; cbn [isna]. rewrite Hf. reflexivity.
  - intros z f Hz. destruct (of_int_finite _ _ Hz) as [Hn Hi].
    assert (Hp : parse_num (CInt z) st = Ret (CFloat f) st).
    { unfold parse_num; cbn [isna]. unfold to_float. rewrite Hz. reflexivity. }
    split; [exact Hp |].
    unfold num_param, notnull_or_none. rewrite Hp. cbn [isna].
    rewrite Hn. cbn [_to_py_mysql]. rewrite Hn, Hi. reflexivity.
  - intros []; reflexivity.
  - reflexivity.
  - intros f. unfold num_param, notnull_or_none, parse_num; cbn [isna].
    destruct (is_nan f) eqn:Hn; [reflexivity |].
    cbv [to_float mbind M_bind mret M_ret]. cbn [isna].
    rewrite Hn. cbn [_to_py_mysql]. rewrite Hn. reflexivity.
  - reflexivity.
  - reflexivity.
Qed.

(** ** Columns of the frames of an upload *)

Lemma columns_set_col c v df : columns (set_col c v df) = columns df.
Proof.
  unfold columns, set_col. rewrite map_map. apply map_ext.
  intros [k w]; simpl. case_bool_decide; reflexivity.
Qed.

Lemma columns_select_rows mask df : columns (select_rows mask df) = columns df.
Proof. unfold columns, select_rows. rewrite map_map. reflexivity. Qed.

Lemma columns_filter (P : pystr -> bool) df :
  columns (List.filter (fun p => P (fst p)) df) = List.filter P (columns df).
Proof.
  induction df as [| [c v] df IH]; simpl; [reflexivity |].
  destruct (P c); simpl; rewrite IH; reflexivity.
Qed.

Lemma columns_keyed df key_col :
  columns (keyed df key_col) = List.filter kept (columns df).
Proof.
  unfold keyed. rewrite columns_select_rows, columns_set_col.
  apply columns_filter.
Qed.

Lemma columns_filtered df key_col :
  columns (fst (filtered df key_col)) = List.filter kept (columns df).
Proof.
  unfold filtered; simpl.
  destruct (length _); [| rewrite columns_select_rows]; apply columns_keyed.
Qed.

(** The column [Series.apply] returns holds the values of the function, as
    they are or as floats. *)
Lemma maybe_convert_objects_cases v :
  maybe_convert_objects v = v \/ maybe_convert_objects v = map to_float64 v.
Proof.
  unfold maybe_convert_objects. cbv zeta.
  repeat match goal with
         | |- context [if ?b then _ else _] => destruct b
         end; auto.
Qed.

Lemma length_maybe_convert_objects v :
  length (maybe_convert_objects v) = length v.
Proof.
  destruct (maybe_convert_objects_cases v) as [-> | ->];
    [reflexivity | apply length_map].
Qed.

Lemma maybe_convert_objects_elem v x :
  x ∈ maybe_convert_objects v ->
  exists y, y ∈ v /\ (x = y \/ x = to_float64 y).
Proof.
  destruct (maybe_convert_objects_cases v) as [-> | ->]; intros H; [eauto |].
  apply list_elem_of_In, in_map_iff in H as (y & <- & Hy).
  exists y. split; [by apply list_elem_of_In | by right].
Qed.

Lemma coerce_columns_columns am :
  forall df st df' st',
    coerce_columns am df st = Ret df' st' -> columns df' = columns df.
Proof.
  induction am as [| [c [dbcol t]] am IH]; intros df st df' st' H; simpl in H.
  - inversion H; reflexivity.
  - case_bool_decide.
    + cbv [mbind M_bind] in H.
      destruct (mapM (coercer t) (col c df) st) as [v st1 |]; [| discriminate].
      apply IH in H. rewrite H. apply columns_set_col.
    + eapply IH, H.
Qed.

Lemma col_set_col_ne c c0 v df : c0 <> c -> col c0 (set_col c v df) = col c0 df.
Proof.
  intros Hne. unfold col, set_col. f_equal.
  induction df as [| [k w] df IH]; simpl; [reflexivity |].
  case_bool_decide as Hk; simpl.
  - subst k. rewrite !bool_decide_eq_false_2 by congruence. exact IH.
  - case_bool_decide; [reflexivity | exact IH].
Qed.

(** The loop of the coercers leaves a column alone that the registry does
    not name. *)
Lemma coerce_columns_col am c0 :
  assoc c0 am = None ->
  forall df st df' st',
    coerce_columns am df st = Ret df' st' -> col c0 df' = col c0 df.
Proof.
  induction am as [| [c [dbcol t]] am IH]; intros Hc0 df st df' st' H;
    simpl in H.
  - inversion H; reflexivity.
  - simpl in Hc0. destruct (decide (c = c0)) as [-> | Hne].
    { rewrite bool_decide_eq_true_2 in Hc0 by done. discriminate. }
    rewrite bool_decide_eq_false_2 in Hc0 by done.
    case_bool_decide.
    + cbv [mbind M_bind] in H.
      destruct (mapM (coercer t) (col c df) st) as [v st1 |]; [| discriminate].
      apply (IH Hc0) in H. rewrite H. apply col_set_col_ne. congruence.
    + eapply IH; eauto.
Qed.

(** The cleaned frame has the keys of the frame the filters leave, in the
    same order: the coercers change cells, not rows. *)
Lemma clean_keys df key_col clean_df rep :
  key_col = ID \/ key_col = CLAVE ->
  _clean_autocorrect df key_col = inr (clean_df, rep) ->
  col key_col clean_df = col key_col (fst (filtered df key_col)).
Proof.
  unfold _clean_autocorrect. intros Hk H.
  destruct (filtered df key_col) as [df1 dropped]; simpl.
  destruct (coerce_columns ALLOWED_MAP df1 st0) as [df2 st |] eqn:E;
    [| discriminate].
  inversion H; subst df2 rep.
  eapply coerce_columns_col; [| exact E].
  destruct Hk as [-> | ->]; reflexivity.
Qed.

Lemma clean_columns df key_col clean_df rep :
  _clean_autocorrect df key_col = inr (clean_df, rep) ->
  columns clean_df = List.filter kept (columns df).
Proof.
  unfold _clean_autocorrect. intros H.
  pose proof (columns_filtered df key_col) as Hc.
  destruct (filtered df key_col) as [df1 dropped]; simpl in Hc.
  destruct (coerce_columns ALLOWED_MAP df1 st0) as [df2 st |] eqn:E;
    [| discriminate].
  inversion H; subst. rewrite <- Hc. eapply coerce_columns_columns, E.
Qed.

Lemma columns_resolve_units d df : columns (resolve_units d df) = columns df.
Proof.
  unfold resolve_units; simpl.
  repeat (case_bool_decide; rewrite ?columns_set_col); reflexivity.
Qed.

Lemma columns_drop_duplicated df :
  forall seen c, c ∈ columns (drop_duplicated seen df) -> c ∈ columns df.
Proof.
  induction df as [| [k v] df IH]; intros seen c; simpl; [auto |].
  case_bool_decide as Hs; simpl; intros Hc.
  - apply elem_of_cons. right. eapply IH, Hc.
  - apply elem_of_cons in Hc as [-> | Hc]; apply elem_of_cons; [by left |].
    right. eapply IH, Hc.
Qed.

Lemma columns_normalized df c :
  c ∈ columns (normalized df) ->
  exists c0, c0 ∈ columns df /\ c = lower (strip c0).
Proof.
  unfold normalized. intros H. apply columns_drop_duplicated in H.
  unfold columns in *. rewrite map_map in H. simpl in H.
  apply list_elem_of_fmap in H as [[c0 v] [-> H0]].
  exists c0. split; [| reflexivity].
  apply list_elem_of_fmap. exists (c0, v). split; [reflexivity | exact H0].
Qed.

(** Without a column of the registry the loop of the coercers changes
    nothing. *)
Lemma coerce_columns_none am :
  forall df st,
    (forall c, c ∈ columns df -> assoc c am = None) ->
    coerce_columns am df st = Ret df st.
Proof.
  induction am as [| [c [dbcol t]] am IH]; intros df st H; simpl;
    [reflexivity |].
  case_bool_decide as Hc.
  - apply H in Hc. simpl in Hc. rewrite bool_decide_eq_true_2 in Hc by done.
    discriminate.
  - apply IH. intros c' Hc'. specialize (H c' Hc'). simpl in H.
    case_bool_decide; [discriminate | exact H].
Qed.

Lemma filter_in_allowed_nil cols :
  (forall c, c ∈ cols -> in_allowed c = false) ->
  List.filter in_allowed cols = [].
Proof.
  induction cols as [| c cols IH]; intros H; simpl; [reflexivity |].
  rewrite (H c) by (apply elem_of_cons; by left).
  apply IH. intros c' Hc'. apply H, elem_of_cons. by right.
Qed.

Lemma elem_of_filter_list (P : pystr -> bool) cols c :
  c ∈ List.filter P cols -> c ∈ cols /\ P c = true.
Proof.
  rewrite !list_elem_of_In. intros H. apply filter_In in H. exact H.
Qed.

(** ** The upload without editable columns *)

Ltac in_list :=
  repeat (apply elem_of_cons; first [left; reflexivity | right]).
Ltac not_in_list :=
  let H := fresh in
  intros H;
  repeat (apply elem_of_cons in H as [H | H]; [discriminate H |]);
  by apply elem_of_nil in H.

(** C3, as stated, fails: with the key column alone no column of the sheet
    is editable, and the upload has opened the connection and issued the
    read of the unit catalogue before it reports so. *)
Lemma no_editable_fields_reads_first :
  let r := upload_excel_to_db text_eq key_only_df one_product NoFault in
  update_cols_of (normalized key_only_df) = []
  /\ trace r <> []
  /\ Execute SQL_LOOKUPS ∈ trace r
  /\ head (dialogs r) = Some SinColumnasDeDatos.
Proof.
  vm_compute. repeat split; [discriminate |]. apply elem_of_cons. right.
  apply elem_of_cons. by left.
Qed.

(** C3, amended: when no column of the sheet is a data column of the
    registry, and the driver raises no error on a statement, the upload
    opens the connection, issues the read of the unit catalogue and then
    stops before any write: its first message reports that no column is
    editable, the transaction is rolled back and the connection closed; no
    update statement and no commit are issued, the catalogue is the only
    thing read, the table is unchanged and no exception escapes. *)
Theorem no_editable_fields_no_write
        (sql_eq : cell -> cell -> bool) (df : DataFrame) (db : database)
        (key_col : pystr) :
  df_empty df = false ->
  key_col_of (normalized df) = Some key_col ->
  (forall c, c ∈ columns df -> in_allowed (lower (strip c)) = false) ->
  let r := upload_excel_to_db sql_eq df db NoFault in
  (exists ev, trace r = [Connect; Execute SQL_LOOKUPS; Rollback; Close] ++ ev)
  /\ head (dialogs r) = Some SinColumnasDeDatos
  /\ (forall q n, ExecuteMany q n ∉ trace r)
  /\ (forall q, Execute q ∈ trace r -> q = SQL_LOOKUPS)
  /\ (Commit ∉ trace r)
  /\ table_after r = articulo db
  /\ escaped r = None.
Proof.
  intros Hne Hkey Hcols. unfold upload_excel_to_db.
  rewrite Hne, Hkey.
  assert (Hn : forall c, c ∈ columns (normalized df) -> in_allowed c = false).
  { intros c Hc. apply columns_normalized in Hc as [c0 [Hc0 ->]]. auto. }
  assert (Hclean : exists clean_df rep,
             _clean_autocorrect (normalized df) key_col = inr (clean_df, rep)).
  { unfold _clean_autocorrect.
    pose proof (columns_filtered (normalized df) key_col) as Hc.
    destruct (filtered (normalized df) key_col) as [df1 dropped]; simpl in Hc.
    rewrite coerce_columns_none; [eauto |].
    intros c Hc1. rewrite Hc in Hc1.
    apply elem_of_filter_list in Hc1 as [Hc1 _]. apply Hn in Hc1.
    unfold in_allowed in Hc1. destruct (assoc c ALLOWED_MAP); done. }
  destruct Hclean as (clean_df & rep & Hclean). rewrite Hclean.
  unfold transact.
  assert (Hb : batch_cols clean_df db = []).
  { unfold batch_cols, resolved, update_cols_of.
    rewrite columns_resolve_units, (clean_columns _ _ _ _ Hclean).
    apply filter_in_allowed_nil. intros c Hc.
    apply elem_of_filter_list in Hc as [Hc _]. auto. }
  rewrite Hb. cbn [map trace dialogs table_after escaped head].
  split; [by exists [Close] |]. split; [reflexivity |].
  split; [intros q n; not_in_list |].
  split; [| split; [not_in_list | auto]].
  intros q Hq.
  repeat (apply elem_of_cons in Hq as [Hq | Hq]; [by inversion Hq |]).
  by apply elem_of_nil in Hq.
Qed.

Lemma no_editable_fields_no_write_witness :
  let r := upload_excel_to_db text_eq key_only_df one_product NoFault in
  (exists ev, trace r = [Connect; Execute SQL_LOOKUPS; Rollback; Close] ++ ev)
  /\ head (dialogs r) = Some SinColumnasDeDatos
  /\ (forall q n, ExecuteMany q n ∉ trace r)
  /\ (forall q, Execute q ∈ trace r -> q = SQL_LOOKUPS)
  /\ (Commit ∉ trace r)
  /\ table_after r = articulo one_product
  /\ escaped r = None.
Proof.
  apply (no_editable_fields_no_write text_eq key_only_df one_product ID).
  - reflexivity.
  - vm_compute. reflexivity.
  - intros c Hc. vm_compute in Hc.
    apply elem_of_cons in Hc as [-> | Hc]; [vm_compute; reflexivity |].
    by apply elem_of_nil in Hc.
Defined.

(** ** The transaction *)

Section Transaction.
Variable sql_eq : cell -> cell -> bool.

Lemma executemany_none ucols key rows :
  forall t, executemany sql_eq ucols key rows None t
            = inr (apply_all sql_eq ucols key rows t).
Proof.
  induction rows as [| row rows IH]; intros t; simpl; [reflexivity |].
  apply IH.
Qed.

Lemma executemany_late ucols key rows :
  forall i t, length rows <= i ->
    executemany sql_eq ucols key rows (Some i) t
    = inr (apply_all sql_eq ucols key rows t).
Proof.
  induction rows as [| row rows IH]; intros i t Hi; simpl in *;
    [reflexivity |].
  destruct i as [| i]; [lia |]. simpl. apply IH. lia.
Qed.

(** The driver raises at record [i]: the records before it have been
    applied to the pending state. *)
Lemma executemany_fails ucols key rows :
  forall i t, i < length rows ->
    executemany sql_eq ucols key rows (Some i) t
    = inl (apply_all sql_eq ucols key (take i rows) t).
Proof.
  induction rows as [| row rows IH]; intros i t Hi; simpl in *; [lia |].
  destruct i as [| i]; [reflexivity |]. simpl. apply IH. lia.
Qed.

(** C1: the transaction of an upload ends in one of two states: committed,
    the table holding the update of every record of the batch, or rolled
    back, the table being what it was; and when the driver raises an error
    during the bulk write, whatever the records already applied, the
    transaction is rolled back, the table is what it was and the failure
    is reported. *)
Theorem transact_all_or_nothing
        (clean_df : DataFrame) (rep : report) (key_col : pystr)
        (db : database) (f : fault) :
  let r := transact sql_eq clean_df rep key_col db f in
  let cols := batch_cols clean_df db in
  let rows := batch_rows clean_df key_col db in
  ((table_after r = apply_all sql_eq cols key_col rows (articulo db)
    /\ (Commit ∈ trace r) /\ (Rollback ∉ trace r)
    /\ dialogs r = [SubidaCompletada (length rows) rep])
   \/ (table_after r = articulo db /\ (Commit ∉ trace r)))
  /\ (forall i, f = WriteFails i -> cols <> [] -> i < length rows ->
        executemany sql_eq cols key_col rows (Some i) (articulo db)
        = inl (apply_all sql_eq cols key_col (take i rows) (articulo db))
        /\ table_after r = articulo db
        /\ trace r = [Connect; Execute SQL_LOOKUPS;
                      ExecuteMany (SQL_UPDATE (sql_upd_of cols key_col))
                                  (length rows);
                      Rollback; Close]
        /\ dialogs r = [ErrorAlSubir]).
Proof.
  cbv zeta. split.
  - unfold transact.
    destruct f as [| | | i]; try (right; split; [reflexivity | not_in_list]).
    + destruct (batch_cols clean_df db) as [| c cols] eqn:Hc; simpl.
      * right; split; [reflexivity | not_in_list].
      * rewrite executemany_none. left. simpl.
        repeat split; [in_list | not_in_list].
    + destruct (batch_cols clean_df db) as [| c cols] eqn:Hc; simpl.
      * right; split; [reflexivity | not_in_list].
      * destruct (decide (i < length (batch_rows clean_df key_col db)))
          as [Hi | Hi].
        -- rewrite executemany_fails by exact Hi. right. simpl.
           split; [reflexivity | not_in_list].
        -- rewrite executemany_late by lia. left. simpl.
           repeat split; [in_list | not_in_list].
  - intros i -> Hc Hi. split; [apply executemany_fails, Hi |].
    unfold transact.
    destruct (batch_cols clean_df db) as [| c cols] eqn:Hcols; [done |].
    simpl. rewrite executemany_fails by exact Hi. simpl. auto.
Qed.
End Transaction.

(** ** Preserve-on-null *)

Lemma in_allowed_keys c : in_allowed c = true -> c ∈ allowed_keys.
Proof.
  unfold in_allowed, ALLOWED_MAP, allowed_keys. simpl.
  repeat (case_bool_decide; [subst c; intros _; in_list |]).
  discriminate.
Qed.

(** Two columns of the registry never share a destination column, and no
    destination column is one of the two key columns of the table. *)
Lemma dbcol_of_inj c c' :
  in_allowed c = true -> in_allowed c' = true ->
  dbcol_of c = dbcol_of c' -> c = c'.
Proof.
  intros Hc Hc'. apply in_allowed_keys in Hc, Hc'.
  assert (H : forallb (fun a => forallb (fun b =>
              implb (bool_decide (dbcol_of a = dbcol_of b))
                    (bool_decide (a = b))) allowed_keys) allowed_keys = true)
    by (vm_compute; reflexivity).
  rewrite forallb_forall in H. apply list_elem_of_In in Hc, Hc'.
  specialize (H c Hc). rewrite forallb_forall in H. specialize (H c' Hc').
  intros E. rewrite (bool_decide_eq_true_2 _ E) in H. simpl in H.
  by apply bool_decide_eq_true_1 in H.
Qed.

Lemma dbcol_of_not_where c key_col :
  in_allowed c = true -> dbcol_of c <> where_col_of key_col.
Proof.
  intros Hc. apply in_allowed_keys in Hc.
  assert (H : forallb (fun a =>
              negb (bool_decide (dbcol_of a = py "art_id"))
              && negb (bool_decide (dbcol_of a = py "clave")))
              allowed_keys = true)
    by (vm_compute; reflexivity).
  rewrite forallb_forall in H. apply list_elem_of_In in Hc.
  specialize (H c Hc). apply andb_true_iff in H as [H1 H2].
  apply negb_true_iff, bool_decide_eq_false_1 in H1, H2.
  unfold where_col_of. case_bool_decide; assumption.
Qed.

Lemma field_insert_eq r d v : field (<[d := v]> r) d = v.
Proof. unfold field. by rewrite lookup_insert_eq. Qed.

Lemma field_insert_ne r d d' v : d <> d' -> field (<[d := v]> r) d' = field r d'.
Proof. intros H. unfold field. by rewrite lookup_insert_ne. Qed.

Lemma lookup_map {A B} (f : A -> B) (l : list A) (j : nat) :
  map f l !! j = f <$> l !! j.
Proof.
  revert j. induction l as [| x l IH]; intros [| j]; simpl; auto.
Qed.

Section PreserveOnNull.
Variable sql_eq : cell -> cell -> bool.

(** A column the [SET] list does not assign keeps its value. *)
Lemma set_row_other ucols row d :
  forall r, (forall c, c ∈ ucols -> dbcol_of c <> d) ->
            field (set_row ucols row r) d = field r d.
Proof.
  unfold set_row.
  induction ucols as [| c ucols IH]; intros r H; simpl; [reflexivity |].
  rewrite IH by (intros c' Hc'; apply H, elem_of_cons; by right).
  apply field_insert_ne, H, elem_of_cons. by left.
Qed.

(** [COALESCE(NULL, col)] is [col]. *)
Lemma set_row_null ucols row c :
  (forall c', c' ∈ ucols -> in_allowed c' = true) ->
  in_allowed c = true ->
  param row c = CNone ->
  forall r, field (set_row ucols row r) (dbcol_of c) = field r (dbcol_of c).
Proof.
  intros Hall Hc Hnull. unfold set_row.
  induction ucols as [| c' ucols IH]; intros r; simpl; [reflexivity |].
  rewrite IH by (intros c'' H; apply Hall, elem_of_cons; by right).
  destruct (decide (c' = c)) as [-> | Hne].
  - rewrite field_insert_eq, Hnull. reflexivity.
  - apply field_insert_ne. intros E. apply Hne.
    apply dbcol_of_inj; [apply Hall, elem_of_cons; by left | exact Hc | exact E].
Qed.

Lemma exec_update_lookup ucols key row t j r :
  t !! j = Some r ->
  exec_update sql_eq ucols key row t !! j
  = Some (if sql_eq (field r (where_col_of key)) (param row key)
          then set_row ucols row r else r).
Proof.
  intros H. unfold exec_update. rewrite lookup_map, H. reflexivity.
Qed.

(** The parameter of a missing value is [None]. *)
Lemma param_null rec c :
  isna (default CNone (assoc c rec)) = true ->
  param (params_of_record rec) c = CNone.
Proof.
  unfold param, params_of_record.
  induction rec as [| [k v] rec IHr]; simpl; [reflexivity |].
  case_bool_decide; simpl; [| exact IHr].
  destruct v as [| [b | z | f] | s]; simpl; try discriminate;
    [reflexivity | intros ->; reflexivity].
Qed.

(** A field of the [SET] list receives [COALESCE(param, field)]. *)
Lemma set_row_field ucols row c :
  (forall c', c' ∈ ucols -> in_allowed c' = true) ->
  c ∈ ucols ->
  forall r, field (set_row ucols row r) (dbcol_of c)
            = coalesce (param row c) (field r (dbcol_of c)).
Proof.
  intros Hall. unfold set_row.
  induction ucols as [| c' ucols IH]; intros Hc r; simpl;
    [by apply elem_of_nil in Hc |].
  assert (Hall' : forall c'', c'' ∈ ucols -> in_allowed c'' = true)
    by (intros c'' H; apply Hall, elem_of_cons; by right).
  destruct (decide (c ∈ ucols)) as [Hin | Hnin].
  - rewrite IH by assumption.
    destruct (decide (c' = c)) as [-> | Hne].
    + rewrite field_insert_eq. destruct (param row c); reflexivity.
    + rewrite field_insert_ne; [reflexivity |]. intros E. apply Hne.
      apply dbcol_of_inj; [apply Hall, elem_of_cons; by left | | exact E].
      apply Hall, elem_of_cons. by right.
  - apply elem_of_cons in Hc as [<- | Hc]; [| done].
    fold (set_row ucols row
            (<[dbcol_of c := coalesce (param row c) (field r (dbcol_of c))]> r)).
    rewrite set_row_other; [apply field_insert_eq |].
    intros c' Hc' E. apply Hnin.
    apply dbcol_of_inj in E; [by subst | by apply Hall' |].
    apply Hall, elem_of_cons. by left.
Qed.

Lemma apply_all_null
        (update_cols : list pystr) (key_col : pystr)
        (recs : list (list (pystr * cell))) (c : pystr) :
  (forall c', c' ∈ update_cols -> in_allowed c' = true) ->
  c ∈ update_cols ->
  forall (t : table) (j : nat) (r : art_row),
    t !! j = Some r ->
    (forall rec, rec ∈ recs ->
       sql_eq (field r (where_col_of key_col))
              (param (params_of_record rec) key_col) = true ->
       isna (default CNone (assoc c rec)) = true) ->
    exists r',
      apply_all sql_eq update_cols key_col (map params_of_record recs) t !! j
      = Some r'
      /\ field r' (dbcol_of c) = field r (dbcol_of c)
      /\ field r' (where_col_of key_col) = field r (where_col_of key_col).
Proof.
  intros Hall Hc. unfold apply_all.
  induction recs as [| rec recs IH]; intros t j r Hj Hnull; simpl.
  - exists r. auto.
  - pose proof (exec_update_lookup update_cols key_col
                  (params_of_record rec) t j r Hj) as Hj'.
    set (r1 := if sql_eq (field r (where_col_of key_col))
                        (param (params_of_record rec) key_col)
               then set_row update_cols (params_of_record rec) r else r)
      in Hj'.
    assert (Hw : field r1 (where_col_of key_col)
                 = field r (where_col_of key_col)).
    { subst r1. destruct (sql_eq _ _); [| reflexivity].
      apply set_row_other. intros c' Hc'.
      apply dbcol_of_not_where, Hall, Hc'. }
    assert (Hv : field r1 (dbcol_of c) = field r (dbcol_of c)).
    { subst r1. destruct (sql_eq _ _) eqn:E; [| reflexivity].
      apply set_row_null; [exact Hall | apply Hall, Hc |].
      apply param_null, Hnull; [apply list_elem_of_here | exact E]. }
    destruct (IH _ j r1 Hj') as (r' & Hr' & Hv' & Hw').
    { intros rec' Hin E. apply Hnull; [apply elem_of_cons; by right |].
      rewrite <- Hw. exact E. }
    exists r'. rewrite Hv', Hw', Hv, Hw. auto.
Qed.

(** Whatever the batch, a field ends with the value it had or with the
    value, not null, of a record that addresses the row. *)
Lemma apply_all_field
      (update_cols : list pystr) (key_col : pystr)
      (rows : list (list (pystr * cell))) (c : pystr) :
  (forall c', c' ∈ update_cols -> in_allowed c' = true) ->
  c ∈ update_cols ->
  forall (t : table) (j : nat) (r : art_row),
    t !! j = Some r ->
    exists r',
      apply_all sql_eq update_cols key_col rows t !! j = Some r'
      /\ field r' (where_col_of key_col) = field r (where_col_of key_col)
      /\ (field r' (dbcol_of c) = field r (dbcol_of c)
          \/ exists row,
               row ∈ rows
               /\ sql_eq (field r (where_col_of key_col)) (param row key_col)
                  = true
               /\ field r' (dbcol_of c) = param row c
               /\ param row c <> CNone).
Proof.
  intros Hall Hc. unfold apply_all.
  induction rows as [| row rows IH]; intros t j r Hj; simpl.
  - exists r. auto.
  - pose proof (exec_update_lookup update_cols key_col row t j r Hj) as Hj'.
    set (r1 := if sql_eq (field r (where_col_of key_col)) (param row key_col)
               then set_row update_cols row r else r) in Hj'.
    assert (Hw : field r1 (where_col_of key_col)
                 = field r (where_col_of key_col)).
    { subst r1. destruct (sql_eq _ _); [| reflexivity].
      apply set_row_other. intros c' Hc'.
      apply dbcol_of_not_where, Hall, Hc'. }
    destruct (IH _ j r1 Hj') as (r' & Hr' & Hw' & Hv').
    exists r'. split; [exact Hr' |]. split; [by rewrite Hw', Hw |].
    destruct Hv' as [Hv' | (row' & Hin & E & Hv' & Hnn)].
    + subst r1. destruct (sql_eq _ _) eqn:E; [| by left].
      rewrite set_row_field in Hv' by assumption.
      destruct (param row c) eqn:Hp; [by left | right ..];
        (exists row; split; [apply list_elem_of_here |];
         rewrite Hp; simpl in Hv'; auto).
    + right. exists row'. rewrite <- Hw.
      split; [apply elem_of_cons; by right | auto].
Qed.

(** C2: take a row of the table whose field holds [V] and a batch whose
    records addressing that row have a null coerced value for the field
    (the parameter [_to_py_mysql] gives for a missing value is [None]):
    after the bulk write the row is still there and the field still holds
    [V].  Whatever the other records of the batch, the field ends with
    [V] or with the value, not null, of a record addressing the row: a
    null never replaces what the field holds. *)
Theorem preserve_on_null
        (update_cols : list pystr) (key_col : pystr)
        (recs : list (list (pystr * cell))) (c : pystr) :
  (forall c', c' ∈ update_cols -> in_allowed c' = true) ->
  c ∈ update_cols ->
  forall (t : table) (j : nat) (r : art_row),
    t !! j = Some r ->
    ((forall rec, rec ∈ recs ->
        sql_eq (field r (where_col_of key_col))
               (param (params_of_record rec) key_col) = true ->
        isna (default CNone (assoc c rec)) = true) ->
     exists r',
       apply_all sql_eq update_cols key_col (map params_of_record recs) t
         !! j = Some r'
       /\ field r' (dbcol_of c) = field r (dbcol_of c))
    /\ (exists r',
          apply_all sql_eq update_cols key_col (map params_of_record recs) t
            !! j = Some r'
          /\ (field r' (dbcol_of c) = field r (dbcol_of c)
              \/ exists rec,
                   rec ∈ recs
                   /\ sql_eq (field r (where_col_of key_col))
                             (param (params_of_record rec) key_col) = true
                   /\ field r' (dbcol_of c)
                      = param (params_of_record rec) c
                   /\ param (params_of_record rec) c <> CNone)).
Proof.
  intros Hall Hc t j r Hj. split.
  - intros Hnull.
    destruct (apply_all_null update_cols key_col recs c Hall Hc t j r Hj Hnull)
      as (r' & H1 & H2 & _).
    exists r'. auto.
  - destruct (apply_all_field update_cols key_col (map params_of_record recs)
                c Hall Hc t j r Hj) as (r' & H1 & _ & H2).
    exists r'. split; [exact H1 |].
    destruct H2 as [H2 | (row & Hin & E & Hv & Hnn)]; [by left | right].
    apply list_elem_of_In, in_map_iff in Hin as (rec & <- & Hin).
    exists rec. rewrite list_elem_of_In. auto.
Qed.

End PreserveOnNull.

Lemma preserve_on_null_witness :
  exists r',
    apply_all text_eq [py "existencia"] ID
              (map params_of_record null_batch) [pan_row] !! 0%nat
    = Some r'
    /\ field r' (dbcol_of (py "existencia"))
       = field pan_row (dbcol_of (py "existencia")).
Proof.
  refine (proj1 (preserve_on_null text_eq [py "existencia"] ID null_batch
                   (py "existencia") _ _ [pan_row] 0%nat pan_row _) _).
  - intros c' H. apply elem_of_cons in H as [-> | H];
      [reflexivity | by apply elem_of_nil in H].
  - apply elem_of_cons. by left.
  - reflexivity.
  - intros rec H _.
    apply elem_of_cons in H as [-> | H]; [reflexivity |].
    apply elem_of_cons in H as [-> | H]; [reflexivity |].
    by apply elem_of_nil in H.
Defined.

(** ** The row filter, row by row *)

Lemma assoc_map_snd {A B} (g : A -> B) c (l : list (pystr * A)) :
  assoc c (map (fun p => (fst p, g (snd p))) l) = g <$> assoc c l.
Proof.
  induction l as [| [k v] l IH]; simpl; [reflexivity |].
  case_bool_decide; [reflexivity | exact IH].
Qed.

Lemma assoc_filter {A} (P : pystr -> bool) c (l : list (pystr * A)) :
  P c = true -> assoc c (List.filter (fun p => P (fst p)) l) = assoc c l.
Proof.
  intros Hc. induction l as [| [k v] l IH]; simpl; [reflexivity |].
  destruct (P k) eqn:Hk; simpl; case_bool_decide; subst; try congruence.
Qed.

Lemma assoc_Some_in {A} c (l : list (pystr * A)) v :
  assoc c l = Some v -> (c, v) ∈ l.
Proof.
  induction l as [| [k w] l IH]; simpl; [discriminate |].
  case_bool_decide as Hb; intros H.
  - inversion H; subst. apply list_elem_of_here.
  - apply list_elem_of_further, IH, H.
Qed.

Lemma assoc_None_notin {A} c (l : list (pystr * A)) :
  assoc c l = None -> c ∉ map fst l.
Proof.
  induction l as [| [k w] l IH]; simpl; [intros _; apply not_elem_of_nil |].
  case_bool_decide as Hb; [discriminate |]. intros H Hin.
  apply elem_of_cons in Hin as [-> | Hin]; [done | by apply IH].
Qed.

Lemma assoc_NoDup {A} (l : list (pystr * A)) p :
  NoDup (map fst l) -> p ∈ l -> assoc (fst p) l = Some (snd p).
Proof.
  induction l as [| [k w] l IH]; simpl; intros Hnd Hin;
    [by apply elem_of_nil in Hin |].
  inversion Hnd as [| ? ? Hk Hnd']; subst.
  apply elem_of_cons in Hin as [-> | Hin]; simpl.
  - by rewrite bool_decide_eq_true_2.
  - case_bool_decide as E; [| by apply IH].
    exfalso. apply Hk. rewrite E. apply list_elem_of_In, in_map.
    by apply list_elem_of_In.
Qed.

Lemma col_tail c df : col c (tail_df df) = tl (col c df).
Proof.
  unfold col, tail_df. rewrite assoc_map_snd.
  destruct (assoc c df); reflexivity.
Qed.

Lemma param_head c df : param (head_record df) c = hd CNone (col c df).
Proof.
  unfold param, col, head_record. rewrite assoc_map_snd.
  destruct (assoc c df); reflexivity.
Qed.

Lemma col_length n c df :
  rect n df -> c ∈ columns df -> length (col c df) = n.
Proof.
  intros Hr Hc. unfold col.
  destruct (assoc c df) as [v |] eqn:E.
  - apply assoc_Some_in in E. unfold rect in Hr.
    rewrite Forall_forall in Hr.
    apply list_elem_of_In in E. apply (Hr _ E).
  - apply assoc_None_notin in E. done.
Qed.

Lemma rect_tail n df : rect (S n) df -> rect n (tail_df df).
Proof.
  unfold rect, tail_df. intros H. apply Forall_map.
  eapply Forall_impl; [| exact H]. intros [c v]; simpl.
  destruct v; simpl; intros E; [discriminate | by inversion E].
Qed.

Lemma columns_tail df : columns (tail_df df) = columns df.
Proof. unfold columns, tail_df. rewrite map_map. reflexivity. Qed.

Lemma nrows_rect n df : rect n df -> df <> [] -> nrows df = n.
Proof.
  destruct df as [| [c v] df]; [done |]. intros H _.
  by apply Forall_inv in H.
Qed.

Lemma length_records n df : length (records n df) = n.
Proof. revert df. induction n; intros df; simpl; auto. Qed.

(** A column is what the records hold for its name. *)
Lemma records_col n c :
  forall df, length (col c df) = n ->
             map (fun rec => param rec c) (records n df) = col c df.
Proof.
  induction n as [| n IH]; intros df H; simpl.
  - by destruct (col c df).
  - rewrite param_head, IH.
    + rewrite col_tail. destruct (col c df); [discriminate | reflexivity].
    + rewrite col_tail. destruct (col c df); [discriminate |].
      simpl in *. lia.
Qed.

Lemma records_filter_cols (P : pystr -> bool) n :
  forall df,
    records n (List.filter (fun p => P (fst p)) df)
    = map (List.filter (fun p => P (fst p))) (records n df).
Proof.
  induction n as [| n IH]; intros df; simpl; [reflexivity |].
  f_equal.
  - unfold head_record. induction df as [| [c v] df IHd]; simpl; auto.
    destruct (P c); simpl; rewrite IHd; reflexivity.
  - rewrite <- IH. f_equal. unfold tail_df.
    induction df as [| [c v] df IHd]; simpl; auto.
    destruct (P c); simpl; rewrite IHd; reflexivity.
Qed.

Lemma records_set_col c g n :
  forall df, n <= length (col c df) ->
    records n (set_col c (map g (col c df)) df)
    = map (update_at c g) (records n df).
Proof.
  induction n as [| n IH]; intros df H; simpl; [reflexivity |].
  destruct (col c df) as [| x w] eqn:E; simpl in H; [lia |].
  f_equal.
  - unfold update_at, head_record, set_col. rewrite !map_map.
    apply map_ext. intros [k v]; simpl.
    fold (head_record df). rewrite param_head, E.
    case_bool_decide; reflexivity.
  - specialize (IH (tail_df df)). rewrite col_tail, E in IH. simpl in IH.
    rewrite <- IH by lia. f_equal.
    unfold tail_df, set_col. rewrite !map_map. apply map_ext.
    intros [k v]; simpl. case_bool_decide; reflexivity.
Qed.

Lemma length_keep_rows {A} (mask : list bool) :
  forall v : list A, length v = length mask ->
    length (keep_rows mask v) = length (List.filter id mask).
Proof.
  induction mask as [| b mask IH]; intros [| x v] H; simpl in *;
    try reflexivity; try discriminate.
  destruct b; simpl; rewrite IH by lia; reflexivity.
Qed.

Lemma keep_rows_map {A} (P : A -> bool) (l : list A) :
  keep_rows (map P l) l = List.filter P l.
Proof.
  induction l as [| x l IH]; simpl; [reflexivity |].
  destruct (P x); rewrite IH; reflexivity.
Qed.

Lemma rect_select_rows mask n df :
  rect n df -> length mask = n ->
  rect (length (List.filter id mask)) (select_rows mask df).
Proof.
  unfold rect, select_rows. intros H Hm. apply Forall_map.
  eapply Forall_impl; [| exact H]. intros [c v]; simpl. intros Hv.
  apply length_keep_rows. lia.
Qed.

Lemma map_ext_rect {B} n (f g : pystr * Series -> B) df :
  rect n df ->
  (forall c v, length v = n -> f (c, v) = g (c, v)) ->
  map f df = map g df.
Proof.
  intros Hr H. apply map_ext_in. intros [c v] Hin.
  unfold rect in Hr. rewrite Forall_forall in Hr. apply H, (Hr _ Hin).
Qed.

(** [df[mask]] keeps the records the mask marks. *)
Lemma records_select_rows mask :
  forall n df, rect n df -> length mask = n ->
    records (length (List.filter id mask)) (select_rows mask df)
    = keep_rows mask (records n df).
Proof.
  induction mask as [| b mask IH]; intros n df Hr Hm; simpl in *.
  - subst n. reflexivity.
  - destruct n as [| n]; [discriminate |]. simpl.
    assert (Ht : select_rows mask (tail_df df)
                 = if b then tail_df (select_rows (b :: mask) df)
                   else select_rows (b :: mask) df).
    { unfold select_rows, tail_df. rewrite !map_map.
      destruct b; rewrite ?map_map; apply (map_ext_rect (S n)); auto;
        intros c [| x v]; simpl; try discriminate; reflexivity. }
    specialize (IH n (tail_df df) (rect_tail _ _ Hr) ltac:(lia)).
    rewrite Ht in IH. destruct b; simpl; [| exact IH].
    rewrite IH. f_equal.
    unfold head_record, select_rows. rewrite map_map.
    apply (map_ext_rect (S n)); auto.
    intros c [| x v]; simpl; [discriminate | reflexivity].
Qed.

(** *** The echo mask *)

Lemma zip_orb_false {A} (m : list bool) :
  forall l : list A, length m = length l ->
    zip_with orb m (map (fun _ => false) l) = m.
Proof.
  induction m as [| b m IH]; intros [| x l] H; simpl in *;
    try reflexivity; try discriminate.
  rewrite orb_false_r, IH by lia. reflexivity.
Qed.

Lemma zip_orb_map {A} (f g : A -> bool) (l : list A) :
  forall m, zip_with orb (zip_with orb m (map f l)) (map g l)
            = zip_with orb m (map (fun x => f x || g x) l).
Proof.
  induction l as [| x l IH]; intros [| b m]; simpl; try reflexivity.
  rewrite IH. f_equal. destruct b, (f x), (g x); reflexivity.
Qed.

Lemma zip_orb_repeat_false (l : list bool) :
  zip_with orb (repeat false (length l)) l = l.
Proof. induction l as [| b l IH]; simpl; [| rewrite IH]; reflexivity. Qed.

Lemma length_zip_orb_map {A} (f : A -> bool) (l : list A) (m : list bool) :
  length m = length l -> length (zip_with orb m (map f l)) = length l.
Proof.
  revert m. induction l as [| x l IH]; intros [| b m] H; simpl in *;
    try reflexivity; try discriminate.
  rewrite IH by lia. reflexivity.
Qed.

Lemma fold_mask_or cs n df :
  rect n df -> (forall c, c ∈ cs -> c ∈ columns df) ->
  forall m, length m = n ->
    fold_left (mask_or df) cs m
    = zip_with orb m (map (echo_in cs) (records n df)).
Proof.
  intros Hr. induction cs as [| c cs IH]; intros Hcs m Hm; simpl.
  - unfold echo_in; simpl. symmetry. apply zip_orb_false.
    by rewrite length_records.
  - assert (Hc : mask_or df m c
                 = zip_with orb m
                     (map (fun rec => bool_decide (cell_text (param rec c) = c))
                          (records n df))).
    { unfold mask_or.
      rewrite <- (records_col n c df)
        by (apply col_length; [exact Hr | apply Hcs, list_elem_of_here]).
      by rewrite map_map. }
    rewrite IH.
    + rewrite Hc, zip_orb_map. reflexivity.
    + intros c' Hc'. apply Hcs, list_elem_of_further, Hc'.
    + rewrite Hc, length_zip_orb_map; rewrite length_records; auto.
Qed.

Lemma records_keys n :
  forall df rec, rec ∈ records n df -> map fst rec = columns df.
Proof.
  induction n as [| n IH]; intros df rec H; simpl in H;
    [by apply elem_of_nil in H |].
  apply elem_of_cons in H as [-> | H].
  - unfold head_record, columns. rewrite map_map. reflexivity.
  - rewrite (IH _ _ H). apply columns_tail.
Qed.

Lemma existsb_ext_in {A} (f g : A -> bool) (l : list A) :
  (forall x, x ∈ l -> f x = g x) -> existsb f l = existsb g l.
Proof.
  induction l as [| x l IH]; intros H; simpl; [reflexivity |].
  rewrite (H x) by apply list_elem_of_here.
  rewrite IH; [reflexivity |]. intros y Hy. apply H, list_elem_of_further, Hy.
Qed.

Lemma echo_in_filter (G : pystr -> bool) rec (l : list (pystr * cell)) :
  echo_in (List.filter G (map fst l)) rec
  = existsb (fun kv => G (fst kv)
                       && bool_decide (cell_text (param rec (fst kv)) = fst kv))
            l.
Proof.
  unfold echo_in. induction l as [| [k v] l IH]; simpl; [reflexivity |].
  destruct (G k); simpl; rewrite IH; reflexivity.
Qed.

Lemma echo_in_sample key_col rec :
  NoDup (map fst rec) ->
  echo_in (List.filter (fun c => bool_decide (c <> key_col)) (map fst rec)) rec
  = echo key_col rec.
Proof.
  intros Hnd. rewrite echo_in_filter. unfold echo.
  apply existsb_ext_in. intros kv Hkv. unfold param.
  rewrite (assoc_NoDup _ _ Hnd Hkv). reflexivity.
Qed.

(** The mask of the loop over [sample_cols] marks the echo rows. *)
Lemma mask_template_rowwise n df key_col :
  NoDup (columns df) -> rect n df -> nrows df = n ->
  mask_template df key_col = map (echo key_col) (records n df).
Proof.
  intros Hnd Hr Hn.
  unfold mask_template. rewrite Hn.
  rewrite (fold_mask_or _ n df Hr).
  - rewrite <- (length_records n df) at 1.
    rewrite <- (length_map (echo_in (sample_cols df key_col))).
    rewrite zip_orb_repeat_false. apply map_ext_in. intros rec Hrec.
    apply list_elem_of_In, records_keys in Hrec.
    unfold sample_cols. rewrite <- Hrec. apply echo_in_sample.
    by rewrite Hrec.
  - intros c Hc. unfold sample_cols in Hc.
    by apply elem_of_filter_list in Hc as [Hc _].
  - apply repeat_length.
Qed.

(** *** The key filter and the echo filter on records *)

Lemma rect_filter (P : pystr -> bool) n df :
  rect n df -> rect n (List.filter (fun p => P (fst p)) df).
Proof.
  unfold rect. rewrite !Forall_forall. intros H p Hp.
  apply filter_In in Hp as [Hp _]. auto.
Qed.

Lemma rect_set_col n c v df :
  rect n df -> length v = n -> rect n (set_col c v df).
Proof.
  unfold rect, set_col. intros H Hv. apply Forall_map.
  eapply Forall_impl; [| exact H]. intros [k w]; simpl.
  case_bool_decide; simpl; auto.
Qed.

Lemma NoDup_filter_cols (P : pystr -> bool) (cols : list pystr) :
  NoDup cols -> NoDup (List.filter P cols).
Proof.
  induction cols as [| c cols IH]; intros H; simpl; [constructor |].
  inversion H as [| ? ? Hc Hnd]; subst.
  destruct (P c); [constructor |]; auto.
  intros Hin. apply Hc. by apply elem_of_filter_list in Hin as [Hin _].
Qed.

Lemma elem_of_filter_list_2 (P : pystr -> bool) cols c :
  c ∈ cols -> P c = true -> c ∈ List.filter P cols.
Proof.
  rewrite !list_elem_of_In. intros H1 H2. apply filter_In. auto.
Qed.

Lemma col_set_col c v df : c ∈ columns df -> col c (set_col c v df) = v.
Proof.
  unfold col, set_col, columns.
  induction df as [| [k w] df IH]; simpl; intros H;
    [by apply elem_of_nil in H |].
  case_bool_decide as E; simpl.
  - by rewrite bool_decide_eq_true_2.
  - rewrite bool_decide_eq_false_2 by done. apply IH.
    apply elem_of_cons in H as [-> | H]; done.
Qed.

Lemma columns_nonempty c df : c ∈ columns df -> df <> [].
Proof. intros H ->. by apply elem_of_nil in H. Qed.

Lemma length_filter_id_map {A} (P : A -> bool) (l : list A) :
  length (List.filter id (map P l)) = length (List.filter P l).
Proof.
  induction l as [| x l IH]; simpl; [reflexivity |].
  unfold id at 1. destruct (P x); simpl; rewrite <- IH; reflexivity.
Qed.

Lemma filter_negb_all {A} (P : A -> bool) (l : list A) :
  length (List.filter P l) = 0 -> List.filter (fun x => negb (P x)) l = l.
Proof.
  induction l as [| x l IH]; simpl; [reflexivity |].
  destruct (P x); simpl; [discriminate |]. intros H. by rewrite IH.
Qed.

Section RowFilter.
Variables (df : DataFrame) (key_col : pystr).
Hypothesis Hwf : well_formed df.
Hypothesis Hkey : key_col ∈ columns df.
Hypothesis Hkept : kept key_col = true.

Let n := nrows df.
Let df1 := List.filter (fun p => kept (fst p)) df.
Let df2 := set_col key_col (map to_key (col key_col df1)) df1.

Lemma key_in_df1 : key_col ∈ columns df1.
Proof.
  unfold df1. rewrite columns_filter. by apply elem_of_filter_list_2.
Qed.

Lemma rect_df1 : rect n df1.
Proof. destruct Hwf as [_ Hr]. unfold df1, n. by apply rect_filter. Qed.

Lemma length_key_col : length (col key_col df1) = n.
Proof. apply col_length; [apply rect_df1 | apply key_in_df1]. Qed.

Lemma rect_df2 : rect n df2.
Proof.
  unfold df2. apply rect_set_col; [apply rect_df1 |].
  rewrite length_map. apply length_key_col.
Qed.

Lemma records_df2 :
  records n df2 = map (keyed_record key_col) (records n df).
Proof.
  unfold df2. rewrite records_set_col by (rewrite length_key_col; lia).
  unfold df1. rewrite records_filter_cols, map_map. reflexivity.
Qed.

Lemma key_in_df2 : key_col ∈ columns df2.
Proof. unfold df2. rewrite columns_set_col. apply key_in_df1. Qed.

Lemma keyed_eq :
  keyed df key_col
  = select_rows (map (fun rec => key_ok (param rec key_col)) (records n df2))
                df2.
Proof.
  change (keyed df key_col)
    with (select_rows (map key_ok (col key_col df2)) df2).
  f_equal.
  rewrite <- (records_col n key_col df2), map_map; [reflexivity |].
  apply col_length; [apply rect_df2 | apply key_in_df2].
Qed.

Lemma columns_df2_nonempty : df2 <> [].
Proof. apply (columns_nonempty key_col), key_in_df2. Qed.

(** The frame after the key filter holds the records that pass it. *)
Lemma keyed_rowwise :
  to_records (keyed df key_col)
  = List.filter (fun rec => key_ok (param rec key_col))
                (map (keyed_record key_col) (to_records df))
  /\ well_formed (keyed df key_col)
  /\ key_col ∈ columns (keyed df key_col).
Proof.
  pose proof rect_df2 as Hr2. pose proof columns_df2_nonempty as Hne.
  set (mask := map (fun rec => key_ok (param rec key_col)) (records n df2)).
  assert (Hm : length mask = n)
    by (subst mask; rewrite length_map; apply length_records).
  assert (Hsel : select_rows mask df2 <> []).
  { unfold select_rows. destruct df2; [done | discriminate]. }
  pose proof (rect_select_rows mask n df2 Hr2 Hm) as Hrs.
  assert (Hn : nrows (keyed df key_col) = length (List.filter id mask)).
  { rewrite keyed_eq. fold mask. by apply nrows_rect. }
  split; [| split].
  - unfold to_records at 1. rewrite Hn, keyed_eq. fold mask.
    rewrite (records_select_rows mask n df2 Hr2 Hm).
    subst mask. rewrite keep_rows_map, records_df2. reflexivity.
  - split.
    + rewrite columns_keyed. apply NoDup_filter_cols, Hwf.
    + rewrite Hn, keyed_eq. exact Hrs.
  - rewrite columns_keyed. by apply elem_of_filter_list_2.
Qed.
End RowFilter.

(** The frame after the echo filter holds the records of a well-formed
    frame that are not echo rows, and the count is that of the others. *)
Lemma drop_echo_rowwise df key_col :
  well_formed df -> df <> [] ->
  let mask := mask_template df key_col in
  let dropped := length (List.filter id mask) in
  let out := match dropped with
             | O => df
             | _ => select_rows (map negb mask) df
             end in
  to_records out
  = List.filter (fun rec => negb (echo key_col rec)) (to_records df)
  /\ dropped = length (List.filter (echo key_col) (to_records df)).
Proof.
  intros [Hnd Hr] Hne. cbv zeta.
  rewrite (mask_template_rowwise (nrows df) df key_col Hnd Hr eq_refl).
  rewrite length_filter_id_map. fold (to_records df).
  split; [| reflexivity].
  destruct (length (List.filter (echo key_col) (to_records df))) eqn:E.
  - by rewrite filter_negb_all.
  - set (mask := map negb (map (echo key_col) (to_records df))).
    assert (Hm : length mask = nrows df).
    { subst mask. rewrite !length_map. apply length_records. }
    assert (Hsel : select_rows mask df <> []).
    { unfold select_rows. destruct df; [done | discriminate]. }
    unfold to_records at 1.
    rewrite (nrows_rect _ _ (rect_select_rows mask _ df Hr Hm) Hsel).
    rewrite (records_select_rows mask _ df Hr Hm).
    subst mask. rewrite map_map, keep_rows_map. reflexivity.
Qed.

(** The two filters of [_clean_autocorrect], row by row. *)
Lemma filtered_rowwise df key_col :
  well_formed df -> key_col ∈ columns df -> kept key_col = true ->
  to_records (fst (filtered df key_col)) = fst (rowwise key_col (to_records df))
  /\ snd (filtered df key_col) = snd (rowwise key_col (to_records df)).
Proof.
  intros Hwf Hkey Hkept.
  destruct (keyed_rowwise df key_col Hwf Hkey Hkept) as (Hrec & Hwf' & Hkey').
  pose proof (drop_echo_rowwise (keyed df key_col) key_col Hwf'
                (columns_nonempty _ _ Hkey')) as H.
  cbv zeta in H. unfold filtered, rowwise. simpl.
  rewrite <- Hrec. exact H.
Qed.

(** *** Rows of the input and rows of the filters *)

Lemma echo_true key_col r :
  echo key_col r = true
  <-> exists c x, (c, x) ∈ r /\ c <> key_col /\ cell_text x = c.
Proof.
  unfold echo. rewrite existsb_exists. split.
  - intros ([c x] & Hin & H). apply andb_true_iff in H as [H1 H2].
    apply bool_decide_eq_true_1 in H1, H2. simpl in *.
    exists c, x. rewrite list_elem_of_In. auto.
  - intros (c & x & Hin & H1 & H2). exists (c, x).
    rewrite <- list_elem_of_In. split; [exact Hin |]. simpl.
    by rewrite !bool_decide_eq_true_2.
Qed.

Lemma in_update_at key_col g rec c x :
  c <> key_col -> ((c, x) ∈ update_at key_col g rec <-> (c, x) ∈ rec).
Proof.
  intros Hc. unfold update_at. rewrite !list_elem_of_In, in_map_iff. split.
  - intros ([k v] & E & Hin). simpl in E.
    case_bool_decide; inversion E; subst; done.
  - intros Hin. exists (c, x). simpl.
    by rewrite bool_decide_eq_false_2.
Qed.

Lemma in_keyed_record key_col rec c x :
  c <> key_col ->
  ((c, x) ∈ keyed_record key_col rec <-> (c, x) ∈ rec /\ kept c = true).
Proof.
  intros Hc. unfold keyed_record. rewrite in_update_at by exact Hc.
  rewrite !list_elem_of_In, filter_In. reflexivity.
Qed.

Lemma param_update_at key_col g rec :
  key_col ∈ map fst rec ->
  param (update_at key_col g rec) key_col = g (param rec key_col).
Proof.
  unfold update_at, param. generalize (g (default CNone (assoc key_col rec))).
  intros y. induction rec as [| [k v] rec IH]; simpl; intros H;
    [by apply elem_of_nil in H |].
  case_bool_decide as E; simpl.
  - by rewrite bool_decide_eq_true_2.
  - rewrite bool_decide_eq_false_2 by done. apply IH.
    apply elem_of_cons in H as [-> | H]; done.
Qed.

Lemma param_keyed_record key_col rec :
  kept key_col = true -> key_col ∈ map fst rec ->
  param (keyed_record key_col rec) key_col = to_key (param rec key_col).
Proof.
  intros Hk Hin. unfold keyed_record. rewrite param_update_at.
  - unfold param. by rewrite (assoc_filter kept).
  - rewrite list_elem_of_In, in_map_iff in Hin.
    destruct Hin as ([k v] & E & Hin). simpl in E; subst k.
    rewrite list_elem_of_In, in_map_iff. exists (key_col, v).
    split; [reflexivity |]. apply filter_In. auto.
Qed.

Lemma key_col_kept key_col : key_col = ID \/ key_col = CLAVE -> kept key_col = true.
Proof. intros [-> | ->]; reflexivity. Qed.

(** The rows of a frame that pass the key filter. *)
Lemma in_keyed df key_col rec :
  well_formed df -> key_col ∈ columns df -> kept key_col = true ->
  rec ∈ to_records df ->
  key_ok (to_key (param rec key_col)) = true ->
  keyed_record key_col rec ∈ to_records (keyed df key_col).
Proof.
  intros Hwf Hkey Hkept Hrec Hok.
  destruct (keyed_rowwise df key_col Hwf Hkey Hkept) as (-> & _ & _).
  apply list_elem_of_In, filter_In. split.
  - apply in_map. by apply list_elem_of_In.
  - rewrite param_keyed_record; [exact Hok | exact Hkept |].
    by rewrite (records_keys _ _ _ Hrec).
Qed.

Lemma in_filtered df key_col r :
  well_formed df -> key_col ∈ columns df -> kept key_col = true ->
  (r ∈ to_records (fst (filtered df key_col))
   <-> r ∈ to_records (keyed df key_col) /\ echo key_col r = false).
Proof.
  intros Hwf Hkey Hkept.
  destruct (filtered_rowwise df key_col Hwf Hkey Hkept) as [-> _].
  destruct (keyed_rowwise df key_col Hwf Hkey Hkept) as (-> & _ & _).
  unfold rowwise; simpl. rewrite !list_elem_of_In, filter_In.
  rewrite negb_true_iff. reflexivity.
Qed.

Lemma nan_key_text : to_key (CFloat S754_nan) = CStr (py "nan").
Proof. reflexivity. Qed.

(** C10: a row whose key cell is missing (the float NaN of an empty cell)
    gets the text "nan" as its key, which is not the empty text: the row
    passes the filter of the empty keys and is among the rows of the frame
    that the filter leaves; unless it is an echo row it is among the rows
    of the frame the two filters leave, with the key "nan". *)
Theorem nan_key_is_kept (df : DataFrame) (key_col : pystr)
        (rec : list (pystr * cell)) :
  well_formed df -> key_col ∈ columns df ->
  key_col = ID \/ key_col = CLAVE ->
  rec ∈ to_records df ->
  param rec key_col = CFloat S754_nan ->
  param (keyed_record key_col rec) key_col = CStr (py "nan")
  /\ py "nan" <> []
  /\ key_ok (param (keyed_record key_col rec) key_col) = true
  /\ (keyed_record key_col rec ∈ to_records (keyed df key_col))
  /\ (echo key_col (keyed_record key_col rec) = false ->
      keyed_record key_col rec ∈ to_records (fst (filtered df key_col))).
Proof.
  intros Hwf Hkey Hk Hrec Hnan.
  pose proof (key_col_kept _ Hk) as Hkept.
  assert (Hp : param (keyed_record key_col rec) key_col = CStr (py "nan")).
  { rewrite param_keyed_record, Hnan; [reflexivity | exact Hkept |].
    by rewrite (records_keys _ _ _ Hrec). }
  assert (Hin : keyed_record key_col rec ∈ to_records (keyed df key_col)).
  { apply in_keyed; auto. rewrite Hnan. reflexivity. }
  split; [exact Hp |]. split; [discriminate |]. split; [| split].
  - rewrite Hp. reflexivity.
  - exact Hin.
  - intros He. apply in_filtered; auto.
Qed.

Lemma NoDup_by_decide (l : list pystr) : bool_decide (NoDup l) = true -> NoDup l.
Proof. apply bool_decide_eq_true_1. Qed.

Lemma nan_key_is_kept_witness :
  let rec := [ (py "id", CFloat S754_nan);
               (py "descripcion", CStr (py "Leche")) ] in
  param (keyed_record ID rec) ID = CStr (py "nan")
  /\ py "nan" <> []
  /\ key_ok (param (keyed_record ID rec) ID) = true
  /\ (keyed_record ID rec ∈ to_records (keyed nan_key_df ID))
  /\ (keyed_record ID rec ∈ to_records (fst (filtered nan_key_df ID))).
Proof.
  destruct (nan_key_is_kept nan_key_df ID
              [ (py "id", CFloat S754_nan);
                (py "descripcion", CStr (py "Leche")) ])
    as (H1 & H2 & H3 & H4 & H5).
  - split; [apply NoDup_by_decide; vm_compute; reflexivity |].
    repeat constructor.
  - apply list_elem_of_here.
  - by left.
  - apply list_elem_of_further, list_elem_of_here.
  - reflexivity.
  - repeat split; auto.
Defined.

Lemma dropped_count df key_col :
  well_formed df -> key_col ∈ columns df -> kept key_col = true ->
  snd (filtered df key_col)
  = length (List.filter (echo key_col) (to_records (keyed df key_col))).
Proof.
  intros Hwf Hkey Hkept.
  destruct (filtered_rowwise df key_col Hwf Hkey Hkept) as [_ ->].
  destruct (keyed_rowwise df key_col Hwf Hkey Hkept) as (-> & _ & _).
  reflexivity.
Qed.

(** The count of the report is the count of the echo filter. *)
Lemma report_dropped df key_col clean_df rep :
  _clean_autocorrect df key_col = inr (clean_df, rep) ->
  dropped_rows rep = snd (filtered df key_col).
Proof.
  unfold _clean_autocorrect. destruct (filtered df key_col) as [df1 d].
  destruct (coerce_columns ALLOWED_MAP df1 st0); [| discriminate].
  intros H. inversion H; subst. reflexivity.
Qed.

Lemma echo_keyed_record key_col rec :
  echo key_col (keyed_record key_col rec) = true
  <-> exists c x, (c, x) ∈ rec /\ kept c = true /\ c <> key_col
                  /\ cell_text x = c.
Proof.
  rewrite echo_true. split.
  - intros (c & x & Hin & Hc & Ht). exists c, x.
    apply in_keyed_record in Hin as [Hin Hk]; auto.
  - intros (c & x & Hin & Hk & Hc & Ht). exists c, x.
    rewrite in_keyed_record by exact Hc. auto.
Qed.

(** C6, as stated, fails on two kinds of rows: a cell that holds the name
    of its own column in a column the registry does not know leaves the row
    in the frame, and a row with a blank key that holds such a cell is
    removed by the key filter without being counted. *)
Lemma echo_rows_not_all_counted :
  cell_text (CStr (py "Notas ")) = py "notas"
  /\ _clean_autocorrect notes_df ID
     = inr ([ (py "id", [CStr (py "1")]) ],
            {| dropped_rows := 0; coerced := st0 |})
  /\ cell_text (CStr (py "descripcion")) = py "descripcion"
  /\ _clean_autocorrect blank_key_df ID
     = inr ([ (py "id", []); (py "descripcion", []) ],
            {| dropped_rows := 0; coerced := st0 |}).
Proof. vm_compute. auto. Qed.

(** C6, amended: take a row whose trimmed key is not empty.  If some cell of
    a column of the registry, other than the key, holds trimmed and
    lower-cased the name of its own column, the row is not in the cleaned
    frame and is one of the rows [dropped_rows] counts; if no such cell
    does, the row is in the cleaned frame, whatever text it holds that is
    the name of another column.  The count is that of the report. *)
Theorem echo_rows_dropped (df : DataFrame) (key_col : pystr)
        (rec : list (pystr * cell)) :
  well_formed df -> key_col ∈ columns df ->
  key_col = ID \/ key_col = CLAVE ->
  rec ∈ to_records df ->
  key_ok (to_key (param rec key_col)) = true ->
  ((exists c x, (c, x) ∈ rec /\ kept c = true /\ c <> key_col
                /\ cell_text x = c) ->
   (keyed_record key_col rec ∉ to_records (fst (filtered df key_col)))
   /\ (keyed_record key_col rec
       ∈ List.filter (echo key_col) (to_records (keyed df key_col))))
  /\ ((forall c x, (c, x) ∈ rec -> kept c = true -> c <> key_col ->
                   cell_text x <> c) ->
      keyed_record key_col rec ∈ to_records (fst (filtered df key_col)))
  /\ snd (filtered df key_col)
     = length (List.filter (echo key_col) (to_records (keyed df key_col)))
  /\ (forall clean_df rep,
        _clean_autocorrect df key_col = inr (clean_df, rep) ->
        dropped_rows rep = snd (filtered df key_col)
        /\ columns clean_df = columns (fst (filtered df key_col))
        /\ col key_col clean_df = col key_col (fst (filtered df key_col))).
Proof.
  intros Hwf Hkey Hk Hrec Hok.
  pose proof (key_col_kept _ Hk) as Hkept.
  pose proof (in_keyed df key_col rec Hwf Hkey Hkept Hrec Hok) as Hin.
  split; [| split; [| split]].
  - intros He. apply echo_keyed_record in He. split.
    + rewrite in_filtered by assumption. intros [_ Hf]. congruence.
    + apply list_elem_of_In, filter_In. split; [| exact He].
      by apply list_elem_of_In.
  - intros Hno. apply in_filtered; auto. split; [exact Hin |].
    apply not_true_is_false. intros He. apply echo_keyed_record in He.
    destruct He as (c & x & H1 & H2 & H3 & H4). by apply (Hno c x).
  - by apply dropped_count.
  - intros clean_df rep H. split; [eapply report_dropped, H |].
    split; [| eapply clean_keys; eauto].
    rewrite columns_filtered. eapply clean_columns, H.
Qed.

Lemma echo_df_well_formed : well_formed echo_df.
Proof.
  split; [apply NoDup_by_decide; vm_compute; reflexivity |].
  repeat constructor.
Defined.

Lemma echo_rows_dropped_witness :
  let rec := [ (py "id", CInt 2); (py "descripcion", CStr (py " Descripcion"));
               (py "existencia", CInt 5) ] in
  (keyed_record ID rec ∉ to_records (fst (filtered echo_df ID)))
  /\ (keyed_record ID rec
      ∈ List.filter (echo ID) (to_records (keyed echo_df ID))).
Proof.
  refine (proj1 (echo_rows_dropped echo_df ID _ echo_df_well_formed _ _ _ _) _).
  - apply list_elem_of_here.
  - by left.
  - apply list_elem_of_further, list_elem_of_here.
  - reflexivity.
  - exists (py "descripcion"), (CStr (py " Descripcion")).
    split; [apply list_elem_of_further, list_elem_of_here |].
    split; [reflexivity |]. split; [discriminate | reflexivity].
Defined.

Lemma filter_twice {A} (P : A -> bool) (l : list A) :
  List.filter P (List.filter P l) = List.filter P l.
Proof.
  induction l as [| x l IH]; simpl; [reflexivity |].
  destruct (P x) eqn:E; simpl; rewrite ?E, IH; reflexivity.
Qed.

Lemma filtered_retained df key_col :
  filtered (List.filter (fun p => kept (fst p)) df) key_col
  = filtered df key_col.
Proof. unfold filtered, keyed. rewrite filter_twice. reflexivity. Qed.

(** C9: the echo test looks at the columns the registry retains only.  A row
    whose trimmed key is not empty, which holds the name of its own column
    in a column the registry does not know and in none of the others, is
    in the cleaned frame and is not an echo row for the count; the columns
    the registry does not know are gone from the row before the test, and
    the filter gives the same frame and the same count without them. *)
Theorem unrecognized_echo_ignored (df : DataFrame) (key_col : pystr)
        (rec : list (pystr * cell)) :
  well_formed df -> key_col ∈ columns df ->
  key_col = ID \/ key_col = CLAVE ->
  rec ∈ to_records df ->
  key_ok (to_key (param rec key_col)) = true ->
  (exists c x, (c, x) ∈ rec /\ kept c = false /\ cell_text x = c) ->
  (forall c x, (c, x) ∈ rec -> kept c = true -> c <> key_col ->
               cell_text x <> c) ->
  (keyed_record key_col rec ∈ to_records (fst (filtered df key_col)))
  /\ (keyed_record key_col rec
      ∉ List.filter (echo key_col) (to_records (keyed df key_col)))
  /\ snd (filtered df key_col)
     = length (List.filter (echo key_col) (to_records (keyed df key_col)))
  /\ (forall c x, (c, x) ∈ keyed_record key_col rec -> kept c = true)
  /\ filtered (List.filter (fun p => kept (fst p)) df) key_col
     = filtered df key_col.
Proof.
  intros Hwf Hkey Hk Hrec Hok _ Hno.
  pose proof (key_col_kept _ Hk) as Hkept.
  pose proof (in_keyed df key_col rec Hwf Hkey Hkept Hrec Hok) as Hin.
  assert (He : echo key_col (keyed_record key_col rec) = false).
  { apply not_true_is_false. intros He. apply echo_keyed_record in He.
    destruct He as (c & x & H1 & H2 & H3 & H4). by apply (Hno c x). }
  split; [| split; [| split; [| split]]].
  - apply in_filtered; auto.
  - rewrite list_elem_of_In, filter_In. intros [_ H]. congruence.
  - by apply dropped_count.
  - intros c x Hc. destruct (decide (c = key_col)) as [-> | Hne]; [done |].
    by apply in_keyed_record in Hc as [_ Hc].
  - apply filtered_retained.
Qed.

Lemma unrecognized_echo_ignored_witness :
  let rec := [ (py "id", CInt 1); (py "descripcion", CStr (py "Pan"));
               (py "notas", CStr (py "NOTAS")) ] in
  (keyed_record ID rec ∈ to_records (fst (filtered notes_echo_df ID)))
  /\ snd (filtered notes_echo_df ID) = 1.
Proof.
  destruct (unrecognized_echo_ignored notes_echo_df ID
              [ (py "id", CInt 1); (py "descripcion", CStr (py "Pan"));
                (py "notas", CStr (py "NOTAS")) ])
    as (H1 & _ & H3 & _).
  - split; [apply NoDup_by_decide; vm_compute; reflexivity |].
    repeat constructor.
  - apply list_elem_of_here.
  - by left.
  - apply list_elem_of_here.
  - reflexivity.
  - exists (py "notas"), (CStr (py "NOTAS")).
    split; [apply list_elem_of_further, list_elem_of_further,
            list_elem_of_here |].
    split; reflexivity.
  - intros c x H Hk Hc.
    apply elem_of_cons in H as [H | H]; [inversion H; subst; done |].
    apply elem_of_cons in H as [H | H];
      [inversion H; subst; vm_compute; discriminate |].
    apply elem_of_cons in H as [H | H];
      [inversion H; subst; discriminate |].
    by apply elem_of_nil in H.
  - split; [exact H1 | rewrite H3; reflexivity].
Defined.

(** ** The matcher and the language of a pattern *)

Lemma star_k_sound {A} p (k : pystr -> option A) x :
  forall s, star_k p s k = Some x ->
            exists pre rest, s = pre ++ rest
                             /\ Forall (fun d => p d = true) pre
                             /\ k rest = Some x.
Proof.
  induction s as [| c s IH]; simpl; intros H.
  - exists [], []. auto.
  - destruct (p c) eqn:Hc.
    + destruct (star_k p s k) as [y |] eqn:E.
      * inversion H; subst y.
        destruct (IH eq_refl) as (pre & rest & -> & Hp & Hk).
        exists (c :: pre), rest. auto.
      * exists [], (c :: s). auto.
    + exists [], (c :: s). auto.
Qed.

(** What the matcher returns comes from a split of the input: a prefix the
    pattern matches and a rest the continuation accepts. *)
Lemma run_sound {A} a :
  forall s (k : pystr -> option A) x,
    run a s k = Some x ->
    exists pre rest, s = pre ++ rest /\ matches a pre /\ k rest = Some x.
Proof.
  induction a as [p | a IHa b IHb | a IHa | p]; intros s k x H; simpl in H.
  - destruct s as [| c r]; [discriminate |].
    destruct (p c) eqn:Hc; [| discriminate].
    exists [c], r. split; [reflexivity |]. split; [by constructor | exact H].
  - apply IHa in H as (pre1 & r1 & -> & H1 & H).
    apply IHb in H as (pre2 & r2 & -> & H2 & H).
    exists (pre1 ++ pre2), r2. rewrite <- app_assoc.
    split; [reflexivity |]. split; [by constructor | exact H].
  - destruct (run a s k) as [y |] eqn:E.
    + inversion H; subst y. apply IHa in E as (pre & rest & -> & H1 & Hk).
      exists pre, rest. split; [reflexivity |].
      split; [by apply M_opt_some | exact Hk].
    + exists [], s. split; [reflexivity |]. split; [constructor | exact H].
  - destruct s as [| c r]; [discriminate |].
    destruct (p c) eqn:Hc; [| discriminate].
    apply star_k_sound in H as (pre & rest & -> & Hp & Hk).
    exists (c :: pre), rest. split; [reflexivity |].
    split; [by constructor | exact Hk].
Qed.

Lemma star_k_complete {A} p (k : pystr -> option A) rest :
  is_Some (k rest) ->
  forall pre, Forall (fun d => p d = true) pre ->
              is_Some (star_k p (pre ++ rest) k).
Proof.
  intros Hk. induction pre as [| c pre IH]; intros Hp; simpl.
  - destruct rest as [| c r]; simpl; [exact Hk |].
    destruct (p c); [| exact Hk].
    destruct (star_k p r k); [eauto | exact Hk].
  - inversion Hp as [| ? ? Hc Hp']; subst. rewrite Hc.
    destruct (IH Hp') as [y ->]. eauto.
Qed.

(** The matcher finds a match whenever the input has a split into a prefix
    the pattern matches and a rest the continuation accepts. *)
Lemma run_complete {A} a pre :
  matches a pre ->
  forall rest (k : pystr -> option A),
    is_Some (k rest) -> is_Some (run a (pre ++ rest) k).
Proof.
  induction 1 as [p c Hc | a b s t Ha IHa Hb IHb | a | a s Ha IHa
                  | p c s Hc Hs];
    intros rest k Hk; simpl.
  - rewrite Hc. exact Hk.
  - rewrite <- app_assoc. apply IHa, IHb, Hk.
  - destruct (run a rest k); [eauto | exact Hk].
  - destruct (IHa rest k Hk) as [y ->]. eauto.
  - rewrite Hc. by apply star_k_complete.
Qed.

Lemma re_fullmatch_matches a s :
  is_Some (re_fullmatch a s) <-> matches a s.
Proof.
  unfold re_fullmatch. split.
  - intros [x H]. apply run_sound in H as (pre & rest & -> & Hm & Hk).
    destruct rest; [| discriminate]. by rewrite app_nil_r.
  - intros H. rewrite <- (app_nil_r s) at 1.
    apply run_complete; [exact H | eauto].
Qed.

Lemma consumed_app (g rest : pystr) : consumed (g ++ rest) rest = g.
Proof.
  unfold consumed. rewrite length_app.
  replace (length g + length rest - length rest) with (length g) by lia.
  by rewrite take_app_length.
Qed.

Lemma re_match_sound a s g :
  re_match a s = Some g -> exists rest, s = g ++ rest /\ matches a g.
Proof.
  unfold re_match. intros H.
  apply run_sound in H as (pre & rest & -> & Hm & Hk).
  rewrite consumed_app in Hk. inversion Hk; subst. eauto.
Qed.

Lemma re_match_none a s :
  re_match a s = None -> forall g rest, s = g ++ rest -> ~ matches a g.
Proof.
  unfold re_match. intros H g rest -> Hm.
  destruct (run_complete a g Hm rest
              (fun r => Some (consumed (g ++ rest) r))) as [x Hx]; [eauto |].
  congruence.
Qed.

(** ** Facts about the character tables *)

Section Tables.
Local Open Scope N_scope.

(** The characters a case table has an entry for. *)
Definition run_domain (r : N * N * N * N) : list N :=
  let '(first, count, step, _) := r in
  map (fun k => first + N.of_nat k * step) (seq 0 (N.to_nat count)).

Definition case_domain (runs : list (N * N * N * N)) (t : list (N * pystr))
  : list N :=
  flat_map run_domain runs ++ map fst t.

Lemma in_run_domain c r d : in_run c r = Some d -> In c (run_domain r).
Proof.
  destruct r as [[[first count] step] image]. unfold in_run, run_domain.
  destruct (N.leb_spec first c) as [H1 | H1]; [| discriminate].
  destruct (N.ltb_spec c (first + count * step)) as [H2 | H2];
    [| discriminate].
  destruct (N.eqb_spec ((c - first) mod step) 0) as [H3 | H3];
    [| discriminate].
  intros _. cbn [andb].
  assert (Hs : step <> 0) by (intros ->; lia).
  pose proof (N.div_mod (c - first) step Hs) as Hd. rewrite H3 in Hd.
  set (q := (c - first) / step) in *.
  assert (Hq : q < count) by nia.
  apply in_map_iff. exists (N.to_nat q). split.
  - rewrite N2Nat.id. lia.
  - apply in_seq. lia.
Qed.

Lemma run_image_domain runs c d :
  run_image runs c = Some d -> In c (flat_map run_domain runs).
Proof.
  induction runs as [| r rs IH]; cbn [run_image flat_map]; [discriminate |].
  destruct (in_run c r) as [d' |] eqn:E; intros H; apply in_or_app.
  - left. by apply in_run_domain in E.
  - right. by apply IH.
Qed.

Lemma special_domain t c v : special t c = Some v -> In c (map fst t).
Proof.
  induction t as [| [k w] t IH]; cbn [special map fst]; [discriminate |].
  destruct (N.eqb_spec k c) as [-> | Hk]; intros H; [by left |].
  right. by apply IH.
Qed.

(** A property of the characters that holds for those a case table has an
    entry for and for those the table maps to themselves holds for all. *)
Lemma full_case_cases runs t (P : N -> bool) :
  forallb P (case_domain runs t) = true ->
  (forall c, full_case runs t c = [c] -> P c = true) ->
  forall c, P c = true.
Proof.
  intros H1 H2 c. rewrite forallb_forall in H1. unfold case_domain in H1.
  destruct (special t c) as [v |] eqn:E1.
  { apply H1, in_or_app. right. by apply special_domain in E1. }
  destruct (run_image runs c) as [d |] eqn:E2.
  { apply H1, in_or_app. left. by apply run_image_domain in E2. }
  apply H2. unfold full_case. by rewrite E1, E2.
Qed.

Lemma upper_cp_cases (P : N -> bool) :
  forallb P (case_domain UPPER_RUNS UPPER_SPECIAL) = true ->
  (forall c, upper_cp c = [c] -> P c = true) ->
  forall c, P c = true.
Proof. apply full_case_cases. Qed.

Lemma lower_cp_cases (P : N -> bool) :
  forallb P (case_domain LOWER_RUNS LOWER_SPECIAL) = true ->
  (forall c, lower_cp c = [c] -> P c = true) ->
  forall c, P c = true.
Proof. apply full_case_cases. Qed.

Lemma upper_cp_nonempty c : upper_cp c <> [].
Proof.
  pose proof (upper_cp_cases
                (fun c => match upper_cp c with [] => false | _ => true end))
    as H.
  specialize (H ltac:(vm_compute; reflexivity)).
  intros E. assert (Hc : forall c', upper_cp c' = [c'] ->
                         match upper_cp c' with [] => false | _ => true end
                         = true) by (by intros c' ->).
  specialize (H Hc c). cbv beta in H. by rewrite E in H.
Qed.

(** Upper-casing what is upper-cased changes nothing. *)
Lemma upper_cp_idem c : upper (upper_cp c) = upper_cp c.
Proof.
  pose proof (upper_cp_cases
                (fun c => bool_decide (upper (upper_cp c) = upper_cp c))) as H.
  specialize (H ltac:(vm_compute; reflexivity)).
  eapply bool_decide_eq_true_1, (H _ c). Unshelve.
  intros c' E. apply bool_decide_eq_true_2. rewrite E. unfold upper.
  cbn [flat_map]. rewrite E. reflexivity.
Qed.

(** The upper case of a character that is not a space has no space. *)
Lemma upper_cp_space c :
  is_space c = false -> forallb (fun d => negb (is_space d)) (upper_cp c) = true.
Proof.
  intros Hc.
  pose proof (upper_cp_cases
                (fun c => implb (negb (is_space c))
                            (forallb (fun d => negb (is_space d)) (upper_cp c))))
    as H.
  specialize (H ltac:(vm_compute; reflexivity)).
  assert (Hi : implb (negb (is_space c))
                 (forallb (fun d => negb (is_space d)) (upper_cp c)) = true).
  { apply H. intros c' E. rewrite E. simpl.
    destruct (is_space c'); reflexivity. }
  rewrite Hc in Hi. exact Hi.
Qed.

(** Only the characters of a numeral have an upper case made of them. *)
Lemma upper_cp_numch c : forallb numch (upper_cp c) = true -> upper_cp c = [c].
Proof.
  intros Hc.
  pose proof (upper_cp_cases
                (fun c => implb (forallb numch (upper_cp c))
                            (bool_decide (upper_cp c = [c])))) as H.
  specialize (H ltac:(vm_compute; reflexivity)).
  assert (Hi : implb (forallb numch (upper_cp c))
                     (bool_decide (upper_cp c = [c])) = true).
  { apply H. intros c' E. rewrite (bool_decide_eq_true_2 _ E).
    destruct (forallb numch (upper_cp c')); reflexivity. }
  rewrite Hc in Hi. simpl in Hi. by apply bool_decide_eq_true_1 in Hi.
Qed.
End Tables.

Lemma upper_app s t : upper (s ++ t) = upper s ++ upper t.
Proof. unfold upper. apply flat_map_app. Qed.

Lemma upper_idem s : upper (upper s) = upper s.
Proof.
  induction s as [| c s IH]; [reflexivity |].
  change (upper (c :: s)) with (upper_cp c ++ upper s).
  rewrite upper_app, IH, upper_cp_idem. reflexivity.
Qed.

Lemma upper_numch s : forallb numch (upper s) = true -> upper s = s.
Proof.
  induction s as [| c s IH]; [reflexivity |].
  change (upper (c :: s)) with (upper_cp c ++ upper s).
  rewrite forallb_app. intros H. apply andb_true_iff in H as [H1 H2].
  rewrite (upper_cp_numch _ H1), (IH H2). reflexivity.
Qed.

Lemma upper_nil s : upper s = [] -> s = [].
Proof.
  destruct s as [| c s]; [reflexivity |].
  change (upper (c :: s)) with (upper_cp c ++ upper s).
  intros H. apply app_eq_nil in H as [H _]. by apply upper_cp_nonempty in H.
Qed.

(** *** Trimming *)

Lemma strip_trimmed_id s : trimmed s -> strip s = s.
Proof.
  intros [H1 H2]. unfold strip, rstrip. rewrite H1, H2. apply rev_involutive.
Qed.

Lemma lstrip_head s :
  match lstrip s with c :: _ => is_space c = false | [] => True end.
Proof.
  induction s as [| c s IH]; simpl; [exact I |].
  destruct (is_space c) eqn:E; [exact IH | exact E].
Qed.

Lemma lstrip_fixed s :
  match s with c :: _ => is_space c = false | [] => True end -> lstrip s = s.
Proof. destruct s as [| c s]; simpl; [auto |]. by intros ->. Qed.

Lemma lstrip_lstrip s : lstrip (lstrip s) = lstrip s.
Proof. apply lstrip_fixed, lstrip_head. Qed.

Lemma lstrip_app_last l c :
  is_space c = false -> lstrip (l ++ [c]) = lstrip l ++ [c].
Proof.
  intros Hc. induction l as [| d l IH]; simpl; [by rewrite Hc |].
  destruct (is_space d); [exact IH | reflexivity].
Qed.

Lemma strip_is_trimmed s : trimmed (strip s).
Proof.
  unfold trimmed, strip, rstrip. rewrite rev_involutive, lstrip_lstrip.
  split; [| reflexivity].
  pose proof (lstrip_head s) as Hh.
  destruct (lstrip s) as [| c u]; [reflexivity |].
  simpl rev. rewrite lstrip_app_last by exact Hh.
  rewrite rev_app_distr. simpl. by rewrite Hh.
Qed.

Lemma rev_flat_map {A B} (f : A -> list B) (l : list A) :
  rev (flat_map f l) = flat_map (fun x => rev (f x)) (rev l).
Proof.
  induction l as [| x l IH]; simpl; [reflexivity |].
  rewrite rev_app_distr, IH, flat_map_app. simpl. by rewrite app_nil_r.
Qed.

Lemma lstrip_flat_map (f : N -> pystr) s :
  (forall c, is_space c = false ->
             match f c with d :: _ => is_space d = false | [] => False end) ->
  lstrip s = s -> lstrip (flat_map f s) = flat_map f s.
Proof.
  intros Hf Hs. destruct s as [| c s]; [reflexivity |].
  simpl in Hs. destruct (is_space c) eqn:Hc.
  - exfalso. pose proof (lstrip_head s) as Hh. rewrite Hs in Hh. congruence.
  - simpl. specialize (Hf c Hc). destruct (f c) as [| d ds]; [done |].
    simpl. by rewrite Hf.
Qed.

(** Upper-casing a trimmed text gives a trimmed text. *)
Lemma upper_trimmed s : trimmed s -> trimmed (upper s).
Proof.
  intros [H1 H2]. unfold trimmed, upper. rewrite rev_flat_map.
  split; apply lstrip_flat_map; auto; intros c Hc;
    pose proof (upper_cp_space c Hc) as Hu;
    pose proof (upper_cp_nonempty c) as Hn.
  - destruct (upper_cp c) as [| d ds]; [done |]. simpl in Hu.
    apply andb_true_iff in Hu as [Hu _]. by apply negb_true_iff in Hu.
  - destruct (rev (upper_cp c)) as [| d ds] eqn:E.
    + apply (f_equal (@rev N)) in E. rewrite rev_involutive in E. done.
    + rewrite forallb_forall in Hu. specialize (Hu d).
      apply negb_true_iff, Hu, in_rev. rewrite E. by left.
Qed.

(** ** The unit-name coercer *)

Lemma unit_numeral_numch s :
  is_Some (re_fullmatch UNIT_NUM_RE s) -> forallb numch s = true.
Proof.
  intros H. apply re_fullmatch_matches in H. unfold UNIT_NUM_RE in H.
  assert (Hd : forall t, Forall (fun d => is_digit d = true) t ->
                         forallb numch t = true).
  { intros t Ht. apply forallb_forall. rewrite Forall_forall in Ht.
    intros d Hin. unfold numch. by rewrite (Ht d Hin). }
  inversion H as [| a b s1 s2 H1 H2 | | |]; subst.
  inversion H1 as [| | | | p c t Hc Ht]; subst.
  rewrite forallb_app. apply andb_true_iff. split.
  - apply (Hd (c :: t)). by constructor.
  - inversion H2 as [| | | a t2 H3 |]; subst; [reflexivity |].
    inversion H3 as [| a b t3 t4 H4 H5 | | |]; subst.
    inversion H4 as [p c' Hc' | | | |]; subst.
    inversion H5 as [| | | | p c'' t5 Hc'' Ht5]; subst.
    simpl. apply andb_true_iff. split.
    + unfold numch. apply orb_true_iff in Hc' as [Hc' | Hc'];
        rewrite Hc'; by rewrite ?orb_true_r.
    + apply (Hd (c'' :: t5)). by constructor.
Qed.

(** A text that is not a numeral has an upper case that is not one. *)
Lemma unit_numeral_upper s :
  re_fullmatch UNIT_NUM_RE s = None ->
  re_fullmatch UNIT_NUM_RE (upper s) = None.
Proof.
  intros H. destruct (re_fullmatch UNIT_NUM_RE (upper s)) as [x |] eqn:E;
    [| reflexivity].
  assert (Hn : forallb numch (upper s) = true)
    by (apply unit_numeral_numch; rewrite E; eauto).
  apply upper_numch in Hn. rewrite Hn in E. congruence.
Qed.

Lemma table_values k v :
  UNIT_NORMALIZATION !! k = Some v -> v ∈ CANONICAL_UNITS.
Proof.
  unfold UNIT_NORMALIZATION, CANONICAL_UNITS. intros H.
  apply elem_of_list_to_map_2 in H.
  repeat (apply elem_of_cons in H as [H | H];
          [inversion H; subst; in_list |]).
  by apply elem_of_nil in H.
Qed.

Lemma canonical_unit_fixed v st :
  v ∈ CANONICAL_UNITS ->
  normalize_unit_name (CStr v) st = Ret (CStr v) st.
Proof.
  unfold CANONICAL_UNITS. intros H.
  repeat (apply elem_of_cons in H as [-> | H]; [vm_compute; reflexivity |]).
  by apply elem_of_nil in H.
Qed.

(** The upper case of a trimmed text that is no numeral and has no entry in
    the table is returned as it is. *)
Lemma upper_unit_fixed s st :
  trimmed s -> s <> [] ->
  re_fullmatch UNIT_NUM_RE s = None ->
  UNIT_NORMALIZATION !! replace 0x20 [] (replace 0x2E [] (upper s)) = None ->
  normalize_unit_name (CStr (upper s)) st = Ret (CStr (upper s)) st.
Proof.
  intros Ht Hne Hnum Hkey. unfold normalize_unit_name. cbn [isna py_str].
  rewrite (strip_trimmed_id _ (upper_trimmed _ Ht)).
  rewrite bool_decide_eq_false_2 by (intros E; by apply upper_nil in E).
  rewrite (unit_numeral_upper _ Hnum), upper_idem, Hkey. simpl.
  rewrite bool_decide_eq_false_2 by (intros E; by apply E).
  reflexivity.
Qed.

(** C7: the unit-name coercer is idempotent: applied to its own result it
    returns the result unchanged and counts no correction, for every input
    (a blank or numeric input gives null, which stays null); "Pzas." gives
    "PIEZA" with a correction counted and "PIEZA" gives "PIEZA" with
    none. *)
Theorem normalize_unit_name_idempotent (x : cell) (st : counters) :
  (exists y st',
      normalize_unit_name x st = Ret y st'
      /\ normalize_unit_name y st' = Ret y st')
  /\ normalize_unit_name (CStr (py "Pzas.")) st
     = Ret (CStr (py "PIEZA")) (plus_unit 1 st)
  /\ normalize_unit_name (CStr (py "PIEZA")) st = Ret (CStr (py "PIEZA")) st.
Proof.
  split; [| split; vm_compute; reflexivity].
  unfold normalize_unit_name at 1.
  destruct (isna x) eqn:Hna; [by exists CNone, st |].
  pose proof (strip_is_trimmed (py_str x)) as Ht.
  set (s := strip (py_str x)) in *.
  case_bool_decide as Hs; [by exists CNone, st |].
  destruct (re_fullmatch UNIT_NUM_RE s) as [m |] eqn:Hnum;
    [by exists CNone, (plus_unit 1 st) |].
  set (key := replace 0x20 [] (replace 0x2E [] (upper s))).
  destruct (UNIT_NORMALIZATION !! key) as [v |] eqn:Hkey; simpl.
  - apply table_values in Hkey.
    case_bool_decide; eexists _, _; (split; [reflexivity |]);
      by apply canonical_unit_fixed.
  - case_bool_decide; eexists _, _; (split; [reflexivity |]);
      by apply upper_unit_fixed.
Qed.

(** ** The numeric pattern *)

(** [re.search] returns a match of the pattern, at the first position of
    the text where the pattern has a match. *)
Lemma re_search_sound a :
  forall s g,
    re_search a s = Some g ->
    exists pre post,
      s = pre ++ g ++ post
      /\ re_match a (g ++ post) = Some g
      /\ forall pre' g' post',
           s = pre' ++ g' ++ post' -> matches a g' ->
           length pre <= length pre'.
Proof.
  induction s as [| c s IH]; intros g H; simpl in H.
  - destruct (re_match a []) as [m |] eqn:E; [| discriminate].
    inversion H; subst m.
    destruct (re_match_sound _ _ _ E) as (rest & Hs & _).
    symmetry in Hs. apply app_eq_nil in Hs as [-> ->].
    exists [], []. split; [reflexivity |]. split; [exact E |].
    intros; simpl; lia.
  - destruct (re_match a (c :: s)) as [m |] eqn:E.
    + inversion H; subst m.
      destruct (re_match_sound _ _ _ E) as (rest & Hs & _).
      exists [], rest. split; [exact Hs |]. split; [by rewrite <- Hs |].
      intros; simpl; lia.
    + destruct (IH g H) as (pre & post & -> & Hm & Hfirst).
      exists (c :: pre), post. split; [reflexivity |]. split; [exact Hm |].
      intros pre' g' post' Hs Hg'. destruct pre' as [| c' pre'].
      * exfalso. exact (re_match_none _ _ E g' post' Hs Hg').
      * simpl in *. inversion Hs; subst c'.
        apply le_n_S. eapply Hfirst; eauto.
Qed.

Lemma re_search_none a :
  forall s, re_search a s = None ->
            forall pre g post, s = pre ++ g ++ post -> ~ matches a g.
Proof.
  induction s as [| c s IH]; intros H pre g post Hs Hg; simpl in H.
  - destruct (re_match a []) eqn:E; [discriminate |].
    symmetry in Hs. apply app_eq_nil in Hs as [-> Hs]. simpl in Hs.
    exact (re_match_none _ _ E g post (eq_sym Hs) Hg).
  - destruct (re_match a (c :: s)) eqn:E; [discriminate |].
    destruct pre as [| c' pre].
    + exact (re_match_none _ _ E g post Hs Hg).
    + inversion Hs; subst. exact (IH H pre g post eq_refl Hg).
Qed.

(** A repetition followed by something that always matches takes the
    longest run. *)
Lemma star_k_total {A} p (k : pystr -> option A) :
  (forall r, is_Some (k r)) -> forall s, star_k p s k = k (skip p s).
Proof.
  intros Hk. induction s as [| c s IH]; simpl; [reflexivity |].
  destruct (p c); [| reflexivity].
  rewrite IH. destruct (Hk (skip p s)) as [x ->]. reflexivity.
Qed.

Lemma run_frac {A} (k : pystr -> option A) r :
  (forall r, is_Some (k r)) ->
  run (Opt (Cat (chr 0x2E) (Plus is_digit))) r k = k (frac_rest r).
Proof.
  intros Hk. unfold frac_rest. cbn [run chr].
  destruct r as [| c r1]; [reflexivity |].
  destruct (0x2E =? c)%N; cbn [andb]; [| destruct r1; reflexivity].
  destruct r1 as [| c2 r2]; [reflexivity |].
  destruct (is_digit c2); [| reflexivity].
  rewrite star_k_total by exact Hk.
  destruct (Hk (skip is_digit r2)) as [x ->]. reflexivity.
Qed.

Lemma run_unsigned {A} (k : pystr -> option A) r :
  (forall r, is_Some (k r)) ->
  run (Cat (Plus is_digit) (Opt (Cat (chr 0x2E) (Plus is_digit)))) r k
  = match unsigned_rest r with Some rest => k rest | None => None end.
Proof.
  intros Hk. unfold unsigned_rest.
  change (run (Cat ?a ?b) r k) with (run a r (fun r' => run b r' k)).
  cbn [run]. destruct r as [| c r1]; [reflexivity |].
  destruct (is_digit c); [| reflexivity].
  rewrite star_k_total.
  - apply run_frac, Hk.
  - intros r'.
    change (is_Some (run (Opt (Cat (chr 0x2E) (Plus is_digit))) r' k)).
    rewrite run_frac by exact Hk. apply Hk.
Qed.

Lemma run_num {A} (k : pystr -> option A) s :
  (forall r, is_Some (k r)) ->
  run NUM_RE s k = match num_rest s with Some rest => k rest | None => None end.
Proof.
  intros Hk. unfold NUM_RE, num_rest.
  pose proof (fun r => run_unsigned k r Hk) as Hu.
  set (B := Cat (Plus is_digit) _) in *.
  destruct s as [| c r]; cbn [run chr].
  - rewrite Hu. reflexivity.
  - destruct (0x2D =? c)%N eqn:E; rewrite !Hu; [| reflexivity].
    destruct (unsigned_rest r) as [rest |] eqn:Er.
    + destruct (Hk rest) as [x ->]. reflexivity.
    + apply N.eqb_eq in E. subst c. reflexivity.
Qed.

Lemma re_match_num s :
  re_match NUM_RE s = consumed s <$> num_rest s.
Proof.
  unfold re_match. rewrite run_num by eauto.
  destruct (num_rest s); reflexivity.
Qed.

Lemma num_rest_split s R :
  num_rest s = Some R -> exists g, s = g ++ R /\ matches NUM_RE g.
Proof.
  intros H.
  assert (Hr : run NUM_RE s Some = Some R) by (rewrite run_num, H; eauto).
  apply run_sound in Hr as (pre & rest & -> & Hm & Hk).
  inversion Hk; subst. eauto.
Qed.

Lemma skip_length p s : length (skip p s) <= length s.
Proof.
  induction s as [| c s IH]; simpl; [lia |].
  destruct (p c); simpl; lia.
Qed.

Lemma skip_run p ds rest :
  Forall (fun d => p d = true) ds -> skip p (ds ++ rest) = skip p rest.
Proof.
  induction 1 as [| d ds Hd _ IH]; simpl; [reflexivity |].
  by rewrite Hd.
Qed.

Lemma frac_rest_length r : length (frac_rest r) <= length r.
Proof.
  unfold frac_rest. destruct r as [| c [| c2 r2]]; try lia.
  destruct ((0x2E =? c)%N && is_digit c2); [| lia].
  pose proof (skip_length is_digit r2). simpl. lia.
Qed.

Lemma digit_not_minus c : is_digit c = true -> (0x2D =? c)%N = false.
Proof.
  intros H. destruct (N.eqb_spec 0x2D c) as [<- |]; [| reflexivity].
  vm_compute in H. discriminate.
Qed.

(** The texts of the numeric pattern: an optional minus, digits, and
    optionally a point and digits. *)
Lemma num_token_shape g :
  matches NUM_RE g ->
  exists sg d1 ds fr,
    g = sg ++ (d1 :: ds) ++ fr
    /\ (sg = [] \/ sg = [0x2D%N])
    /\ is_digit d1 = true /\ Forall (fun d => is_digit d = true) ds
    /\ (fr = []
        \/ exists d2 fs, fr = 0x2E%N :: d2 :: fs /\ is_digit d2 = true
                         /\ Forall (fun d => is_digit d = true) fs).
Proof.
  unfold NUM_RE. intros H.
  inversion H as [| a b sg t Hsg Ht | | |]; subst.
  inversion Ht as [| a b u fr Hu Hfr | | |]; subst.
  inversion Hu as [| | | | p d1 ds Hd1 Hds]; subst.
  exists sg, d1, ds, fr. split; [reflexivity |]. split.
  - inversion Hsg as [| | | a s Hs |]; subst; [by left | right].
    inversion Hs as [p c Hc | | | |]; subst.
    apply N.eqb_eq in Hc. by subst.
  - split; [exact Hd1 |]. split; [exact Hds |].
    inversion Hfr as [| | | a s Hs |]; subst; [by left | right].
    inversion Hs as [| a b v w Hv Hw | | |]; subst.
    inversion Hv as [p c Hc | | | |]; subst.
    inversion Hw as [| | | | p d2 fs Hd2 Hfs]; subst.
    apply N.eqb_eq in Hc. subst c. exists d2, fs. auto.
Qed.

(** The match at the head of a text is the longest text of the pattern
    that starts it. *)
Lemma num_rest_shortest s R :
  num_rest s = Some R ->
  forall g' post', s = g' ++ post' -> matches NUM_RE g' ->
                   length R <= length post'.
Proof.
  intros HR g' post' -> Hg'.
  destruct (num_token_shape _ Hg')
    as (sg & d1 & ds & fr & -> & Hsg & Hd1 & Hds & Hfr).
  assert (Hu : unsigned_rest (((d1 :: ds) ++ fr) ++ post') = Some R).
  { destruct Hsg as [-> | ->]; cbn [app num_rest] in HR.
    - by rewrite (digit_not_minus _ Hd1) in HR.
    - by rewrite N.eqb_refl in HR. }
  cbn [app unsigned_rest] in Hu. rewrite Hd1 in Hu.
  inversion Hu as [HR']; clear Hu HR.
  rewrite <- app_assoc, skip_run by exact Hds.
  destruct Hfr as [-> | (d2 & fs & -> & Hd2 & Hfs)]; cbn [app].
  - pose proof (frac_rest_length (skip is_digit post')).
    pose proof (skip_length is_digit post'). lia.
  - change (skip is_digit (0x2E%N :: d2 :: fs ++ post'))
      with (0x2E%N :: d2 :: fs ++ post').
    cbn [frac_rest]. rewrite N.eqb_refl, Hd2. cbn [andb].
    rewrite skip_run by exact Hfs. apply skip_length.
Qed.

Lemma re_search_num_first s g :
  re_search NUM_RE s = Some g -> first_token NUM_RE s g.
Proof.
  intros H. apply re_search_sound in H as (pre & post & -> & Hm & Hfirst).
  exists pre, post. split; [reflexivity |].
  rewrite re_match_num in Hm.
  destruct (num_rest (g ++ post)) as [R |] eqn:ER; [| discriminate].
  destruct (num_rest_split _ _ ER) as (g0 & Hs & Hg0).
  simpl in Hm. rewrite Hs, consumed_app in Hm. inversion Hm; subst g0.
  apply app_inv_head in Hs. subst R.
  split; [exact Hg0 |]. split; [exact Hfirst |].
  intros g' post' Hs' Hg'.
  pose proof (num_rest_shortest _ _ ER g' post' Hs' Hg') as Hle.
  apply (f_equal (@length N)) in Hs'. rewrite !length_app in Hs'. lia.
Qed.

(** ** [float] on the texts of the numeric pattern *)

Section Digits.
Local Open Scope N_scope.

Lemma below_n (n : nat) (P : N -> bool) :
  forallb P (map N.of_nat (seq 0 n)) = true ->
  forall c, c < N.of_nat n -> P c = true.
Proof.
  intros H c Hc. rewrite forallb_forall in H. apply H.
  rewrite <- (N2Nat.id c). apply in_map, in_seq. lia.
Qed.

Lemma is_space_high c : 0x3001 <= c -> is_space c = false.
Proof.
  intros H. unfold is_space.
  repeat match goal with
         | |- context [?a <=? ?b] => destruct (N.leb_spec a b); try lia
         | |- context [?a =? ?b] => destruct (N.eqb_spec a b); try lia
         end; reflexivity.
Qed.

(** No decimal digit is a space. *)
Lemma digit_not_space c : is_digit c = true -> is_space c = false.
Proof.
  intros Hd. destruct (N.lt_ge_cases c 0x3001) as [Hc | Hc];
    [| by apply is_space_high].
  pose proof (below_n (N.to_nat 0x3001)
                (fun c => implb (is_digit c) (negb (is_space c)))) as H.
  specialize (H ltac:(vm_compute; reflexivity) c Hc). cbv beta in H.
  rewrite Hd in H. simpl in H. by apply negb_true_iff in H.
Qed.

Lemma digit_in_block zs c v :
  digit_in zs c = Some v -> exists z, In z zs /\ z <= c < z + 10.
Proof.
  induction zs as [| z zs IH]; simpl; [discriminate |].
  destruct (N.leb_spec z c) as [H1 | H1];
    destruct (N.ltb_spec c (z + 10)) as [H2 | H2]; simpl; intros H;
    try (apply IH in H as (z' & Hz & Hr); exists z'; split;
         [by right | exact Hr]).
  exists z. split; [by left | lia].
Qed.

(** The digits are 0..9 of ASCII or lie from U+0660 on. *)
Lemma digit_range c : is_digit c = true -> 0x30 <= c <= 0x39 \/ 0x660 <= c.
Proof.
  unfold is_digit, digit_value. destruct (digit_in Nd_zeros c) eqn:E;
    [| discriminate].
  intros _. apply digit_in_block in E as (z & Hz & Hr).
  assert (Hall : forallb (fun z => (z =? 0x30) || (0x660 <=? z)) Nd_zeros = true)
    by (vm_compute; reflexivity).
  rewrite forallb_forall in Hall. specialize (Hall z Hz).
  apply orb_true_iff in Hall as [Hz' | Hz'].
  - apply N.eqb_eq in Hz'. lia.
  - apply N.leb_le in Hz'. lia.
Qed.

Lemma digit_lower c : is_digit c = true -> lower_cp c = [c].
Proof.
  intros Hc.
  pose proof (lower_cp_cases
                (fun c => implb (is_digit c) (bool_decide (lower_cp c = [c]))))
    as H.
  specialize (H ltac:(vm_compute; reflexivity)).
  assert (Hi : implb (is_digit c) (bool_decide (lower_cp c = [c])) = true).
  { apply H. intros c' E. rewrite (bool_decide_eq_true_2 _ E).
    destruct (is_digit c'); reflexivity. }
  rewrite Hc in Hi. by apply bool_decide_eq_true_1 in Hi.
Qed.

Lemma digit_has_value c : is_digit c = true -> exists v, digit_value c = Some v.
Proof. unfold is_digit. destruct (digit_value c); [eauto | discriminate]. Qed.

Lemma not_digit_value c : is_digit c = false -> digit_value c = None.
Proof. unfold is_digit. destruct (digit_value c); [discriminate | auto]. Qed.
End Digits.

Lemma digitpart_more_run ds rest :
  Forall (fun d => is_digit d = true) ds -> stops rest ->
  exists vs, digitpart_more (ds ++ rest) = (vs, rest).
Proof.
  intros Hds Hrest. induction Hds as [| d ds Hd _ IH]; cbn [app].
  - destruct rest as [| c r]; [simpl; eauto |]. destruct Hrest as [Hc Hu].
    cbn [digitpart_more]. rewrite (not_digit_value _ Hc).
    destruct (N.eqb_spec c 0x5F); [done | eauto].
  - cbn [digitpart_more]. destruct IH as [vs ->].
    destruct (digit_has_value _ Hd) as [v ->]. eauto.
Qed.

Lemma digitpart_run d ds rest :
  is_digit d = true -> Forall (fun d => is_digit d = true) ds -> stops rest ->
  exists vs, digitpart ((d :: ds) ++ rest) = Some (vs, rest).
Proof.
  intros Hd Hds Hrest. cbn [app digitpart].
  destruct (digit_has_value _ Hd) as [v ->].
  destruct (digitpart_more_run ds rest Hds Hrest) as [vs ->]. eauto.
Qed.

Lemma floatnumber_token neg d1 ds fr :
  is_digit d1 = true -> Forall (fun d => is_digit d = true) ds ->
  (fr = []
   \/ exists d2 fs, fr = 0x2E%N :: d2 :: fs /\ is_digit d2 = true
                    /\ Forall (fun d => is_digit d = true) fs) ->
  is_Some (floatnumber neg ((d1 :: ds) ++ fr)).
Proof.
  intros Hd1 Hds Hfr. unfold floatnumber.
  destruct Hfr as [-> | (d2 & fs & -> & Hd2 & Hfs)].
  - destruct (digitpart_run d1 ds [] Hd1 Hds I) as [ip ->]. simpl. eauto.
  - destruct (digitpart_run d1 ds (0x2E%N :: d2 :: fs) Hd1 Hds) as [ip ->];
      [split; [reflexivity | discriminate] |].
    rewrite N.eqb_refl.
    pose proof (digitpart_run d2 fs [] Hd2 Hfs I) as [fp Hfp].
    rewrite app_nil_r in Hfp. rewrite Hfp. simpl. eauto.
Qed.

Lemma last_Forall {A} (P : A -> Prop) (l : list A) x :
  Forall P l -> list.last l = Some x -> P x.
Proof.
  intros H Hl. apply last_Some in Hl as [l' ->].
  apply Forall_app in H as [_ H]. by inversion H.
Qed.

Lemma trimmed_ends s :
  (forall c, head s = Some c -> is_space c = false) ->
  (forall c, list.last s = Some c -> is_space c = false) ->
  trimmed s.
Proof.
  intros Hh Hl. split.
  - apply lstrip_fixed. destruct s as [| c s]; [exact I |]. by apply Hh.
  - apply lstrip_fixed. destruct (rev s) as [| c r] eqn:E; [exact I |].
    apply Hl. rewrite <- (rev_involutive s), E. simpl.
    rewrite last_snoc. reflexivity.
Qed.

(** On a text of the numeric pattern [float] reads a decimal numeral, and
    finds one. *)
Lemma token_floatnumber g :
  matches NUM_RE g ->
  exists neg r, of_str g = floatnumber neg r /\ is_Some (floatnumber neg r).
Proof.
  intros Hg.
  destruct (num_token_shape _ Hg)
    as (sg & d1 & ds & fr & -> & Hsg & Hd1 & Hds & Hfr).
  remember ((d1 :: ds) ++ fr) as r eqn:Er.
  assert (Hlast : forall c, list.last r = Some c -> is_space c = false).
  { intros c Hc. apply digit_not_space. subst r.
    destruct Hfr as [-> | (d2 & fs & -> & Hd2 & Hfs)].
    - rewrite app_nil_r in Hc.
      apply (last_Forall (fun d => is_digit d = true) (d1 :: ds)); auto.
    - rewrite last_app in Hc. change (list.last (0x2E%N :: d2 :: fs))
        with (list.last (d2 :: fs)) in Hc.
      destruct (list.last (d2 :: fs)) as [y |] eqn:E;
        [| apply last_None in E; discriminate].
      inversion Hc; subst y.
      apply (last_Forall (fun d => is_digit d = true) (d2 :: fs)); auto. }
  assert (Hr : exists tl, r = d1 :: tl) by (subst r; simpl; eauto).
  destruct Hr as [tl Hr].
  assert (Htrim : strip (sg ++ r) = sg ++ r).
  { apply strip_trimmed_id, trimmed_ends.
    - intros c Hc. destruct Hsg as [-> | ->]; simpl in Hc.
      + rewrite Hr in Hc. inversion Hc; subst. by apply digit_not_space.
      + inversion Hc; subst. reflexivity.
    - intros c Hc. rewrite last_app in Hc.
      destruct (list.last r) as [y |] eqn:E; [inversion Hc; subst; auto |].
      rewrite Hr in E. apply last_None in E. discriminate. }
  unfold of_str. rewrite Htrim.
  assert (Hsign : exists neg, sign_of (sg ++ r) = (neg, r)).
  { destruct Hsg as [-> | ->]; cbn [app].
    - rewrite Hr. exists false. cbn [sign_of].
      pose proof (digit_range _ Hd1) as Hrange.
      destruct (N.eqb_spec d1 0x2D); [lia |].
      destruct (N.eqb_spec d1 0x2B); [lia | reflexivity].
    - exists true. cbn [sign_of]. rewrite N.eqb_refl. reflexivity. }
  destruct Hsign as [neg ->].
  assert (Hw : forall c w, is_digit c = false -> lower r <> c :: w).
  { intros c w Hc E. rewrite Hr in E. unfold lower in E.
    cbn [lower_from] in E. pose proof (digit_range _ Hd1) as Hrange.
    destruct (N.eqb_spec d1 0x3A3) as [-> | _]; [lia |].
    rewrite (digit_lower _ Hd1) in E. inversion E as [[E1 E2]].
    congruence. }
  rewrite !bool_decide_eq_false_2
    by (apply Hw; vm_compute; reflexivity).
  simpl. exists neg, r. split; [reflexivity |].
  subst r. by apply floatnumber_token.
Qed.

(** [float(g)] succeeds on every text [g] of the numeric pattern. *)
Lemma token_parses g : matches NUM_RE g -> is_Some (of_str g).
Proof.
  intros Hg. destruct (token_floatnumber g Hg) as (neg & r & -> & H).
  exact H.
Qed.

(** ** The numeric coercer on texts *)

(** C4: on a text, the numeric coercer trims it and writes the decimal
    commas as points; the first token of the pattern [-?\d+(\.\d+)?] in
    the result (leftmost, and the longest that starts there) is parsed by
    [float] and returned, and [num_coerced] grows by one exactly when the
    token is not the whole trimmed and normalized text; without a token
    the result is null, the counter is unchanged and nothing is raised.
    So "12.5 kg" gives 12.5 with a correction counted and "10,5" gives 10.5
    with none. *)
Theorem parse_num_text (s : pystr) (st : counters) :
  let t := replace 0x2C [0x2E%N] (strip s) in
  match re_search NUM_RE t with
  | Some g =>
      first_token NUM_RE t g
      /\ exists f,
           of_str g = Some f
           /\ parse_num (CStr s) st
              = Ret (CFloat f)
                    (if bool_decide (t <> g) then plus_num 1 st else st)
  | None =>
      (forall pre g post, t = pre ++ g ++ post -> ~ matches NUM_RE g)
      /\ parse_num (CStr s) st = Ret CNone st
  end
  /\ parse_num (CStr (py "12.5 kg")) st
     = Ret (CFloat (of_decimal false 125 (-1))) (plus_num 1 st)
  /\ parse_num (CStr (py "10,5")) st
     = Ret (CFloat (of_decimal false 105 (-1))) st.
Proof.
  cbv zeta. split; [| split; [vm_compute; reflexivity |]].
  2: { rewrite <- (plus_num_0 st) at 2. vm_compute. reflexivity. }
  unfold parse_num. cbn [isna py_str].
  case_bool_decide as Hs.
  - rewrite Hs. change (re_search NUM_RE (replace 0x2C [0x2E%N] [])) with
      (@None pystr).
    split; [| reflexivity].
    intros pre g post Ht Hg. symmetry in Ht.
    apply app_eq_nil in Ht as [_ Ht]. apply app_eq_nil in Ht as [-> _].
    apply num_token_shape in Hg as (sg & d1 & ds & fr & E & _).
    destruct sg; discriminate.
  - destruct (re_search NUM_RE (replace 0x2C [0x2E%N] (strip s)))
      as [g |] eqn:E.
    + pose proof (re_search_num_first _ _ E) as Hfirst.
      split; [exact Hfirst |].
      destruct Hfirst as (pre & post & _ & Hg & _).
      destruct (token_parses g Hg) as [f Hf]. exists f.
      split; [exact Hf |]. rewrite Hf.
      cbv [mbind M_bind mret M_ret add_num].
      case_bool_decide; [reflexivity | by rewrite plus_num_0].
    + split; [| reflexivity]. by apply re_search_none.
Qed.

(** * Properties of the coercers, the batch and the interface *)

(** ** The values of the coercers *)

Lemma div_core_nonneg p k q e l :
  SFdiv_core_binary prec emax (Zpos p) 0 (10 ^ k) 0 = (q, e, l) ->
  (0 <= k)%Z -> (0 <= q)%Z.
Proof.
  unfold SFdiv_core_binary. cbv zeta.
  set (s := (0 - 0 - _)%Z).
  set (m' := match s with 0%Z => Zpos p | Z.pos _ => Z.shiftl (Zpos p) s
                     | Z.neg _ => 0%Z end).
  assert (Hm : (0 <= m')%Z).
  { subst m'. destruct s; try lia. apply Z.shiftl_nonneg. lia. }
  intros H Hk.
  assert (Hd : (0 < 10 ^ k)%Z) by (apply Z.pow_pos_nonneg; lia).
  pose proof (Z.div_eucl_eq m' (10 ^ k) ltac:(lia)) as E.
  pose proof (Z.mod_pos_bound m' (10 ^ k) Hd) as B.
  unfold Z.modulo in B.
  change IntDef.Z.div_eucl with Z.div_eucl in H.
  destruct (Z.div_eucl m' (10 ^ k)) as [q' r'].
  inversion H; subst. nia.
Qed.

Lemma of_decimal_not_nan neg m e10 : is_nan (of_decimal neg m e10) = false.
Proof.
  unfold of_decimal. destruct m as [| p]; [reflexivity |].
  destruct (0 <=? e10)%Z eqn:E; [apply binary_round_not_nan |].
  destruct (SFdiv_core_binary _ _ _ _ _ _) as [[q e] l] eqn:D.
  apply binary_round_aux_not_nan.
  eapply div_core_nonneg; [exact D |]. apply Z.leb_gt in E. lia.
Qed.

Lemma floatnumber_not_nan neg s f :
  floatnumber neg s = Some f -> is_nan f = false.
Proof.
  unfold floatnumber. intros H.
  repeat (case_match; simplify_eq; try apply of_decimal_not_nan).
Qed.

Lemma token_not_nan g f :
  matches NUM_RE g -> of_str g = Some f -> is_nan f = false.
Proof.
  intros Hg Hf. destruct (token_floatnumber g Hg) as (neg & r & E & _).
  rewrite E in Hf. eapply floatnumber_not_nan, Hf.
Qed.

Lemma to_float_not_nan n f st st' :
  isna (CNum n) = false -> to_float n st = Ret f st' ->
  is_nan f = false /\ st' = st.
Proof.
  destruct n as [b | z | g]; simpl; intros Hna H.
  - inversion H; subst. by destruct b.
  - destruct (of_int z) as [f' |] eqn:E; [| discriminate].
    inversion H; subst. split; [| reflexivity].
    by destruct (of_int_finite _ _ E).
  - inversion H; subst. auto.
Qed.

Lemma to_float_raises n st e :
  to_float n st = Exc e -> exists z, n = NInt z /\ of_int z = None.
Proof.
  destruct n as [b | z | g]; simpl; try discriminate.
  destruct (of_int z) eqn:E; [discriminate |]. eauto.
Qed.

Lemma parse_num_value x st v st' :
  parse_num x st = Ret v st' -> coerced_value TNum v.
Proof.
  unfold parse_num. destruct (isna x) eqn:Hna.
  { intros H; inversion H. by left. }
  destruct x as [| n | s]; [discriminate | |].
  - cbv [mbind M_bind mret M_ret].
    destruct (to_float n st) as [f st1 |] eqn:E; [| discriminate].
    intros H; inversion H; subst. right. exists f.
    split; [reflexivity |]. by destruct (to_float_not_nan _ _ _ _ Hna E).
  - cbn [py_str]. case_bool_decide as Hs.
    { intros H; inversion H. by left. }
    destruct (re_search NUM_RE _) as [g |] eqn:Eg.
    2: { intros H; inversion H. by left. }
    cbv [mbind M_bind mret M_ret add_num].
    destruct (of_str g) as [f |] eqn:Ef; intros H; inversion H;
      [| by left].
    right. exists f. split; [reflexivity |].
    pose proof (re_search_num_first _ _ Eg) as (pre & post & _ & Hg & _).
    eapply token_not_nan; eauto.
Qed.

Lemma parse_num_fixed v st :
  coerced_value TNum v -> parse_num v st = Ret v st.
Proof.
  intros [-> | (f & -> & Hf)]; [reflexivity |].
  unfold parse_num; cbn [isna]. by rewrite Hf.
Qed.

Lemma parse_bool_value x st v st' :
  parse_bool x st = Ret v st' -> coerced_value TBool v.
Proof.
  assert (Hval : forall b : bool,
             coerced_value TBool (CInt (if b then 1 else 0)))
    by (intros []; simpl; auto).
  destruct x as [| n | s].
  - intros H; inversion H. by left.
  - unfold parse_bool. destruct (isna (CNum n)).
    { intros H; inversion H. by left. }
    cbv [mbind M_bind mret M_ret add_bool].
    destruct (to_float n _) as [f st1 |]; [| discriminate].
    intros H; inversion H. apply Hval.
  - rewrite parse_bool_text. cbv zeta.
    destruct (mem (lower (strip s)) TRUE_TOKENS).
    { intros H; inversion H. apply (Hval true). }
    destruct (mem (lower (strip s)) FALSE_TOKENS).
    { intros H; inversion H. apply (Hval false). }
    destruct (of_str _); intros H; inversion H; [apply Hval | by left].
Qed.

Lemma parse_bool_fixed v st :
  coerced_value TBool v -> parse_bool v st = Ret v st.
Proof.
  intros [-> | [-> | ->]]; [reflexivity | |];
    rewrite <- (plus_bool_0 st) at 2; reflexivity.
Qed.

(** X1: [parse_num] returns null or a float that is not NaN, adds at most
    one to [num_coerced] and leaves the other counters alone; given its own
    result it returns it again and counts nothing; it raises on an integer
    beyond the range of the floats and on nothing else. *)
Theorem parse_num_range (x : cell) (st : counters) :
  match parse_num x st with
  | Ret v st' =>
      coerced_value TNum v
      /\ (st' = st \/ st' = plus_num 1 st)
      /\ parse_num v st' = Ret v st'
  | Exc _ => exists z, x = CInt z /\ of_int z = None
  end.
Proof.
  destruct (parse_num x st) as [v st' | e] eqn:E.
  - pose proof (parse_num_value _ _ _ _ E) as Hv.
    split; [exact Hv |]. split; [| by apply parse_num_fixed].
    revert E. unfold parse_num. destruct (isna x) eqn:Hna.
    { intros H; inversion H. by left. }
    destruct x as [| n | s]; [discriminate | |].
    + cbv [mbind M_bind mret M_ret].
      destruct (to_float n st) as [f st1 |] eqn:E; [| discriminate].
      destruct (to_float_not_nan _ _ _ _ Hna E) as [_ ->].
      intros H; inversion H. by left.
    + cbn [py_str]. case_bool_decide as Hs.
      { intros H; inversion H. by left. }
      destruct (re_search NUM_RE _) as [g |].
      2: { intros H; inversion H. by left. }
      cbv [mbind M_bind mret M_ret add_num].
      intros H.
      assert (st' = plus_num (if bool_decide
                                   (replace 0x2C [0x2E%N] (strip s) <> g)
                              then 1 else 0) st) as ->
        by (destruct (of_str g); inversion H; reflexivity).
      case_bool_decide; [by right | left; apply plus_num_0].
  - revert E. unfold parse_num. destruct (isna x); [discriminate |].
    destruct x as [| n | s]; [discriminate | |].
    + cbv [mbind M_bind mret M_ret].
      destruct (to_float n st) as [f st1 |] eqn:E; [discriminate |].
      destruct (to_float_raises _ _ _ E) as (z & -> & Hz). eauto.
    + cbn [py_str]. cbv [mbind M_bind mret M_ret add_num].
      repeat case_match; discriminate.
Qed.

(** X2: [parse_bool] returns null, 0 or 1, adds at most one to
    [bool_coerced] and leaves the other counters alone; given its own
    result it returns it again and counts nothing; it raises on an integer
    beyond the range of the floats and on nothing else. *)
Theorem parse_bool_range (x : cell) (st : counters) :
  match parse_bool x st with
  | Ret v st' =>
      coerced_value TBool v
      /\ (st' = st \/ st' = plus_bool 1 st)
      /\ parse_bool v st' = Ret v st'
  | Exc _ => exists z, x = CInt z /\ of_int z = None
  end.
Proof.
  assert (Hst : forall (b : bool) (st1 : counters),
             st1 = plus_bool (if b then 0 else 1) st ->
             st1 = st \/ st1 = plus_bool 1 st).
  { intros b st1 ->. destruct b; [left; apply plus_bool_0 | by right]. }
  destruct (parse_bool x st) as [v st' | e] eqn:E.
  - pose proof (parse_bool_value _ _ _ _ E) as Hv.
    split; [exact Hv |]. split; [| by apply parse_bool_fixed].
    revert E. destruct x as [| n | s].
    + intros H; inversion H. by left.
    + unfold parse_bool. destruct (isna (CNum n)) eqn:Hna.
      { intros H; inversion H. by left. }
      cbv [mbind M_bind mret M_ret add_bool].
      destruct (to_float n _) as [f st1 |] eqn:E; [| discriminate].
      destruct (to_float_not_nan _ _ _ _ Hna E) as [_ ->].
      intros H; inversion H. eapply Hst; reflexivity.
    + rewrite parse_bool_text. cbv zeta.
      destruct (mem (lower (strip s)) TRUE_TOKENS).
      { destruct (mem _ [py "1"; py "true"]); intros H; inversion H;
          [by left | by right]. }
      destruct (mem (lower (strip s)) FALSE_TOKENS).
      { destruct (mem _ [py "0"; py "false"]); intros H; inversion H;
          [by left | by right]. }
      destruct (of_str _); intros H; inversion H; [by right | by left].
  - revert E. destruct x as [| n | s]; [discriminate | |].
    + unfold parse_bool. destruct (isna (CNum n)); [discriminate |].
      cbv [mbind M_bind mret M_ret add_bool].
      destruct (to_float n _) as [f st1 |] eqn:E; [discriminate |].
      destruct (to_float_raises _ _ _ E) as (z & -> & Hz). eauto.
    + rewrite parse_bool_text. cbv zeta. repeat case_match; discriminate.
Qed.

Lemma canonical_unit_shape v :
  v ∈ CANONICAL_UNITS -> v <> [] /\ trimmed v /\ upper v = v.
Proof.
  unfold CANONICAL_UNITS. intros H.
  repeat (apply elem_of_cons in H as [-> | H];
          [split; [discriminate | split; [split |]]; vm_compute; reflexivity
          |]).
  by apply elem_of_nil in H.
Qed.

Lemma normalize_unit_name_value x st v st' :
  normalize_unit_name x st = Ret v st' -> coerced_value TUnit v.
Proof.
  unfold normalize_unit_name. destruct (isna x).
  { intros H; inversion H. by left. }
  case_bool_decide as Hs.
  { intros H; inversion H. by left. }
  destruct (re_fullmatch UNIT_NUM_RE _).
  { cbv [mbind M_bind mret M_ret add_unit]. intros H; inversion H. by left. }
  cbv zeta.
  set (key := replace 0x20 [] (replace 0x2E [] (upper (strip (py_str x))))).
  set (canon := default (upper (strip (py_str x)))
                        (UNIT_NORMALIZATION !! key)).
  assert (Hc : coerced_value TUnit (CStr canon)).
  { right. exists canon. split; [reflexivity |]. subst canon.
    destruct (UNIT_NORMALIZATION !! key) as [w |] eqn:E; simpl.
    - apply canonical_unit_shape. eapply table_values, E.
    - split; [intros H; by apply upper_nil in H |].
      split; [apply upper_trimmed, strip_is_trimmed | apply upper_idem]. }
  clearbody canon. cbv [mbind M_bind mret M_ret add_unit].
  case_bool_decide as Hne; intros Heq; inversion Heq; subst; exact Hc.
Qed.

(** X3: [normalize_unit_name] never raises; it returns null or a text that
    is not empty, is trimmed and is its own upper case, and adds at most
    one to [unit_normalized], leaving the other counters alone. *)
Theorem normalize_unit_name_range (x : cell) (st : counters) :
  exists v st',
    normalize_unit_name x st = Ret v st'
    /\ coerced_value TUnit v
    /\ (st' = st \/ st' = plus_unit 1 st).
Proof.
  assert (H : exists v st', normalize_unit_name x st = Ret v st'
                            /\ (st' = st \/ st' = plus_unit 1 st)).
  { unfold normalize_unit_name. destruct (isna x); [by eauto |].
    case_bool_decide as Hs; [by eauto |].
    destruct (re_fullmatch UNIT_NUM_RE _).
    { cbv [mbind M_bind mret M_ret add_unit]. eauto. }
    cbv zeta.
    generalize (default (upper (strip (py_str x)))
                  (UNIT_NORMALIZATION
                   !! replace 0x20 []
                        (replace 0x2E [] (upper (strip (py_str x)))))).
    intros canon. cbv [mbind M_bind mret M_ret add_unit].
    case_bool_decide as Hne; eauto. }
  destruct H as (v & st' & E & Hst). exists v, st'.
  split; [exact E |]. split; [eapply normalize_unit_name_value, E | exact Hst].
Qed.

Lemma clean_text_value x st v st' :
  clean_text x st = Ret v st' -> coerced_value TStr v.
Proof.
  unfold clean_text.
  destruct (isna x); simpl; [intros H; inversion H; by left |].
  case_bool_decide as Hs; intros H; inversion H; [by left |].
  right. eexists. split; [reflexivity |].
  split; [exact Hs | apply strip_is_trimmed].
Qed.

Lemma clean_text_fixed v st :
  coerced_value TStr v -> clean_text v st = Ret v st.
Proof.
  intros [-> | (s & -> & Hs & Ht)]; [reflexivity |].
  unfold clean_text; cbn [isna py_str orb].
  rewrite (strip_trimmed_id _ Ht).
  by rewrite bool_decide_eq_false_2.
Qed.

(** X4: the coercer of the text columns never raises and counts nothing; it
    returns null for a missing value and for a blank text, else the text of
    the value, trimmed; given its own result it returns it again. *)
Theorem clean_text_range (x : cell) (st : counters) :
  exists v,
    clean_text x st = Ret v st
    /\ coerced_value TStr v
    /\ (v = CNone <-> isna x = true \/ strip (py_str x) = [])
    /\ (v <> CNone -> v = CStr (strip (py_str x)))
    /\ clean_text v st = Ret v st.
Proof.
  destruct (clean_text x st) as [v st' | e] eqn:E.
  2: { revert E. unfold clean_text. repeat case_match; discriminate. }
  pose proof (clean_text_value _ _ _ _ E) as Hv.
  assert (st' = st) as ->.
  { revert E. unfold clean_text.
    by repeat case_match; intros Heq; inversion Heq. }
  exists v. split; [reflexivity |]. split; [exact Hv |].
  split; [| split; [| by apply clean_text_fixed]].
  - revert E. unfold clean_text. destruct (isna x); simpl.
    { intros H; inversion H. split; auto. }
    case_bool_decide as Hs; intros H; inversion H; split; auto;
      try discriminate.
    intros [? | ?]; done.
  - revert E. unfold clean_text. destruct (isna x); simpl.
    { intros H; inversion H. done. }
    case_bool_decide as Hs; intros H; inversion H; done.
Qed.

Lemma coercer_value t x st v st' :
  coercer t x st = Ret v st' -> coerced_value t v.
Proof.
  destruct t; simpl.
  - apply clean_text_value.
  - apply parse_num_value.
  - apply parse_bool_value.
  - apply normalize_unit_name_value.
Qed.

(** ** Statement parameters *)

Lemma to_py_mysql_sql_value v : sql_value (_to_py_mysql v).
Proof.
  destruct v as [| [b | z | f] | s]; simpl; auto.
  - destruct (is_nan f) eqn:Hn, (is_inf f) eqn:Hi; simpl; auto.
  - case_bool_decide as Hs; simpl; [exact I |].
    split; [exact Hs | apply strip_is_trimmed].
Qed.

(** X5: [_to_py_mysql] returns a value the driver can bind, never NaN, an
    infinity, a boolean or a blank text; it returns null exactly on null,
    NaN, the infinities and the blank texts; applied to its own result it
    changes nothing. *)
Theorem to_py_mysql_value (v : cell) :
  sql_value (_to_py_mysql v)
  /\ (_to_py_mysql v = CNone
      <-> v = CNone
          \/ (exists f, v = CFloat f /\ (is_nan f = true \/ is_inf f = true))
          \/ exists s, v = CStr s /\ strip s = [])
  /\ _to_py_mysql (_to_py_mysql v) = _to_py_mysql v.
Proof.
  split; [apply to_py_mysql_sql_value |]. split.
  - destruct v as [| [b | z | f] | s]; simpl.
    + split; auto.
    + split; [discriminate |].
      intros [H | [(f & H & _) | (s & H & _)]]; discriminate.
    + split; [discriminate |].
      intros [H | [(f & H & _) | (s & H & _)]]; discriminate.
    + destruct (is_nan f) eqn:Hn, (is_inf f) eqn:Hi; simpl;
        (split; [try discriminate; intros _; right; left; exists f; auto |]);
        try reflexivity.
      intros [H | [(g & H & Hg) | (s & H & _)]]; try discriminate.
      inversion H; subst g. destruct Hg; congruence.
    + case_bool_decide as Hs.
      * split; [intros _; right; right; eauto | reflexivity].
      * split; [discriminate |].
        intros [H | [(f & H & _) | (s' & H & Hs')]]; try discriminate.
        inversion H; subst s'. done.
  - destruct v as [| [b | z | f] | s]; simpl; try reflexivity.
    + destruct (is_nan f) eqn:Hn, (is_inf f) eqn:Hi; simpl; try reflexivity.
      by rewrite Hn, Hi.
    + case_bool_decide as Hs; simpl; [reflexivity |].
      rewrite (strip_trimmed_id _ (strip_is_trimmed s)).
      by rewrite bool_decide_eq_false_2.
Qed.

(** ** The frames of the upload, column by column *)

Lemma assoc_None_iff {A} c (l : list (pystr * A)) :
  assoc c l = None <-> c ∉ map fst l.
Proof.
  split; [apply assoc_None_notin |].
  induction l as [| [k v] l IH]; simpl; [reflexivity |]. intros H.
  rewrite bool_decide_eq_false_2.
  - apply IH. intros Hc. apply H, elem_of_cons. by right.
  - intros ->. apply H, elem_of_cons. by left.
Qed.

Lemma mapM_values {A B} (f : A -> M B) (l : list A) :
  forall st v st',
    mapM f l st = Ret v st' ->
    Forall2 (fun x y => exists s s', f x s = Ret y s') l v.
Proof.
  induction l as [| x l IH]; intros st v st' H; simpl in H.
  - inversion H. constructor.
  - cbv [mbind M_bind mret M_ret] in H.
    destruct (f x st) as [y st1 |] eqn:E; [| discriminate].
    destruct (mapM f l st1) as [k st2 |] eqn:E2; [| discriminate].
    inversion H; subst. constructor; [eauto | eapply IH, E2].
Qed.

Lemma mapM_coerced t l st v st' :
  mapM (coercer t) l st = Ret v st' ->
  length v = length l /\ Forall (coerced_value t) v.
Proof.
  intros H. apply mapM_values in H.
  induction H as [| x y l v (s & s' & Hxy) _ [IH1 IH2]];
    [split; [reflexivity | constructor] |].
  split; [simpl; by rewrite IH1 |].
  constructor; [eapply coercer_value, Hxy | exact IH2].
Qed.

(** The loop of the coercers leaves in a column of the registry the values
    of its coercer, under the dtype found for them. *)
Lemma coerce_columns_typed am :
  NoDup (map fst am) ->
  forall df st df' st',
    coerce_columns am df st = Ret df' st' ->
    forall c dbcol t,
      (c, (dbcol, t)) ∈ am -> c ∈ columns df ->
      exists v, Forall (coerced_value t) v
                /\ col c df' = maybe_convert_objects v.
Proof.
  induction am as [| [c0 [d0 t0]] am IH]; intros Hnd df st df' st' H c dbcol t
    Hin Hc; [by apply elem_of_nil in Hin |].
  simpl in Hnd. inversion Hnd as [| ? ? Hc0 Hnd']; subst.
  simpl in H. apply elem_of_cons in Hin as [Heq | Hin].
  - inversion Heq; subst c0 d0 t0.
    rewrite bool_decide_eq_true_2 in H by exact Hc.
    cbv [mbind M_bind] in H.
    destruct (mapM (coercer t) (col c df) st) as [v st1 |] eqn:E;
      [| discriminate].
    rewrite (coerce_columns_col am c)
      with (df := set_col c (maybe_convert_objects v) df)
           (st := st1) (st' := st');
      [| by apply assoc_None_iff | exact H].
    rewrite col_set_col by exact Hc.
    exists v. split; [by apply mapM_coerced in E as [_ E] | reflexivity].
  - case_bool_decide as Hc0'.
    + cbv [mbind M_bind] in H.
      destruct (mapM (coercer t0) (col c0 df) st) as [v st1 |]; [| discriminate].
      eapply (IH Hnd' _ _ _ _ H); [exact Hin |].
      by rewrite columns_set_col.
    + eapply (IH Hnd' _ _ _ _ H); eauto.
Qed.

Lemma col_select_rows c mask df :
  col c (select_rows mask df) = keep_rows mask (col c df).
Proof.
  unfold col, select_rows. rewrite assoc_map_snd.
  destruct (assoc c df); simpl; [reflexivity |]. by destruct mask.
Qed.

Lemma Forall_keep_rows {A} (P : A -> Prop) (mask : list bool) :
  forall l, Forall P l -> Forall P (keep_rows mask l).
Proof.
  induction mask as [| b mask IH]; intros l H; [constructor |].
  destruct H as [| x l Hx Hl]; simpl; [constructor |].
  destruct b; [constructor |]; auto.
Qed.

Lemma well_formed_select_rows mask df :
  well_formed df -> df <> [] -> length mask = nrows df ->
  well_formed (select_rows mask df).
Proof.
  intros [Hnd Hr] Hne Hm. split.
  - by rewrite columns_select_rows.
  - pose proof (rect_select_rows mask _ df Hr Hm) as Hrs.
    rewrite (nrows_rect _ _ Hrs); [exact Hrs |].
    unfold select_rows. destruct df; [done | discriminate].
Qed.

Lemma well_formed_filtered df key_col :
  well_formed df -> key_col ∈ columns df -> kept key_col = true ->
  well_formed (fst (filtered df key_col)).
Proof.
  intros Hwf Hkey Hkept.
  destruct (keyed_rowwise df key_col Hwf Hkey Hkept) as (_ & Hwf' & Hkey').
  unfold filtered; simpl.
  destruct (length _); [exact Hwf' |].
  apply well_formed_select_rows;
    [exact Hwf' | eapply columns_nonempty, Hkey' |].
  destruct Hwf' as [Hnd Hr].
  rewrite length_map, (mask_template_rowwise _ _ _ Hnd Hr eq_refl).
  rewrite length_map. apply length_records.
Qed.

Lemma keyed_key_cells df key_col :
  key_col ∈ columns df -> kept key_col = true ->
  Forall key_text (col key_col (keyed df key_col)).
Proof.
  intros Hkey Hkept. unfold keyed; cbv zeta.
  rewrite col_select_rows.
  rewrite col_set_col by (by apply key_in_df1).
  change (fun x : cell => CStr (strip (py_str x))) with to_key.
  change (fun x : cell => negb (isna x) && negb (bool_decide (py_str x = [])))
    with key_ok.
  rewrite keep_rows_map.
  apply Forall_forall. intros x Hx. apply filter_In in Hx as [Hx Hok].
  apply in_map_iff in Hx as (y & <- & _).
  exists (strip (py_str y)). split; [reflexivity |].
  split; [| apply strip_is_trimmed].
  unfold key_ok, to_key in Hok; cbn [isna py_str negb andb] in Hok.
  apply negb_true_iff, bool_decide_eq_false_1 in Hok. exact Hok.
Qed.

Lemma filtered_key_cells df key_col :
  key_col ∈ columns df -> kept key_col = true ->
  Forall key_text (col key_col (fst (filtered df key_col))).
Proof.
  intros Hkey Hkept. unfold filtered; simpl.
  destruct (length _).
  - by apply keyed_key_cells.
  - rewrite col_select_rows. by apply Forall_keep_rows, keyed_key_cells.
Qed.

Lemma coerce_columns_rect am n :
  forall df st df' st',
    rect n df -> coerce_columns am df st = Ret df' st' -> rect n df'.
Proof.
  induction am as [| [c [dbcol t]] am IH]; intros df st df' st' Hr H;
    simpl in H.
  - by inversion H; subst.
  - case_bool_decide as Hc; [| eapply IH; eauto].
    cbv [mbind M_bind] in H.
    destruct (mapM (coercer t) (col c df) st) as [v st1 |] eqn:E;
      [| discriminate].
    eapply IH; [| exact H]. apply rect_set_col; [exact Hr |].
    rewrite length_maybe_convert_objects.
    apply mapM_coerced in E as [-> _]. by apply col_length.
Qed.

(** The cleaned frame is a frame of the same shape as the one the filters
    leave. *)
Lemma clean_well_formed df key_col clean_df rep :
  well_formed df -> key_col ∈ columns df -> kept key_col = true ->
  _clean_autocorrect df key_col = inr (clean_df, rep) ->
  well_formed clean_df
  /\ nrows clean_df = nrows (fst (filtered df key_col))
  /\ key_col ∈ columns clean_df.
Proof.
  intros Hwf Hkey Hkept H.
  pose proof (clean_columns _ _ _ _ H) as Hcols.
  pose proof (well_formed_filtered df key_col Hwf Hkey Hkept) as [Hnd Hr].
  pose proof (columns_filtered df key_col) as Hcf.
  assert (Hk : key_col ∈ columns clean_df)
    by (rewrite Hcols; by apply elem_of_filter_list_2).
  unfold _clean_autocorrect in H.
  destruct (filtered df key_col) as [df1 dropped]; cbn [fst snd] in *.
  destruct (coerce_columns ALLOWED_MAP df1 st0) as [df2 st |] eqn:E;
    [| discriminate].
  inversion H; subst df2 rep.
  pose proof (coerce_columns_rect _ _ _ _ _ _ Hr E) as Hr'.
  assert (Hn : nrows clean_df = nrows df1)
    by (apply nrows_rect; [exact Hr' | eapply columns_nonempty, Hk]).
  split; [split |]; [by rewrite Hcols, <- Hcf | by rewrite Hn | auto].
Qed.

(** ** The batch of an upload *)

Lemma col_notin c (df : DataFrame) : c ∉ columns df -> col c df = [].
Proof.
  intros H. unfold col. by rewrite (proj2 (assoc_None_iff c df) H).
Qed.

Lemma col_unit_step d c c0 df :
  col c (if bool_decide (c0 ∈ columns df)
         then set_col c0 (maybe_convert_objects
                            (map (to_unit_id d) (col c0 df))) df
         else df)
  = if bool_decide (c = c0)
    then maybe_convert_objects (map (to_unit_id d) (col c df))
    else col c df.
Proof.
  case_bool_decide as Hin; case_bool_decide as Hc; subst.
  - by apply col_set_col.
  - by apply col_set_col_ne.
  - by rewrite col_notin.
  - reflexivity.
Qed.

Lemma columns_unit_step d c0 df :
  columns (if bool_decide (c0 ∈ columns df)
           then set_col c0 (maybe_convert_objects
                              (map (to_unit_id d) (col c0 df))) df
           else df)
  = columns df.
Proof. case_bool_decide; [apply columns_set_col | reflexivity]. Qed.

Lemma rect_unit_step d n c0 df :
  rect n df ->
  rect n (if bool_decide (c0 ∈ columns df)
          then set_col c0 (maybe_convert_objects
                             (map (to_unit_id d) (col c0 df))) df
          else df).
Proof.
  intros Hr. case_bool_decide as Hin; [| exact Hr].
  apply rect_set_col; [exact Hr |].
  rewrite length_maybe_convert_objects, length_map. by apply col_length.
Qed.

Lemma col_resolve_units d c df :
  col c (resolve_units d df)
  = if bool_decide (c ∈ [py "unidad_compra"; py "unidad_venta"])
    then maybe_convert_objects (map (to_unit_id d) (col c df))
    else col c df.
Proof.
  unfold resolve_units. cbn [fold_left].
  rewrite col_unit_step, col_unit_step.
  case_bool_decide as H1; case_bool_decide as H2; case_bool_decide as H3;
    try reflexivity; subst; try discriminate.
  - exfalso. apply H3. apply elem_of_cons. right. apply list_elem_of_here.
  - exfalso. apply H3. apply list_elem_of_here.
  - exfalso. apply elem_of_cons in H3 as [? | H3]; [done |].
    apply elem_of_cons in H3 as [? | H3]; [done |].
    by apply elem_of_nil in H3.
Qed.

Lemma rect_resolve_units d n df : rect n df -> rect n (resolve_units d df).
Proof.
  intros Hr. unfold resolve_units. cbn [fold_left].
  by apply rect_unit_step, rect_unit_step.
Qed.

(** Every identifier of the index is that of a row of the catalogue, under
    a key of that row that is not empty. *)
Lemma unit_index_sound rows k u :
  unit_index rows !! k = Some u ->
  exists r, r ∈ rows /\ uni_id r = u /\ k <> []
            /\ (key_nombre r = Some k \/ key_abrev r = Some k).
Proof.
  unfold unit_index.
  assert (H : forall d0 : gmap pystr Z,
             fold_left
               (fun (d : gmap pystr Z) (r : lookup_row) =>
                  let d := if truthy (key_nombre r)
                           then <[default [] (key_nombre r) := uni_id r]> d
                           else d in
                  if truthy (key_abrev r)
                  then <[default [] (key_abrev r) := uni_id r]> d else d)
               rows d0 !! k = Some u ->
             d0 !! k = Some u
             \/ exists r, r ∈ rows /\ uni_id r = u /\ k <> []
                          /\ (key_nombre r = Some k \/ key_abrev r = Some k)).
  { induction rows as [| r rows IH]; intros d0 H; simpl in H; [by left |].
    apply IH in H as [H | (r' & Hr' & H)].
    2: { right. exists r'. split; [apply elem_of_cons; by right | exact H]. }
    assert (Hins : forall (o : option pystr) (d : gmap pystr Z),
               (if truthy o then <[default [] o := uni_id r]> d else d) !! k
               = Some u ->
               d !! k = Some u \/ (uni_id r = u /\ k <> [] /\ o = Some k)).
    { intros o d Hl. destruct o as [[| c s] |]; simpl in Hl; auto.
      destruct (decide (c :: s = k)) as [<- | Hne].
      - rewrite lookup_insert_eq in Hl. inversion Hl. right. done.
      - rewrite lookup_insert_ne in Hl by done. by left. }
    apply Hins in H as [H | (H1 & H2 & H3)].
    - apply Hins in H as [H | (H1 & H2 & H3)]; [by left |].
      right. exists r. split; [apply list_elem_of_here | auto].
    - right. exists r. split; [apply list_elem_of_here | auto]. }
  intros Hl. apply H in Hl as [Hl | Hl]; [| exact Hl].
  by rewrite lookup_empty in Hl.
Qed.

Lemma to_unit_id_value db x :
  to_unit_id (unit_index (unidad db)) x = CNone
  \/ exists r, r ∈ unidad db
               /\ to_unit_id (unit_index (unidad db)) x = CInt (uni_id r).
Proof.
  unfold to_unit_id. destruct (isna x || _); [by left |]. cbv zeta.
  destruct (unit_index (unidad db) !! _) as [u |] eqn:E; [| by left].
  apply unit_index_sound in E as (r & Hr & <- & _). right. eauto.
Qed.

Lemma param_params_of_record rec c :
  param (params_of_record rec) c = _to_py_mysql (param rec c).
Proof.
  unfold param, params_of_record. rewrite assoc_map_snd.
  by destruct (assoc c rec).
Qed.

Lemma in_records_param n c df rec :
  length (col c df) = n -> rec ∈ records n df -> param rec c ∈ col c df.
Proof.
  intros Hl Hrec. rewrite <- (records_col n c df Hl).
  apply list_elem_of_In, (in_map (fun r => param r c)).
  by apply list_elem_of_In.
Qed.

Lemma columns_select_cols names df : columns (select_cols names df) = names.
Proof.
  unfold columns, select_cols. rewrite map_map. simpl. apply map_id.
Qed.

Lemma col_select_cols names df c :
  c ∈ names -> col c (select_cols names df) = col c df.
Proof.
  unfold col at 1, select_cols.
  induction names as [| k names IH]; intros H; [by apply elem_of_nil in H |].
  simpl. case_bool_decide as Hk; [by subst |].
  apply IH. apply elem_of_cons in H as [-> | H]; done.
Qed.

Lemma rect_select_cols n names df :
  (forall c, c ∈ names -> length (col c df) = n) ->
  rect n (select_cols names df).
Proof.
  intros H. unfold rect, select_cols. apply Forall_map, Forall_forall.
  intros c Hc. simpl. apply H. by apply list_elem_of_In.
Qed.

Section Batch.
Variables (clean_df : DataFrame) (key_col : pystr) (db : database).
Hypothesis Hwf : well_formed clean_df.
Hypothesis Hkey : key_col ∈ columns clean_df.

Let R := resolved clean_df db.
Let present := batch_cols clean_df db ++ [key_col].
Let n := nrows clean_df.

Lemma rect_resolved : rect n R.
Proof. apply rect_resolve_units, Hwf. Qed.

Lemma columns_resolved : columns R = columns clean_df.
Proof. apply columns_resolve_units. Qed.

Lemma present_columns c : c ∈ present -> c ∈ columns R.
Proof.
  unfold present, batch_cols, update_cols_of. fold R. intros H.
  apply elem_of_app in H as [H | H].
  - by apply elem_of_filter_list in H as [H _].
  - apply list_elem_of_singleton in H as ->. by rewrite columns_resolved.
Qed.

Lemma present_length c : c ∈ present -> length (col c R) = n.
Proof.
  intros H. apply col_length; [apply rect_resolved | by apply present_columns].
Qed.

(** The records of the batch have the names of [present], and the value
    for such a name comes from the column of that name. *)
Lemma batch_record rec :
  rec ∈ batch_rows clean_df key_col db ->
  map fst rec = present
  /\ forall c, c ∈ present ->
       exists x, x ∈ col c R
                 /\ param rec c = _to_py_mysql (notnull_or_none x).
Proof.
  unfold batch_rows, df_to_mysql_params. fold R present.
  set (sel := select_cols present R).
  set (obj := map (fun p => (fst p, map notnull_or_none (snd p))) sel).
  assert (Hcols : columns obj = present).
  { subst obj sel. unfold columns. rewrite map_map. simpl.
    apply columns_select_cols. }
  assert (Hcol : forall c, c ∈ present ->
                   col c obj = map notnull_or_none (col c R)).
  { intros c Hc. subst obj. unfold col at 1. rewrite assoc_map_snd.
    fold (col c sel). subst sel.
    pose proof (col_select_cols present R c Hc) as E. unfold col in E at 1.
    destruct (assoc c (select_cols present R)) as [v |]; simpl in *;
      by rewrite <- E. }
  assert (Hn : nrows obj = n).
  { assert (Hk : key_col ∈ present)
      by (apply elem_of_app; right; apply list_elem_of_here).
    assert (Hr : rect n obj).
    { subst obj. unfold rect. apply Forall_map.
      pose proof (rect_select_cols n present R present_length) as Hs.
      fold sel in Hs. unfold rect in Hs. eapply Forall_impl; [| exact Hs].
      intros p Hp. simpl. by rewrite length_map. }
    apply nrows_rect; [exact Hr |].
    apply (columns_nonempty key_col). by rewrite Hcols. }
  intros Hrec. apply list_elem_of_In, in_map_iff in Hrec as (rec0 & <- & H0).
  apply list_elem_of_In in H0. unfold to_records in H0. rewrite Hn in H0.
  split.
  - unfold params_of_record. rewrite map_map. simpl.
    change (map (fun x : pystr * cell => x.1) rec0) with (map fst rec0).
    by rewrite (records_keys _ _ _ H0).
  - intros c Hc. rewrite param_params_of_record.
    assert (Hl : length (col c obj) = n)
      by (rewrite (Hcol c Hc), length_map; by apply present_length).
    pose proof (in_records_param n c obj rec0 Hl H0) as Hin.
    rewrite (Hcol c Hc) in Hin.
    apply list_elem_of_In, in_map_iff in Hin as (x & <- & Hx).
    exists x. split; [by apply list_elem_of_In | reflexivity].
Qed.

Lemma batch_length : length (batch_rows clean_df key_col db) = n.
Proof.
  unfold batch_rows, df_to_mysql_params. fold R present.
  rewrite length_map. unfold to_records. rewrite length_records.
  set (sel := select_cols present R).
  assert (Hk : key_col ∈ present)
    by (apply elem_of_app; right; apply list_elem_of_here).
  apply nrows_rect.
  - unfold rect. apply Forall_map.
    pose proof (rect_select_cols n present R present_length) as Hs.
    fold sel in Hs. unfold rect in Hs. eapply Forall_impl; [| exact Hs].
    intros p Hp. simpl. by rewrite length_map.
  - apply (columns_nonempty key_col). unfold columns. rewrite map_map. simpl.
    fold (columns sel). subst sel. by rewrite columns_select_cols.
Qed.
End Batch.

Lemma allowed_in_allowed c dbcol t :
  assoc c ALLOWED_MAP = Some (dbcol, t) -> in_allowed c = true.
Proof. unfold in_allowed. by intros ->. Qed.

(** The columns of type ['unit'] are the two the upload resolves. *)
Lemma allowed_unit c dbcol t :
  assoc c ALLOWED_MAP = Some (dbcol, t) ->
  bool_decide (c ∈ [py "unidad_compra"; py "unidad_venta"])
  = match t with TUnit => true | _ => false end.
Proof.
  intros H. pose proof (in_allowed_keys c (allowed_in_allowed _ _ _ H)) as Hc.
  unfold allowed_keys in Hc. simpl in Hc.
  repeat (apply elem_of_cons in Hc as [-> | Hc];
          [vm_compute in H; inversion H; subst; vm_compute; reflexivity |]).
  by apply elem_of_nil in Hc.
Qed.

Lemma key_not_unit key_col :
  key_col = ID \/ key_col = CLAVE ->
  bool_decide (key_col ∈ [py "unidad_compra"; py "unidad_venta"]) = false.
Proof. intros [-> | ->]; vm_compute; reflexivity. Qed.

Lemma key_not_allowed key_col :
  key_col = ID \/ key_col = CLAVE -> in_allowed key_col = false.
Proof. intros [-> | ->]; reflexivity. Qed.

Lemma NoDup_ALLOWED_MAP : NoDup (map fst ALLOWED_MAP).
Proof. apply NoDup_by_decide. vm_compute. reflexivity. Qed.

(** The cleaned frame holds in every column of the registry the values of
    the coercer of its type, under the dtype found for them. *)
Lemma clean_typed df key_col clean_df rep c dbcol t :
  _clean_autocorrect df key_col = inr (clean_df, rep) ->
  assoc c ALLOWED_MAP = Some (dbcol, t) ->
  exists v, Forall (coerced_value t) v
            /\ col c clean_df = maybe_convert_objects v.
Proof.
  intros H Ha.
  destruct (decide (c ∈ columns clean_df)) as [Hc | Hc];
    [| rewrite col_notin by exact Hc; exists []; split;
       [constructor | reflexivity]].
  pose proof (clean_columns _ _ _ _ H) as Hcols.
  pose proof (columns_filtered df key_col) as Hcf.
  unfold _clean_autocorrect in H.
  destruct (filtered df key_col) as [df1 dropped]; cbn [fst] in Hcf.
  destruct (coerce_columns ALLOWED_MAP df1 st0) as [df2 st |] eqn:E;
    [| discriminate].
  inversion H; subst df2 rep.
  eapply (coerce_columns_typed ALLOWED_MAP NoDup_ALLOWED_MAP _ _ _ _ E).
  - apply assoc_Some_in, Ha.
  - by rewrite Hcf, <- Hcols.
Qed.

Lemma coerced_param_value db t v x :
  t <> TUnit -> Forall (coerced_value t) v -> x ∈ maybe_convert_objects v ->
  param_value db t (_to_py_mysql (notnull_or_none x)).
Proof.
  intros Ht Hv Hx.
  apply maybe_convert_objects_elem in Hx as (y & Hy & Hx).
  rewrite Forall_forall in Hv. apply list_elem_of_In, Hv in Hy.
  assert (Hnone : forall u, u = CNone \/ u = to_float64 CNone ->
                    param_value db t (_to_py_mysql (notnull_or_none u)))
    by (intros u [-> | ->]; destruct t; by left).
  destruct t; [| | | done]; simpl in Hy.
  - destruct Hy as [-> | (s & -> & Hs & Htr)]; [by apply Hnone |].
    assert (x = CStr s) as -> by (by destruct Hx).
    right. exists s. cbn [notnull_or_none isna _to_py_mysql].
    rewrite (strip_trimmed_id _ Htr).
    by rewrite bool_decide_eq_false_2.
  - destruct Hy as [-> | (f & -> & Hf)]; [by apply Hnone |].
    assert (x = CFloat f) as -> by (by destruct Hx).
    unfold notnull_or_none; cbn [isna]. rewrite Hf. cbn [_to_py_mysql].
    rewrite Hf. simpl. destruct (is_inf f) eqn:Hi; [by left |].
    right. eauto.
  - destruct Hy as [-> | [-> | ->]]; [by apply Hnone | |];
      destruct Hx as [-> | ->]; simpl.
    + right; left; reflexivity.
    + right; right; right; left. vm_compute. reflexivity.
    + right; right; left; reflexivity.
    + right; right; right; right. vm_compute. reflexivity.
Qed.

Lemma unit_param_value db v x :
  x ∈ maybe_convert_objects (map (to_unit_id (unit_index (unidad db))) v) ->
  param_value db TUnit (_to_py_mysql (notnull_or_none x)).
Proof.
  intros Hx. apply maybe_convert_objects_elem in Hx as (y & Hy & Hx).
  apply list_elem_of_In, in_map_iff in Hy as (y0 & <- & _).
  destruct (to_unit_id_value db y0) as [E | (r & Hr & E)]; rewrite E in Hx.
  - destruct Hx as [-> | ->]; by left.
  - destruct Hx as [-> | ->]; [right; exists r; split; [exact Hr | by left] |].
    cbn [to_float64]. unfold notnull_or_none; cbn [isna].
    rewrite binary_normalize_not_nan. cbn [_to_py_mysql].
    rewrite binary_normalize_not_nan.
    destruct (binary_normalize_of_int (uni_id r)) as [Hi | Ef].
    + rewrite Hi. by left.
    + destruct (of_int_finite _ _ Ef) as [_ Hi]. rewrite Hi. cbn [orb].
      right. exists r. split; [exact Hr |]. right. eauto.
Qed.

Lemma key_text_fixed x : key_text x -> _to_py_mysql (notnull_or_none x) = x.
Proof.
  intros (k & -> & Hk & Ht). cbn [notnull_or_none isna _to_py_mysql].
  rewrite (strip_trimmed_id _ Ht). by rewrite bool_decide_eq_false_2.
Qed.

(** *** The dtype of a column of flags or identifiers *)

Lemma has_cons seen a x : has (a :: seen) x = bool_decide (x = a) || has seen x.
Proof.
  unfold has. destruct (decide (x = a)) as [-> | Hne].
  - rewrite bool_decide_eq_true_2 by apply list_elem_of_here.
    by rewrite bool_decide_eq_true_2.
  - rewrite (bool_decide_eq_false_2 (x = a)) by done. cbn [orb].
    apply bool_decide_ext. rewrite elem_of_cons. tauto.
Qed.

Lemma tame_cons seen a :
  a = null_ \/ a = int_ \/ a = sint_ -> tame seen -> tame (a :: seen).
Proof.
  intros Ha Ht x Hx. apply elem_of_cons in Hx as [-> | Hx]; auto.
Qed.

Lemma tame_lacks seen x :
  tame seen -> x <> null_ -> x <> int_ -> x <> sint_ -> has seen x = false.
Proof.
  intros Ht H1 H2 H3. unfold has. apply bool_decide_eq_false_2. intros Hin.
  destruct (Ht x Hin) as [? | [? | ?]]; congruence.
Qed.

Lemma see_plain seen y :
  plain y -> tame seen ->
  tame (see seen y)
  /\ has (see seen y) null_ = has seen null_ || is_none y
  /\ has (see seen y) int_ = has seen int_ || is_int y.
Proof.
  intros Hy Ht. unfold see.
  rewrite (tame_lacks seen object_ Ht) by discriminate.
  destruct Hy as [-> | (z & -> & Hz)].
  - split; [apply tame_cons; auto |].
    rewrite !has_cons. cbn. split; [by rewrite orb_true_r | by rewrite orb_false_r].
  - cbv zeta. unfold int64, INT64_MIN, INT64_MAX in Hz.
    assert (Hi : tame (int_ :: seen)) by (apply tame_cons; auto).
    assert (H1 : has (int_ :: seen) null_ = has seen null_ || is_none (CInt z))
      by (rewrite has_cons; cbn; by rewrite orb_false_r).
    assert (H2 : has (int_ :: seen) int_ = has seen int_ || is_int (CInt z))
      by (rewrite has_cons; cbn; by rewrite orb_true_r).
    destruct (has (int_ :: seen) null_) eqn:Hnull; [by rewrite <- H1 |].
    assert (E1 : (INT64_MAX <? z)%Z = false)
      by (apply Z.ltb_ge; unfold INT64_MAX; lia).
    assert (E2 : (UINT64_MAX <? z)%Z = false)
      by (apply Z.ltb_ge; unfold UINT64_MAX; lia).
    assert (E3 : (z <? INT64_MIN)%Z = false)
      by (apply Z.ltb_ge; unfold INT64_MIN; lia).
    rewrite E1, E2, E3. cbn [andb orb].
    set (seen' := if (INT64_MIN <=? z)%Z && (z <? 0)%Z
                  then sint_ :: int_ :: seen else int_ :: seen).
    assert (Ht' : tame seen')
      by (subst seen'; destruct (_ && _); [apply tame_cons |]; auto).
    rewrite (tame_lacks seen' uint_ Ht') by discriminate. cbn [andb orb].
    split; [exact Ht' |]. subst seen'. cbn [is_none is_int].
    rewrite orb_false_r, orb_true_r.
    destruct (_ && _); rewrite !has_cons; cbn; rewrite ?orb_true_r;
      rewrite ?has_cons in Hnull; cbn in Hnull; auto.
Qed.

Lemma fold_see_plain v :
  Forall plain v -> forall seen, tame seen ->
  let s := fold_left see v seen in
  tame s
  /\ has s null_ = has seen null_ || existsb is_none v
  /\ has s int_ = has seen int_ || existsb is_int v.
Proof.
  induction 1 as [| y v Hy Hv IH]; intros seen Ht; cbn [fold_left existsb].
  - by rewrite !orb_false_r.
  - destruct (see_plain seen y Hy Ht) as (Ht' & E1 & E2).
    destruct (IH _ Ht') as (Hs & H1 & H2).
    split; [exact Hs |]. rewrite H1, H2, E1, E2, !orb_assoc. done.
Qed.

(** A column of integers of 64 bits and [None] comes back as it is when it
    holds no [None] or nothing else, as floats otherwise. *)
Lemma maybe_convert_objects_plain v :
  Forall plain v ->
  maybe_convert_objects v
  = if existsb is_none v && existsb is_int v then map to_float64 v else v.
Proof.
  intros Hv. unfold maybe_convert_objects. cbv zeta.
  assert (Ht : tame []) by (intros x Hx; by apply elem_of_nil in Hx).
  destruct (fold_see_plain v Hv [] Ht) as (Hs & H1 & H2).
  rewrite (tame_lacks _ bool_ Hs), (tame_lacks _ object_ Hs),
    (tame_lacks _ nan_ Hs), (tame_lacks _ float_ Hs) by discriminate.
  rewrite H1, H2. cbn. destruct (existsb is_none v), (existsb is_int v); done.
Qed.

Lemma plain_column v :
  Forall plain v ->
  Forall (fun x => exists z, x = CInt z) (maybe_convert_objects v)
  \/ Forall (fun x => forall z, _to_py_mysql (notnull_or_none x) <> CInt z)
            (maybe_convert_objects v).
Proof.
  intros Hv. rewrite (maybe_convert_objects_plain v Hv).
  destruct (existsb is_none v) eqn:En; cbn [andb].
  - right. destruct (existsb is_int v) eqn:Ei.
    + apply Forall_map. eapply Forall_impl; [| exact Hv].
      intros y [-> | (z & -> & _)] z'; cbn [to_float64]; [done |].
      unfold notnull_or_none; cbn [isna].
      rewrite binary_normalize_not_nan. cbn [_to_py_mysql].
      by destruct (_ || _).
    + rewrite Forall_forall in Hv. apply Forall_forall. intros y Hy z.
      destruct (Hv y Hy) as [-> | (z' & -> & _)]; [done |].
      exfalso. assert (existsb is_int v = true); [| congruence].
      apply existsb_exists. eauto.
  - left. rewrite Forall_forall in Hv. apply Forall_forall. intros y Hy.
    destruct (Hv y Hy) as [-> | (z' & -> & _)]; [| eauto].
    exfalso. assert (existsb is_none v = true); [| congruence].
    apply existsb_exists. eauto.
Qed.

(** The batch of the sheet with gaps. *)
Lemma gaps_df_batch :
  _clean_autocorrect gaps_df ID = inr (gaps_clean_df, gaps_report)
  /\ batch_rows gaps_clean_df ID kg_catalogue = gaps_batch.
Proof. split; vm_compute; reflexivity. Qed.

(** X6: whatever the sheet holds, a record of the batch binds to a column of
    the registry a value of its type and nothing else: null or a finite
    float to a numeric column, null, 0 or 1 to a boolean one, null or a
    trimmed text that is not empty to a text column, null or the identifier
    of a unit of the catalogue to a unit column.  The 0, the 1 and the
    identifier are integers or the floats of the same value, and a column
    does not mix the two: it is bound as integers in every record or in
    none (for a unit column, when the identifiers of the catalogue are
    integers that 64 bits hold with a sign).  So the sheet [gaps_df], whose
    second row leaves the flag and the unit empty, binds the floats 1.0 and
    3.0 in its first record and null in its second. *)
Theorem batch_rows_typed
        (df clean_df : DataFrame) (rep : report) (key_col : pystr)
        (db : database) :
  well_formed df -> key_col ∈ columns df ->
  key_col = ID \/ key_col = CLAVE ->
  _clean_autocorrect df key_col = inr (clean_df, rep) ->
  let rows := batch_rows clean_df key_col db in
  Forall (fun rec =>
            forall c dbcol t,
              assoc c ALLOWED_MAP = Some (dbcol, t) ->
              param_value db t (param rec c))
         rows
  /\ (forall c dbcol t,
        assoc c ALLOWED_MAP = Some (dbcol, t) ->
        (t = TUnit -> Forall (fun r => int64 (uni_id r)) (unidad db)) ->
        Forall (fun rec => exists z, param rec c = CInt z) rows
        \/ Forall (fun rec => forall z, param rec c <> CInt z) rows)
  /\ _clean_autocorrect gaps_df ID = inr (gaps_clean_df, gaps_report)
  /\ batch_rows gaps_clean_df ID kg_catalogue = gaps_batch.
Proof.
  intros Hwf Hkey Hk Hclean. cbv zeta.
  destruct (clean_well_formed _ _ _ _ Hwf Hkey (key_col_kept _ Hk) Hclean)
    as (Hwfc & _ & Hkc).
  pose proof (batch_record clean_df key_col db Hwfc Hkc) as Hrec.
  assert (Hout : forall rec c,
             rec ∈ batch_rows clean_df key_col db ->
             c ∉ batch_cols clean_df db ++ [key_col] -> param rec c = CNone).
  { intros rec c Hin Hc. destruct (Hrec rec Hin) as [Hnames _].
    rewrite <- Hnames in Hc. apply assoc_None_iff in Hc.
    unfold param. by rewrite Hc. }
  assert (Hcol : forall c dbcol t,
             assoc c ALLOWED_MAP = Some (dbcol, t) ->
             exists v, Forall (coerced_value t) v
               /\ col c (resolved clean_df db)
                  = match t with
                    | TUnit => maybe_convert_objects
                                 (map (to_unit_id (unit_index (unidad db)))
                                      (maybe_convert_objects v))
                    | _ => maybe_convert_objects v
                    end).
  { intros c dbcol t Ha.
    destruct (clean_typed _ _ _ _ _ _ _ Hclean Ha) as (v & Hty & Hv).
    exists v. split; [exact Hty |].
    unfold resolved. rewrite col_resolve_units, (allowed_unit _ _ _ Ha), Hv.
    by destruct t. }
  assert (Htyped : Forall (fun rec =>
                     forall c dbcol t,
                       assoc c ALLOWED_MAP = Some (dbcol, t) ->
                       param_value db t (param rec c))
                          (batch_rows clean_df key_col db)).
  { apply Forall_forall. intros rec Hin. apply list_elem_of_In in Hin.
    intros c dbcol t Ha.
    destruct (decide (c ∈ batch_cols clean_df db ++ [key_col])) as [Hc | Hc].
    - destruct (Hrec rec Hin) as [_ Hval].
      destruct (Hval c Hc) as (x & Hx & ->).
      destruct (Hcol c dbcol t Ha) as (v & Hty & Hv). rewrite Hv in Hx.
      assert (Ht : t = TUnit \/ t <> TUnit)
        by (destruct t; auto; right; discriminate).
      destruct Ht as [-> | Ht].
      + by apply unit_param_value in Hx.
      + apply (coerced_param_value db t v); [exact Ht | exact Hty |].
        by destruct t.
    - rewrite (Hout rec c Hin Hc). by destruct t; left. }
  split; [exact Htyped |]. split; [| exact gaps_df_batch].
  intros c dbcol t Ha Hids.
  destruct (decide (c ∈ batch_cols clean_df db ++ [key_col])) as [Hc | Hc].
  2: { right. apply Forall_forall. intros rec Hin z.
       apply list_elem_of_In in Hin. by rewrite (Hout rec c Hin Hc). }
  destruct (Hcol c dbcol t Ha) as (v & Hty & Hv).
  assert (Hsplit : forall w,
             col c (resolved clean_df db) = maybe_convert_objects w ->
             Forall plain w ->
             Forall (fun rec => exists z, param rec c = CInt z)
                    (batch_rows clean_df key_col db)
             \/ Forall (fun rec => forall z, param rec c <> CInt z)
                       (batch_rows clean_df key_col db)).
  { intros w Hw Hp.
    destruct (plain_column w Hp) as [Hall | Hall]; [left | right];
      rewrite <- Hw in Hall; rewrite Forall_forall in Hall;
      apply Forall_forall; intros rec Hin; apply list_elem_of_In in Hin;
      destruct (Hrec rec Hin) as [_ Hval];
      destruct (Hval c Hc) as (x & Hx & ->); apply list_elem_of_In in Hx.
    - destruct (Hall x Hx) as [z ->]. by exists z.
    - by apply Hall. }
  assert (Hother : (forall rec, rec ∈ batch_rows clean_df key_col db ->
                      forall z, param rec c <> CInt z) ->
             Forall (fun rec => exists z, param rec c = CInt z)
                    (batch_rows clean_df key_col db)
             \/ Forall (fun rec => forall z, param rec c <> CInt z)
                       (batch_rows clean_df key_col db)).
  { intros H. right. apply Forall_forall. intros rec Hin.
    by apply H, list_elem_of_In. }
  rewrite Forall_forall in Htyped.
  destruct t.
  - apply Hother. intros rec Hin z E. apply list_elem_of_In in Hin.
    pose proof (Htyped rec Hin c dbcol _ Ha) as Hp. rewrite E in Hp.
    by destruct Hp as [? | (s & ? & _)].
  - apply Hother. intros rec Hin z E. apply list_elem_of_In in Hin.
    pose proof (Htyped rec Hin c dbcol _ Ha) as Hp. rewrite E in Hp.
    by destruct Hp as [? | (f & ? & _)].
  - apply (Hsplit v Hv). eapply Forall_impl; [| exact Hty].
    intros y [-> | [-> | ->]]; [by left | right; exists 0%Z | right; exists 1%Z];
      (split; [reflexivity | unfold int64; by vm_compute]).
  - apply (Hsplit _ Hv). apply Forall_map, Forall_forall. intros y _.
    destruct (to_unit_id_value db y) as [-> | (r & Hr & ->)]; [by left |].
    right. exists (uni_id r). split; [reflexivity |].
    specialize (Hids eq_refl). rewrite Forall_forall in Hids.
    by apply Hids, list_elem_of_In.
Qed.

Lemma echo_df_cleaned :
  _clean_autocorrect echo_df ID = inr (echo_clean_df, echo_report).
Proof. vm_compute. reflexivity. Defined.

Lemma batch_rows_typed_witness :
  let rows := batch_rows echo_clean_df ID one_product in
  Forall (fun rec =>
            forall c dbcol t,
              assoc c ALLOWED_MAP = Some (dbcol, t) ->
              param_value one_product t (param rec c))
         rows
  /\ (forall c dbcol t,
        assoc c ALLOWED_MAP = Some (dbcol, t) ->
        (t = TUnit -> Forall (fun r => int64 (uni_id r)) (unidad one_product)) ->
        Forall (fun rec => exists z, param rec c = CInt z) rows
        \/ Forall (fun rec => forall z, param rec c <> CInt z) rows)
  /\ _clean_autocorrect gaps_df ID = inr (gaps_clean_df, gaps_report)
  /\ batch_rows gaps_clean_df ID kg_catalogue = gaps_batch.
Proof.
  apply (batch_rows_typed echo_df echo_clean_df echo_report ID one_product
                          echo_df_well_formed).
  - apply list_elem_of_here.
  - by left.
  - exact echo_df_cleaned.
Defined.

(** X7: every record of the batch carries the names the statement uses, the
    updatable columns and the key column, and its key is a text that is
    trimmed and not empty; the batch has one record per row of the cleaned
    frame. *)
Theorem batch_rows_keyed
        (df clean_df : DataFrame) (rep : report) (key_col : pystr)
        (db : database) :
  well_formed df -> key_col ∈ columns df ->
  key_col = ID \/ key_col = CLAVE ->
  _clean_autocorrect df key_col = inr (clean_df, rep) ->
  Forall (fun rec =>
            map fst rec = batch_cols clean_df db ++ [key_col]
            /\ key_text (param rec key_col))
         (batch_rows clean_df key_col db)
  /\ length (batch_rows clean_df key_col db) = nrows clean_df.
Proof.
  intros Hwf Hkey Hk Hclean.
  destruct (clean_well_formed _ _ _ _ Hwf Hkey (key_col_kept _ Hk) Hclean)
    as (Hwfc & _ & Hkc).
  split; [| by apply batch_length].
  apply Forall_forall. intros rec Hrec. apply list_elem_of_In in Hrec.
  destruct (batch_record clean_df key_col db Hwfc Hkc rec Hrec)
    as [Hnames Hval].
  split; [exact Hnames |].
  destruct (Hval key_col) as (x & Hx & ->).
  { apply elem_of_app. right. apply list_elem_of_here. }
  unfold resolved in Hx. rewrite col_resolve_units in Hx.
  rewrite (key_not_unit _ Hk), (clean_keys _ _ _ _ Hk Hclean) in Hx.
  pose proof (filtered_key_cells df key_col Hkey (key_col_kept _ Hk)) as Hf.
  rewrite Forall_forall in Hf. apply list_elem_of_In, Hf in Hx.
  by rewrite key_text_fixed.
Qed.

Lemma batch_rows_keyed_witness :
  Forall (fun rec =>
            map fst rec = batch_cols echo_clean_df one_product ++ [ID]
            /\ key_text (param rec ID))
         (batch_rows echo_clean_df ID one_product)
  /\ length (batch_rows echo_clean_df ID one_product) = 2.
Proof.
  apply (batch_rows_keyed echo_df echo_clean_df echo_report ID one_product
                          echo_df_well_formed).
  - apply list_elem_of_here.
  - by left.
  - exact echo_df_cleaned.
Defined.

Lemma filter_split_length {A} (P : A -> bool) (l : list A) :
  length (List.filter (fun x => negb (P x)) l) + length (List.filter P l)
  = length l.
Proof.
  induction l as [| x l IH]; simpl; [reflexivity |].
  destruct (P x); simpl; lia.
Qed.

Lemma filter_map_swap {A B} (f : A -> B) (P : B -> bool) (l : list A) :
  List.filter P (map f l) = map f (List.filter (fun x => P (f x)) l).
Proof.
  induction l as [| x l IH]; simpl; [reflexivity |].
  destruct (P (f x)); simpl; by rewrite IH.
Qed.

(** X8: the rows of the cleaned frame and the rows counted in [dropped_rows]
    are together the rows of the sheet whose key, as a trimmed text, is not
    empty; the rows with an empty key are in neither. *)
Theorem rows_accounted
        (df clean_df : DataFrame) (rep : report) (key_col : pystr) :
  well_formed df -> key_col ∈ columns df ->
  key_col = ID \/ key_col = CLAVE ->
  _clean_autocorrect df key_col = inr (clean_df, rep) ->
  nrows clean_df + dropped_rows rep
  = length (List.filter (fun rec => key_ok (to_key (param rec key_col)))
                        (to_records df))
  /\ nrows clean_df + dropped_rows rep <= nrows df.
Proof.
  intros Hwf Hkey Hk Hclean. pose proof (key_col_kept _ Hk) as Hkept.
  destruct (clean_well_formed _ _ _ _ Hwf Hkey Hkept Hclean) as (_ & Hn & _).
  rewrite (report_dropped _ _ _ _ Hclean), Hn.
  destruct (filtered_rowwise df key_col Hwf Hkey Hkept) as [Hrec ->].
  assert (Hlen : nrows (fst (filtered df key_col))
                 = length (fst (rowwise key_col (to_records df)))).
  { rewrite <- Hrec. unfold to_records. by rewrite length_records. }
  rewrite Hlen. unfold rowwise; cbn [fst snd].
  rewrite filter_split_length, filter_map_swap, length_map.
  assert (E : List.filter
                (fun x => key_ok (param (keyed_record key_col x) key_col))
                (to_records df)
              = List.filter (fun rec => key_ok (to_key (param rec key_col)))
                            (to_records df)).
  { apply filter_ext_in. intros rec Hin. apply list_elem_of_In in Hin.
    rewrite param_keyed_record; [reflexivity | exact Hkept |].
    by rewrite (records_keys _ _ _ Hin). }
  rewrite E. split; [reflexivity |].
  etransitivity; [apply filter_length_le |].
  unfold to_records. by rewrite length_records.
Qed.

Lemma rows_accounted_witness :
  2 + 1 = length (List.filter (fun rec => key_ok (to_key (param rec ID)))
                              (to_records echo_df))
  /\ 2 + 1 <= 3.
Proof.
  apply (rows_accounted echo_df echo_clean_df echo_report ID
                        echo_df_well_formed).
  - apply list_elem_of_here.
  - by left.
  - exact echo_df_cleaned.
Defined.

(** ** What an upload changes in the table *)

Lemma field_lookup (m m' : art_row) k :
  m !! k = m' !! k -> field m k = field m' k.
Proof. unfold field. by intros ->. Qed.

(** The [SET] list leaves a column alone or gives it a value. *)
Lemma set_row_lookup ucols row k :
  forall r,
    set_row ucols row r !! k
    = if bool_decide (k ∈ map dbcol_of ucols)
      then Some (field (set_row ucols row r) k) else r !! k.
Proof.
  unfold set_row.
  induction ucols as [| c cols IH]; intros r; [reflexivity |].
  cbn [fold_left map].
  set (r1 := <[dbcol_of c := coalesce (param row c) (field r (dbcol_of c))]> r).
  pose proof (IH r1) as H.
  destruct (decide (k ∈ map dbcol_of cols)) as [Hin | Hnin].
  - rewrite bool_decide_eq_true_2 in H by exact Hin.
    rewrite bool_decide_eq_true_2 by (apply elem_of_cons; by right).
    exact H.
  - rewrite bool_decide_eq_false_2 in H by exact Hnin.
    destruct (decide (k = dbcol_of c)) as [-> | Hne].
    + rewrite bool_decide_eq_true_2 by apply list_elem_of_here.
      rewrite (field_lookup _ _ _ H), H. subst r1.
      by rewrite field_insert_eq, lookup_insert_eq.
    + rewrite bool_decide_eq_false_2.
      * rewrite H. subst r1. by rewrite lookup_insert_ne.
      * intros Hk. apply elem_of_cons in Hk as [? | ?]; done.
Qed.

Section Writes.
Variable sql_eq : cell -> cell -> bool.
Variables (ucols : list pystr) (key_col : pystr).

Lemma apply_all_rows rows :
  forall t, apply_all sql_eq ucols key_col rows t
            = map (row_after sql_eq ucols key_col rows) t.
Proof.
  unfold apply_all, row_after.
  induction rows as [| row rows IH]; intros t; simpl.
  - symmetry. apply map_id.
  - rewrite IH. unfold exec_update. rewrite map_map. reflexivity.
Qed.

Lemma row_after_other rows k :
  (forall c, c ∈ ucols -> dbcol_of c <> k) ->
  forall r, row_after sql_eq ucols key_col rows r !! k = r !! k.
Proof.
  intros Hk. unfold row_after.
  assert (Hnin : k ∉ map dbcol_of ucols).
  { intros Hin. apply list_elem_of_In, in_map_iff in Hin as (c & E & Hc).
    apply (Hk c); [by apply list_elem_of_In | exact E]. }
  induction rows as [| row rows IH]; intros r; simpl; [reflexivity |].
  rewrite IH. destruct (sql_eq _ _); [| reflexivity].
  rewrite set_row_lookup. by rewrite bool_decide_eq_false_2.
Qed.

Hypothesis Hall : forall c, c ∈ ucols -> in_allowed c = true.

Lemma set_row_where row r :
  field (set_row ucols row r) (where_col_of key_col)
  = field r (where_col_of key_col).
Proof.
  apply set_row_other. intros c Hc. apply dbcol_of_not_where, Hall, Hc.
Qed.

(** The records that address a row are the same all along the batch. *)
Lemma row_after_fold rows :
  forall r,
    row_after sql_eq ucols key_col rows r
    = fold_left
        (fun r' row =>
           if sql_eq (field r (where_col_of key_col)) (param row key_col)
           then set_row ucols row r' else r')
        rows r
    /\ field (row_after sql_eq ucols key_col rows r) (where_col_of key_col)
       = field r (where_col_of key_col).
Proof.
  unfold row_after.
  induction rows as [| row rows IH]; intros r; simpl; [auto |].
  destruct (sql_eq (field r (where_col_of key_col)) (param row key_col)) eqn:E.
  - destruct (IH (set_row ucols row r)) as [-> ->].
    rewrite set_row_where. auto.
  - apply IH.
Qed.

Lemma row_after_where rows r :
  field (row_after sql_eq ucols key_col rows r) (where_col_of key_col)
  = field r (where_col_of key_col).
Proof. apply row_after_fold. Qed.

Lemma row_after_field rows c r :
  c ∈ ucols ->
  field (row_after sql_eq ucols key_col rows r) (dbcol_of c)
  = value_after c
      (fun row => sql_eq (field r (where_col_of key_col)) (param row key_col))
      rows (field r (dbcol_of c)).
Proof.
  intros Hc. rewrite (proj1 (row_after_fold rows r)).
  generalize (field r (where_col_of key_col)). intros w.
  unfold value_after. revert r.
  induction rows as [| row rows IH]; intros r; simpl; [reflexivity |].
  destruct (sql_eq w (param row key_col)); [| apply IH].
  rewrite IH. by rewrite set_row_field.
Qed.

Lemma row_after_lookup rows k r :
  row_after sql_eq ucols key_col rows r !! k
  = if existsb (fun row => sql_eq (field r (where_col_of key_col))
                                  (param row key_col)) rows
       && bool_decide (k ∈ map dbcol_of ucols)
    then Some (field (row_after sql_eq ucols key_col rows r) k)
    else r !! k.
Proof.
  rewrite (proj1 (row_after_fold rows r)).
  generalize (field r (where_col_of key_col)). intros w. revert r.
  induction rows as [| row rows IH]; intros r; simpl; [reflexivity |].
  destruct (sql_eq w (param row key_col)); simpl; [| apply IH].
  rewrite IH.
  destruct (bool_decide (k ∈ map dbcol_of ucols)) eqn:Hk;
    rewrite ?andb_true_r, ?andb_false_r.
  - destruct (existsb _ rows) eqn:Hex; [reflexivity |].
    rewrite set_row_lookup, Hk. f_equal. symmetry. apply field_lookup.
    rewrite IH. reflexivity.
  - rewrite set_row_lookup, Hk. reflexivity.
Qed.

Lemma value_after_const_or_id c a rows :
  (forall x, value_after c a rows x = x)
  \/ exists v, forall x, value_after c a rows x = v.
Proof.
  unfold value_after.
  induction rows as [| row rows [IH | [v IH]]]; simpl; [by left | |].
  - destruct (a row); [| by left].
    destruct (param row c) as [| n | s] eqn:E; [by left | right ..];
      [exists (CNum n) | exists (CStr s)]; intros x; rewrite IH; reflexivity.
  - right. exists v. intros x. apply IH.
Qed.

Lemma value_after_idem c a rows x :
  value_after c a rows (value_after c a rows x) = value_after c a rows x.
Proof.
  destruct (value_after_const_or_id c a rows) as [H | [v H]].
  - by rewrite !H.
  - by rewrite !H.
Qed.

Lemma row_after_idem rows r :
  row_after sql_eq ucols key_col rows (row_after sql_eq ucols key_col rows r)
  = row_after sql_eq ucols key_col rows r.
Proof.
  apply map_eq. intros k.
  rewrite row_after_lookup, row_after_where.
  destruct (existsb _ rows && bool_decide (k ∈ map dbcol_of ucols)) eqn:E;
    [| reflexivity].
  rewrite (row_after_lookup rows k r), E. f_equal.
  apply andb_true_iff in E as [_ E]. apply bool_decide_eq_true_1 in E.
  apply list_elem_of_In, in_map_iff in E as (c & <- & Hc).
  apply list_elem_of_In in Hc.
  rewrite !row_after_field by exact Hc.
  rewrite row_after_where. apply value_after_idem.
Qed.

(** Running the batch again on the table it has produced changes nothing. *)
Lemma apply_all_idem rows t :
  apply_all sql_eq ucols key_col rows (apply_all sql_eq ucols key_col rows t)
  = apply_all sql_eq ucols key_col rows t.
Proof.
  rewrite !apply_all_rows, map_map. apply map_ext. intros r.
  apply row_after_idem.
Qed.
End Writes.

Lemma batch_cols_allowed clean_df db c :
  c ∈ batch_cols clean_df db -> in_allowed c = true.
Proof.
  unfold batch_cols, update_cols_of. intros H.
  by apply elem_of_filter_list in H as [_ H].
Qed.

Lemma value_after_null c a rows x :
  (forall row, row ∈ rows -> a row = true -> param row c = CNone) ->
  value_after c a rows x = x.
Proof.
  unfold value_after. revert x.
  induction rows as [| row rows IH]; intros x H; simpl; [reflexivity |].
  rewrite IH by (intros row' Hin; apply H, elem_of_cons; by right).
  destruct (a row) eqn:E; [| reflexivity].
  by rewrite (H row (list_elem_of_here _ _) E).
Qed.

Lemma value_after_app c a rows row rest x :
  value_after c a (rows ++ row :: rest) x
  = value_after c a rest
      (if a row then coalesce (param row c) (value_after c a rows x)
       else value_after c a rows x).
Proof. unfold value_after. by rewrite fold_left_app. Qed.

Section UploadTable.
Variable sql_eq : cell -> cell -> bool.

(** What the table holds after the transaction: what it held, or the
    update of every record of the batch. *)
Lemma transact_table clean_df rep key_col db f :
  table_after (transact sql_eq clean_df rep key_col db f) = articulo db
  \/ table_after (transact sql_eq clean_df rep key_col db f)
     = apply_all sql_eq (batch_cols clean_df db) key_col
                 (batch_rows clean_df key_col db) (articulo db).
Proof.
  unfold transact.
  destruct f as [| | | i]; try (by left).
  - destruct (batch_cols clean_df db) as [| c cols] eqn:Hc; [by left |].
    cbn [map fail_index]. rewrite executemany_none. by right.
  - destruct (batch_cols clean_df db) as [| c cols] eqn:Hc; [by left |].
    cbn [map fail_index].
    destruct (decide (i < length (batch_rows clean_df key_col db)))
      as [Hi | Hi].
    + rewrite executemany_fails by exact Hi. by left.
    + rewrite executemany_late by lia. by right.
Qed.

Lemma upload_table df db f :
  table_after (upload_excel_to_db sql_eq df db f) = articulo db
  \/ exists clean_df key_col,
       table_after (upload_excel_to_db sql_eq df db f)
       = apply_all sql_eq (batch_cols clean_df db) key_col
                   (batch_rows clean_df key_col db) (articulo db).
Proof.
  unfold upload_excel_to_db.
  destruct (df_empty df); [by left |].
  destruct (key_col_of (normalized df)) as [key_col |]; [| by left].
  destruct (_clean_autocorrect (normalized df) key_col)
    as [e | [clean_df rep]]; [by left |].
  destruct (transact_table clean_df rep key_col db f) as [H | H];
    [by left | right; eauto].
Qed.

(** X9: an upload, whatever its outcome, neither adds, removes nor moves a
    row of [articulo], and in a row it leaves every column alone that is
    not the destination of a column of the registry: [art_id] and [clave],
    by which the rows are addressed, among them. *)
Theorem upload_keeps_rows (df : DataFrame) (db : database) (f : fault) :
  let r := upload_excel_to_db sql_eq df db f in
  length (table_after r) = length (articulo db)
  /\ forall j r0,
       articulo db !! j = Some r0 ->
       exists r1,
         table_after r !! j = Some r1
         /\ (forall k, (forall c, in_allowed c = true -> dbcol_of c <> k) ->
                       r1 !! k = r0 !! k)
         /\ r1 !! py "art_id" = r0 !! py "art_id"
         /\ r1 !! py "clave" = r0 !! py "clave".
Proof.
  cbv zeta.
  destruct (upload_table df db f) as [-> | (clean_df & key_col & ->)].
  - split; [reflexivity |]. intros j r0 Hj. exists r0. auto.
  - rewrite apply_all_rows. split; [apply length_map |].
    intros j r0 Hj. rewrite lookup_map, Hj. simpl. eexists.
    split; [reflexivity |].
    assert (H : forall k, (forall c, in_allowed c = true -> dbcol_of c <> k) ->
                row_after sql_eq (batch_cols clean_df db) key_col
                          (batch_rows clean_df key_col db) r0 !! k
                = r0 !! k).
    { intros k Hk. apply row_after_other. intros c Hc.
      eapply Hk, batch_cols_allowed, Hc. }
    split; [exact H |].
    split; apply H; intros c Hc.
    + apply (dbcol_of_not_where c ID Hc).
    + apply (dbcol_of_not_where c CLAVE Hc).
Qed.

(** X10: uploading a sheet again, to the table the first upload has left and
    with the same catalogue of units, leaves that table as it is. *)
Theorem upload_twice (df : DataFrame) (db : database) :
  let r := upload_excel_to_db sql_eq df db NoFault in
  let db' := {| unidad := unidad db; articulo := table_after r |} in
  table_after (upload_excel_to_db sql_eq df db' NoFault) = table_after r.
Proof.
  cbv zeta. unfold upload_excel_to_db.
  destruct (df_empty df); [reflexivity |].
  destruct (key_col_of (normalized df)) as [key_col |]; [| reflexivity].
  destruct (_clean_autocorrect (normalized df) key_col)
    as [e | [clean_df rep]]; [reflexivity |].
  unfold transact.
  change (batch_cols clean_df {| unidad := unidad db; articulo := _ |})
    with (batch_cols clean_df db).
  change (batch_rows clean_df key_col {| unidad := unidad db; articulo := _ |})
    with (batch_rows clean_df key_col db).
  destruct (batch_cols clean_df db) as [| c cols] eqn:Hc; [reflexivity |].
  cbn [map fail_index]. rewrite !executemany_none.
  cbn [conn_open conn_commit conn_close committed pending table_after
       articulo].
  apply apply_all_idem. intros c' Hc'. rewrite <- Hc in Hc'.
  eapply batch_cols_allowed, Hc'.
Qed.

(** X11: when several records of the batch address the same row, the last
    one that carries a value for a column decides the field: the records
    after it that address the row carry null for the column, and the field
    ends with its value. *)
Theorem last_value_wins
        (update_cols : list pystr) (key_col : pystr)
        (rows rest : list (list (pystr * cell))) (row : list (pystr * cell))
        (c : pystr) (t : table) (j : nat) (r : art_row) :
  (forall c', c' ∈ update_cols -> in_allowed c' = true) ->
  c ∈ update_cols ->
  t !! j = Some r ->
  sql_eq (field r (where_col_of key_col)) (param row key_col) = true ->
  param row c <> CNone ->
  (forall row', row' ∈ rest ->
     sql_eq (field r (where_col_of key_col)) (param row' key_col) = true ->
     param row' c = CNone) ->
  exists r',
    apply_all sql_eq update_cols key_col (rows ++ row :: rest) t !! j
    = Some r'
    /\ field r' (dbcol_of c) = param row c.
Proof.
  intros Hall Hc Hj Haddr Hv Hrest.
  rewrite apply_all_rows, lookup_map, Hj. simpl. eexists.
  split; [reflexivity |].
  rewrite row_after_field by assumption.
  rewrite value_after_app, Haddr, value_after_null by exact Hrest.
  destruct (param row c); [done | reflexivity ..].
Qed.
End UploadTable.

Lemma last_value_wins_witness :
  exists r',
    apply_all text_eq [py "existencia"] ID three_records [pan_row] !! 0%nat
    = Some r'
    /\ field r' (py "existencia") = CInt 8.
Proof.
  apply (last_value_wins text_eq [py "existencia"] ID
           [ [ (py "existencia", CInt 5); (py "id", CStr (py "1")) ] ]
           [ [ (py "existencia", CNone); (py "id", CStr (py "1")) ] ]
           [ (py "existencia", CInt 8); (py "id", CStr (py "1")) ]
           (py "existencia") [pan_row] 0%nat pan_row).
  - intros c Hc. apply list_elem_of_singleton in Hc as ->. reflexivity.
  - apply list_elem_of_here.
  - reflexivity.
  - vm_compute. reflexivity.
  - discriminate.
  - intros row Hrow _. apply list_elem_of_singleton in Hrow as ->.
    reflexivity.
Defined.

(** ** The header of the sheet *)

Lemma drop_duplicated_columns df :
  forall seen c,
    c ∈ columns (drop_duplicated seen df) <-> c ∈ columns df /\ c ∉ seen.
Proof.
  induction df as [| [k v] df IH]; intros seen c; simpl.
  - split; [intros H; by apply elem_of_nil in H | by intros [H _]].
  - case_bool_decide as Hs; simpl; rewrite ?elem_of_cons, IH.
    + split; [intros [H1 H2]; auto |].
      intros [[-> | H1] H2]; [done | auto].
    + rewrite elem_of_cons. split.
      * intros [-> | [H1 H2]]; [auto |]. split; [by right |]. tauto.
      * intros [[-> | H1] H2]; [by left |].
        destruct (decide (c = k)) as [-> | Hne]; [by left | right]. tauto.
Qed.

Lemma drop_duplicated_NoDup df :
  forall seen, NoDup (columns (drop_duplicated seen df)).
Proof.
  induction df as [| [k v] df IH]; intros seen; simpl; [constructor |].
  case_bool_decide as Hs; simpl; [apply IH |].
  constructor; [| apply IH].
  rewrite drop_duplicated_columns. intros [_ H]. apply H, list_elem_of_here.
Qed.

Lemma drop_duplicated_assoc df :
  forall seen c, c ∉ seen -> assoc c (drop_duplicated seen df) = assoc c df.
Proof.
  induction df as [| [k v] df IH]; intros seen c Hc; simpl; [reflexivity |].
  case_bool_decide as Hs; simpl.
  - rewrite bool_decide_eq_false_2 by congruence. by apply IH.
  - case_bool_decide as Hk; [reflexivity |]. apply IH.
    intros H. apply elem_of_cons in H as [? | ?]; congruence.
Qed.

Lemma drop_duplicated_rect n df :
  forall seen, rect n df -> rect n (drop_duplicated seen df).
Proof.
  unfold rect. induction df as [| [k v] df IH]; intros seen H; simpl;
    [constructor |].
  inversion H; subst. case_bool_decide; [by apply IH |].
  constructor; [done | by apply IH].
Qed.

Lemma assoc_app_first {A} c (pre : list (pystr * A)) v post :
  (forall p, p ∈ pre -> fst p <> c) ->
  assoc c (pre ++ (c, v) :: post) = Some v.
Proof.
  induction pre as [| [k w] pre IH]; intros H; simpl.
  - by rewrite bool_decide_eq_true_2.
  - rewrite bool_decide_eq_false_2
      by (apply (H (k, w)), list_elem_of_here).
    apply IH. intros p Hp. apply H, elem_of_cons. by right.
Qed.

(** X12: after [str(c).strip().lower()] and the removal of the duplicated
    names, the header has no name twice; its names are the trimmed,
    lower-cased names of the sheet; under a name stands the first column of
    the sheet with that name, the later ones are dropped; and the frame
    keeps its rows, so that a sheet whose columns have the length of the
    index gives a frame with distinct names and such columns. *)
Theorem normalized_header (df : DataFrame) :
  NoDup (columns (normalized df))
  /\ (forall c, c ∈ columns (normalized df)
                <-> exists c0, c0 ∈ columns df /\ c = lower (strip c0))
  /\ (forall pre c0 v post,
        df = pre ++ (c0, v) :: post ->
        (forall p, p ∈ pre -> lower (strip (fst p)) <> lower (strip c0)) ->
        col (lower (strip c0)) (normalized df) = v)
  /\ nrows (normalized df) = nrows df
  /\ (rect (nrows df) df -> well_formed (normalized df)).
Proof.
  unfold normalized.
  set (ren := fun p : pystr * Series => (lower (strip (fst p)), snd p)).
  assert (Hn : nrows (drop_duplicated [] (map ren df)) = nrows df)
    by (by destruct df as [| [k v] df]).
  split; [apply drop_duplicated_NoDup |].
  split; [| split; [| split; [exact Hn |]]].
  - intros c. rewrite drop_duplicated_columns. unfold columns.
    rewrite map_map. simpl. rewrite list_elem_of_In, in_map_iff. split.
    + intros [([c0 v] & <- & Hin) _]. exists c0. split; [| reflexivity].
      apply list_elem_of_In, in_map_iff. by exists (c0, v).
    + intros (c0 & Hin & ->). split; [| apply not_elem_of_nil].
      apply list_elem_of_In, in_map_iff in Hin as ([k v] & <- & Hin).
      by exists (k, v).
  - intros pre c0 v post -> Hpre. unfold col.
    rewrite drop_duplicated_assoc by apply not_elem_of_nil.
    rewrite map_app. simpl.
    change (ren (c0, v)) with (lower (strip c0), v).
    rewrite assoc_app_first; [reflexivity |].
    intros p Hp. apply list_elem_of_In, in_map_iff in Hp as (q & <- & Hq).
    apply Hpre. by apply list_elem_of_In.
  - intros Hr. split; [apply drop_duplicated_NoDup |].
    rewrite Hn. apply drop_duplicated_rect.
    unfold rect in *. apply Forall_map. eapply Forall_impl; [| exact Hr].
    intros p Hp. exact Hp.
Qed.

(** X13: the key column is ['id'] when some name of the sheet is ['id'] once
    trimmed and lower-cased, whether or not ['clave'] is there too; it is
    ['clave'] when none is ['id'] and some is ['clave']; there is none
    otherwise. *)
Theorem key_col_of_header (df : DataFrame) :
  let named := fun key => exists c, c ∈ columns df /\ lower (strip c) = key in
  (key_col_of (normalized df) = Some ID <-> named ID)
  /\ (key_col_of (normalized df) = Some CLAVE
      <-> ~ named ID /\ named CLAVE)
  /\ (key_col_of (normalized df) = None <-> ~ named ID /\ ~ named CLAVE).
Proof.
  cbv zeta.
  assert (Hin : forall key,
             key ∈ columns (normalized df)
             <-> exists c, c ∈ columns df /\ lower (strip c) = key).
  { intros key. unfold normalized. rewrite drop_duplicated_columns.
    unfold columns. rewrite map_map. simpl.
    rewrite list_elem_of_In, in_map_iff. split.
    - intros [([c0 v] & <- & H) _]. exists c0. split; [| reflexivity].
      apply list_elem_of_In, in_map_iff. by exists (c0, v).
    - intros (c0 & H & <-). split; [| apply not_elem_of_nil].
      apply list_elem_of_In, in_map_iff in H as ([k v] & <- & H).
      by exists (k, v). }
  unfold key_col_of.
  case_bool_decide as H1; [| case_bool_decide as H2];
    rewrite Hin in *.
  - split; [tauto |]. split; split; try discriminate; tauto.
  - split; [split; [discriminate | tauto] |].
    split; [tauto |]. split; [discriminate | tauto].
  - split; [split; [discriminate | tauto] |].
    split; [split; [discriminate | tauto] | tauto].
Qed.

(** ** The outcomes of an upload *)

Section Outcomes.
Variable sql_eq : cell -> cell -> bool.

(** X14: a sheet without rows, and a sheet none of whose names is ['id'] or
    ['clave'] once trimmed and lower-cased, are refused before a connection
    is asked for: one warning is shown, no event reaches the database and
    the table is what it was, whatever the state of the server. *)
Theorem upload_refused (df : DataFrame) (db : database) (f : fault) :
  (df_empty df = true ->
   upload_excel_to_db sql_eq df db f
   = {| table_after := articulo db; trace := [];
        dialogs := [ExcelVacio]; escaped := None |})
  /\ (df_empty df = false ->
      (forall c, c ∈ columns df ->
                 lower (strip c) <> ID /\ lower (strip c) <> CLAVE) ->
      upload_excel_to_db sql_eq df db f
      = {| table_after := articulo db; trace := [];
           dialogs := [SinIdentificador]; escaped := None |}).
Proof.
  unfold upload_excel_to_db. split.
  - by intros ->.
  - intros -> Hcols.
    assert (Hno : forall key, key = ID \/ key = CLAVE ->
                    key ∉ columns (normalized df)).
    { intros key Hk Hin. apply columns_normalized in Hin as (c0 & Hc0 & E).
      destruct (Hcols c0 Hc0) as [H1 H2]. destruct Hk; congruence. }
    unfold key_col_of.
    rewrite !bool_decide_eq_false_2 by (apply Hno; auto).
    reflexivity.
Qed.

End Outcomes.

(** ** From the name of a unit to its identifier *)

Lemma replace_drop_space_dot s :
  replace 0x20 [] (replace 0x2E [] s) = drop_space_dot s.
Proof.
  unfold replace, drop_space_dot.
  induction s as [| c s IH]; [reflexivity |]. cbn [flat_map List.filter].
  destruct (N.eqb_spec c 0x2E) as [-> | H1]; [exact IH |].
  cbn [app flat_map].
  destruct (N.eqb_spec c 0x20) as [-> | H2]; [exact IH |].
  cbn [orb negb app]. by rewrite IH.
Qed.

(** The names of the table hold neither dot nor space, and a canonical name
    stands for itself. *)
Lemma table_keys k v :
  UNIT_NORMALIZATION !! k = Some v -> drop_space_dot k = k.
Proof.
  unfold UNIT_NORMALIZATION. intros H.
  apply elem_of_list_to_map_2 in H.
  repeat (apply elem_of_cons in H as [H | H];
          [inversion H; subst; reflexivity |]).
  by apply elem_of_nil in H.
Qed.

Lemma canonical_unit_entry v :
  v ∈ CANONICAL_UNITS ->
  UNIT_NORMALIZATION !! v = Some v /\ drop_space_dot v = v.
Proof.
  unfold CANONICAL_UNITS. intros H.
  repeat (apply elem_of_cons in H as [-> | H];
          [split; vm_compute; reflexivity |]).
  by apply elem_of_nil in H.
Qed.

(** X16: the two functions that take a unit from the sheet to its
    identifier, the coercer of the cleaning and [to_unit_id] of the upload,
    come to this on a value: a missing value, a blank text and a numeral
    give null; any other value is looked up in the catalogue under its text
    trimmed, in upper case, without dots and spaces, a synonym of the table
    standing for its canonical name; a name the catalogue does not hold
    gives null. *)
Theorem unit_resolution (d : gmap pystr Z) (x : cell) (st : counters) :
  exists v st',
    normalize_unit_name x st = Ret v st'
    /\ to_unit_id d v
       = if isna x
            || bool_decide (strip (py_str x) = [])
            || bool_decide (is_Some (re_fullmatch UNIT_NUM_RE
                                                  (strip (py_str x))))
         then CNone
         else match d !! unit_key (py_str x) with
              | Some uid => CInt uid
              | None => CNone
              end.
Proof.
  unfold normalize_unit_name.
  destruct (isna x) eqn:Hna; [by exists CNone, st |]. cbn [orb].
  pose proof (strip_is_trimmed (py_str x)) as Ht.
  unfold unit_key. cbv zeta.
  set (s := strip (py_str x)) in *.
  case_bool_decide as Hs; [by exists CNone, st |]. cbn [orb].
  destruct (re_fullmatch UNIT_NUM_RE s) as [m |] eqn:Hnum.
  { exists CNone, (plus_unit 1 st). split; [reflexivity |].
    by rewrite bool_decide_eq_true_2. }
  rewrite (bool_decide_eq_false_2 (is_Some (@None pystr)))
    by apply is_Some_None.
  rewrite replace_drop_space_dot.
  set (key := drop_space_dot (upper s)).
  assert (Hres : forall canon,
             canon = default (upper s) (UNIT_NORMALIZATION !! key) ->
             to_unit_id d (CStr canon)
             = match d !! default key (UNIT_NORMALIZATION !! key) with
               | Some uid => CInt uid
               | None => CNone
               end).
  { intros canon ->.
    destruct (UNIT_NORMALIZATION !! key) as [w |] eqn:Hkey; cbn [from_option id].
    - apply table_values in Hkey.
      destruct (canonical_unit_shape w Hkey) as (Hw & Htw & Huw).
      destruct (canonical_unit_entry w Hkey) as [Hew Hdw].
      unfold to_unit_id; cbn [isna py_str orb].
      rewrite (strip_trimmed_id _ Htw), Huw, Hew.
      rewrite bool_decide_eq_false_2 by exact Hw.
      cbn [from_option id]. by rewrite Hdw.
    - assert (Hu : upper s <> []) by (intros E; by apply upper_nil in E).
      unfold to_unit_id; cbn [isna py_str orb].
      rewrite (strip_trimmed_id _ (upper_trimmed _ Ht)), upper_idem.
      rewrite bool_decide_eq_false_2 by exact Hu.
      destruct (UNIT_NORMALIZATION !! upper s) as [w' |] eqn:Hup;
        cbn [from_option id]; [| reflexivity].
      exfalso. pose proof (table_keys _ _ Hup) as Hk.
      fold key in Hk. rewrite Hk in Hkey. congruence. }
  generalize dependent (default (upper s) (UNIT_NORMALIZATION !! key)).
  intros canon Hres. cbv [mbind M_bind mret M_ret add_unit].
  case_bool_decide; eexists _, _; (split; [reflexivity |]); by apply Hres.
Qed.

Lemma unit_index_snoc rows r :
  unit_index (rows ++ [r])
  = let d := if truthy (key_nombre r)
             then <[default [] (key_nombre r) := uni_id r]> (unit_index rows)
             else unit_index rows in
    if truthy (key_abrev r)
    then <[default [] (key_abrev r) := uni_id r]> d else d.
Proof. unfold unit_index. by rewrite fold_left_app. Qed.

Lemma unit_index_last_row rows r k :
  unit_index (rows ++ [r]) !! k
  = if bool_decide (k <> []
                    /\ (key_nombre r = Some k \/ key_abrev r = Some k))
    then Some (uni_id r) else unit_index rows !! k.
Proof.
  rewrite unit_index_snoc. cbv zeta.
  assert (Hins : forall (o : option pystr) (d : gmap pystr Z),
             (if truthy o then <[default [] o := uni_id r]> d else d) !! k
             = if bool_decide (k <> [] /\ o = Some k)
               then Some (uni_id r) else d !! k).
  { intros o d. destruct o as [[| c s] |]; simpl.
    - rewrite bool_decide_eq_false_2; [reflexivity |].
      intros [H1 H2]. congruence.
    - destruct (decide (c :: s = k)) as [<- | Hne].
      + rewrite lookup_insert_eq, bool_decide_eq_true_2; done.
      + rewrite lookup_insert_ne by done.
        rewrite bool_decide_eq_false_2; [reflexivity |].
        intros [_ H]. congruence.
    - rewrite bool_decide_eq_false_2; [reflexivity |]. by intros [_ ?]. }
  rewrite !Hins.
  repeat case_bool_decide; try reflexivity; exfalso; tauto.
Qed.

(** X17: the index of the units gives for a name the identifier of the last
    row of the catalogue that has it as one of its keys; a row whose key is
    empty or null is not indexed under it, and a name no row has is not in
    the index. *)
Theorem unit_index_last (rows : list lookup_row) (k : pystr) (u : Z) :
  unit_index rows !! k = Some u
  <-> exists pre r post,
        rows = pre ++ r :: post
        /\ uni_id r = u
        /\ k <> []
        /\ (key_nombre r = Some k \/ key_abrev r = Some k)
        /\ Forall (fun r' => key_nombre r' <> Some k
                             /\ key_abrev r' <> Some k) post.
Proof.
  revert u. induction rows as [| r rows IH] using rev_ind; intros u.
  - unfold unit_index; cbn [fold_left]. rewrite lookup_empty.
    split; [discriminate |].
    intros (pre & r & post & E & _). by destruct pre.
  - rewrite unit_index_last_row. case_bool_decide as Hk.
    + split.
      * intros [= <-]. exists rows, r, []. split; [reflexivity |].
        split; [reflexivity |]. destruct Hk. auto.
      * intros (pre & r' & post & E & Hu & _ & Hr' & Hpost).
        destruct post as [| p post _] using rev_ind.
        -- apply app_inj_tail in E as [_ ->]. by rewrite Hu.
        -- rewrite app_comm_cons, app_assoc in E.
           apply app_inj_tail in E as [_ ->].
           apply Forall_app in Hpost as [_ Hp]. inversion Hp as [| ? ? Hp1 _].
           destruct Hk as [_ [? | ?]]; tauto.
    + rewrite IH. split.
      * intros (pre & r' & post & -> & Hu & Hne & Hr' & Hpost).
        exists pre, r', (post ++ [r]). rewrite <- app_assoc. simpl.
        split; [reflexivity |]. split; [exact Hu |]. split; [exact Hne |].
        split; [exact Hr' |]. apply Forall_app. split; [exact Hpost |].
        constructor; [| constructor]. split; intros E; apply Hk; auto.
      * intros (pre & r' & post & E & Hu & Hne & Hr' & Hpost).
        destruct post as [| p post _] using rev_ind.
        -- apply app_inj_tail in E as [_ ->]. exfalso. apply Hk. auto.
        -- rewrite app_comm_cons, app_assoc in E.
           apply app_inj_tail in E as [-> ->].
           apply Forall_app in Hpost as [Hpost _].
           exists pre, r', post. auto.
Qed.

(** ** [norm_key] *)

Lemma upper_cp_space_dot c :
  ((c =? 0x20) || (c =? 0x2E))%N = false ->
  forallb (fun d => negb ((d =? 0x20) || (d =? 0x2E))%N) (upper_cp c) = true.
Proof.
  intros Hc.
  pose proof (upper_cp_cases
                (fun c => ((c =? 0x20) || (c =? 0x2E))%N
                          || forallb (fun d => negb ((d =? 0x20)
                                                     || (d =? 0x2E))%N)
                                     (upper_cp c))) as H.
  cbv beta in H. specialize (H ltac:(vm_compute; reflexivity)).
  assert (Hc' : ((c =? 0x20) || (c =? 0x2E))%N
                || forallb (fun d => negb ((d =? 0x20) || (d =? 0x2E))%N)
                           (upper_cp c) = true).
  { apply H. intros c' E. rewrite E. simpl.
    destruct ((c' =? 0x20) || (c' =? 0x2E))%N; reflexivity. }
  by rewrite Hc in Hc'.
Qed.

Lemma filter_all {A} (P : A -> bool) (l : list A) :
  forallb P l = true -> List.filter P l = l.
Proof.
  induction l as [| x l IH]; simpl; [reflexivity |].
  intros H. apply andb_true_iff in H as [-> H]. by rewrite IH.
Qed.

Lemma upper_drop_space_dot s :
  upper (drop_space_dot s) = drop_space_dot (upper s).
Proof.
  unfold upper, drop_space_dot.
  induction s as [| c s IH]; [reflexivity |]. cbn [List.filter flat_map].
  rewrite filter_app, <- IH.
  destruct ((c =? 0x20) || (c =? 0x2E))%N eqn:Hc; cbn [negb].
  - apply orb_true_iff in Hc as [Hc | Hc]; apply N.eqb_eq in Hc; subst c;
      reflexivity.
  - cbn [flat_map]. by rewrite (filter_all _ _ (upper_cp_space_dot c Hc)).
Qed.

(** X18: [norm_key] gives a text without dots and spaces that is its own
    upper case; on its own result it changes nothing; it gives the empty
    text for [None], for the empty text and for every other value that
    counts as false. *)
Theorem norm_key_normal (x : cell) :
  Forall (fun c => c <> 0x20%N /\ c <> 0x2E%N) (norm_key x)
  /\ upper (norm_key x) = norm_key x
  /\ norm_key (CStr (norm_key x)) = norm_key x
  /\ (cell_truth x = false -> norm_key x = []).
Proof.
  assert (Hup : forall t, upper (drop_space_dot (upper t))
                          = drop_space_dot (upper t))
    by (intros t; by rewrite upper_drop_space_dot, upper_idem).
  split; [| split; [apply Hup | split]].
  - unfold norm_key, drop_space_dot. apply Forall_forall. intros c Hc.
    apply filter_In in Hc as [_ Hc]. apply negb_true_iff in Hc.
    apply orb_false_iff in Hc as [H1 H2].
    apply N.eqb_neq in H1, H2. auto.
  - unfold norm_key at 1. cbn [cell_truth].
    case_bool_decide as He; cbn [negb py_str].
    + by rewrite He.
    + unfold norm_key. rewrite Hup. apply filter_twice.
  - unfold norm_key. by intros ->.
Qed.

(** ** The search box *)

Lemma startswith_spec s t :
  startswith s t = true <-> exists post, s = t ++ post.
Proof.
  revert s. induction t as [| c t IH]; intros s; simpl.
  - split; [intros _; by exists s | reflexivity].
  - destruct s as [| d s]; [split; [discriminate | by intros [? ?]] |].
    rewrite andb_true_iff, N.eqb_eq, IH. split.
    + intros [-> [post ->]]. by exists post.
    + intros [post E]. inversion E; subst. eauto.
Qed.

Lemma contains_spec t s :
  contains t s = true <-> exists pre post, s = pre ++ t ++ post.
Proof.
  induction s as [| d s IH]; simpl.
  - rewrite orb_false_r, startswith_spec. split.
    + intros [post E]. by exists [], post.
    + intros (pre & post & E). symmetry in E.
      apply app_eq_nil in E as [-> E]. eauto.
  - rewrite orb_true_iff, startswith_spec, IH. split.
    + intros [[post E] | (pre & post & E)].
      * by exists [], post.
      * exists (d :: pre), post. by rewrite E.
    + intros (pre & post & E). destruct pre as [| d' pre].
      * left. by exists post.
      * right. inversion E; subst. eauto.
Qed.

Lemma contains_trans a b s :
  contains a b = true -> contains b s = true -> contains a s = true.
Proof.
  rewrite !contains_spec. intros (p1 & q1 & ->) (p2 & q2 & ->).
  exists (p2 ++ p1), (q1 ++ q2). by rewrite <- !app_assoc.
Qed.

Lemma row_shown_spec text items :
  row_shown text items = true
  <-> exists s, Some s ∈ items /\ contains text (lower s) = true.
Proof.
  induction items as [| [s |] items IH]; simpl.
  - split; [discriminate | intros (s & H & _); by apply elem_of_nil in H].
  - destruct (contains text (lower s)) eqn:E.
    + split; [intros _; exists s; split; [apply list_elem_of_here | done]
             | done].
    + rewrite IH. split.
      * intros (s' & H & E'). exists s'. split; [by apply elem_of_cons; right
                                                | done].
      * intros (s' & H & E'). apply elem_of_cons in H as [H | H];
          [inversion H; congruence | eauto].
  - rewrite IH. split.
    + intros (s' & H & E'). exists s'. split; [by apply elem_of_cons; right
                                              | done].
    + intros (s' & H & E'). apply elem_of_cons in H as [H | H];
        [discriminate | eauto].
Qed.

(** The loop over the rows: the flags in the order of the rows, and the
    count of the rows shown. *)
Lemma filter_loop text (table : list (list (option pystr))) :
  forall hidden matches,
    fold_left
      (fun '(hidden, matches) items =>
         let show := row_shown text items in
         (hidden ++ [negb show], if show then S matches else matches))
      table (hidden, matches)
    = (hidden ++ map (fun items => negb (row_shown text items)) table,
       matches + length (List.filter (row_shown text) table)).
Proof.
  induction table as [| items table IH]; intros hidden matches; simpl.
  - by rewrite app_nil_r, Nat.add_0_r.
  - rewrite IH, <- app_assoc. simpl.
    destruct (row_shown text items); simpl; f_equal; lia.
Qed.

Lemma apply_filter_hidden query table :
  fst (apply_filter_current_tab query table)
  = map (fun items =>
           negb (bool_decide (lower (strip query) = [])
                 || row_shown (lower (strip query)) items))
        table.
Proof.
  unfold apply_filter_current_tab. cbv zeta.
  case_bool_decide as Ht; simpl; [reflexivity |].
  rewrite filter_loop. reflexivity.
Qed.

(** X19: the search shows a row when the text of the box, trimmed and
    lower-cased, is empty or occurs in the lower-cased text of one of its
    items, and hides it otherwise, whatever was hidden before; with a text
    that is not empty the status bar gets the number of the rows shown,
    with an empty one it is cleared. *)
Theorem apply_filter_rows (query : pystr)
        (table : list (list (option pystr))) :
  let text := lower (strip query) in
  let '(hidden, status) := apply_filter_current_tab query table in
  length hidden = length table
  /\ (forall r items,
        table !! r = Some items ->
        (hidden !! r = Some false
         <-> text = []
             \/ exists s pre post,
                  (Some s ∈ items) /\ lower s = pre ++ text ++ post)
        /\ (hidden !! r = Some true \/ hidden !! r = Some false))
  /\ status
     = if bool_decide (text = []) then None
       else Some (length (List.filter negb hidden), text).
Proof.
  cbv zeta.
  pose proof (apply_filter_hidden query table) as Hh.
  destruct (apply_filter_current_tab query table) as [hidden status] eqn:E.
  cbn [fst] in Hh. subst hidden. split; [apply length_map |]. split.
  - intros r items Hr. rewrite lookup_map, Hr. cbn [fmap option_fmap option_map].
    split; [| by destruct (negb _); auto].
    case_bool_decide as Ht; cbn [orb negb].
    + split; [auto | reflexivity].
    + split.
      * intros H. inversion H as [H1]. apply negb_false_iff in H1.
        apply row_shown_spec in H1 as (s & Hs & Hc).
        apply contains_spec in Hc as (pre & post & Hc). right. eauto 6.
      * intros [? | (s & pre & post & Hs & Hc)]; [done |].
        f_equal. apply negb_false_iff, row_shown_spec.
        exists s. split; [exact Hs |]. apply contains_spec. eauto.
  - revert E. unfold apply_filter_current_tab. cbv zeta.
    case_bool_decide as Ht; [intros H; by inversion H |].
    rewrite filter_loop. intros H. inversion H; subst.
    do 2 f_equal. simpl. clear.
    induction table as [| items table IH]; simpl; [reflexivity |].
    destruct (row_shown _ items); simpl; by rewrite IH.
Qed.

(** X20: a longer search never shows a row that a text it contains hides:
    when the text of the box, trimmed and lower-cased, contains that of
    another search, every row it shows is shown by the other. *)
Theorem apply_filter_narrows (q1 q2 : pystr)
        (table : list (list (option pystr))) (r : nat) :
  contains (lower (strip q1)) (lower (strip q2)) = true ->
  fst (apply_filter_current_tab q2 table) !! r = Some false ->
  fst (apply_filter_current_tab q1 table) !! r = Some false.
Proof.
  intros Hc. rewrite !apply_filter_hidden, !lookup_map.
  destruct (table !! r) as [items |]; [| done].
  cbn [fmap option_fmap option_map]. intros H.
  assert (H1 : bool_decide (lower (strip q2) = [])
               || row_shown (lower (strip q2)) items = true)
    by (apply negb_false_iff; congruence).
  clear H. f_equal. apply negb_false_iff.
  case_bool_decide as H2; cbn [orb] in *.
  - rewrite H2 in Hc. apply contains_spec in Hc as (pre & post & Hc).
    symmetry in Hc. apply app_eq_nil in Hc as [_ Hc].
    apply app_eq_nil in Hc as [Hc _]. by rewrite bool_decide_eq_true_2.
  - apply orb_true_iff. right.
    apply row_shown_spec in H1 as (s & Hs & H1). apply row_shown_spec.
    exists s. split; [exact Hs |]. eapply contains_trans; eauto.
Qed.

Lemma apply_filter_narrows_witness :
  fst (apply_filter_current_tab (py "pa")
         [ [Some (py "Pan"); None]; [Some (py "Leche")] ]) !! 0%nat
  = Some false.
Proof.
  apply (apply_filter_narrows (py "pa") (py " Pan ")).
  - vm_compute. reflexivity.
  - vm_compute. reflexivity.
Defined.

(** ** The preview *)

Lemma nrows_firstn k (df : DataFrame) :
  nrows (map (fun p => (fst p, firstn k (snd p))) df) = Nat.min k (nrows df).
Proof.
  destruct df as [| [c v] df]; simpl; [lia |]. apply length_firstn.
Qed.

Lemma col_firstn k c (df : DataFrame) :
  col c (map (fun p => (fst p, firstn k (snd p))) df) = firstn k (col c df).
Proof.
  unfold col. rewrite assoc_map_snd.
  destruct (assoc c df); simpl; [reflexivity |]. by rewrite firstn_nil.
Qed.

(** X21: the preview holds all the rows of the sheet when "Cargar todo" is
    checked, when the limit is 0 and when the sheet has no more rows than
    the limit; with a positive limit below the number of rows it holds the
    first rows, as many as the limit; in both cases it holds every column,
    the flag tells whether rows were left out, and the message is the one
    of the empty sheet exactly when the sheet has no row. *)
Theorem preview_rows (load_all : bool) (max_preview_rows : Z)
        (df : DataFrame) :
  let '(df_preview, truncated) := preview load_all max_preview_rows df in
  columns df_preview = columns df
  /\ nrows df_preview <= nrows df
  /\ (truncated = true <-> nrows df_preview < nrows df)
  /\ (load_all = true \/ max_preview_rows = 0%Z
      \/ (Z.of_nat (nrows df) <= max_preview_rows)%Z ->
      df_preview = df /\ truncated = false)
  /\ (load_all = false ->
      (0 < max_preview_rows < Z.of_nat (nrows df))%Z ->
      nrows df_preview = Z.to_nat max_preview_rows
      /\ truncated = true
      /\ forall c, col c df_preview
                   = firstn (Z.to_nat max_preview_rows) (col c df))
  /\ (_truncate_msg truncated (nrows df_preview) (nrows df) = SinDatos
      <-> nrows df = 0).
Proof.
  unfold preview. cbv zeta.
  set (p := match (if load_all then None else Some max_preview_rows) with
            | Some l =>
                if negb (l =? 0)%Z && (l <? Z.of_nat (nrows df))%Z
                then df_head l df else df
            | None => df
            end).
  assert (Hcols : columns p = columns df).
  { subst p. destruct load_all; [reflexivity |].
    destruct (negb _ && _); [| reflexivity].
    unfold df_head, columns. rewrite map_map. reflexivity. }
  assert (Hle : nrows p <= nrows df).
  { subst p. destruct load_all; [lia |].
    destruct (negb _ && _); [| lia].
    unfold df_head. rewrite nrows_firstn. lia. }
  split; [exact Hcols |]. split; [exact Hle |].
  split; [apply Nat.ltb_lt |]. split; [| split].
  - intros H.
    assert (Hp : p = df).
    { subst p. destruct load_all; [reflexivity |].
      destruct H as [? | [-> | H]]; [discriminate | reflexivity |].
      destruct (Z.ltb_spec max_preview_rows (Z.of_nat (nrows df)));
        [lia | by rewrite andb_false_r]. }
    rewrite Hp. split; [reflexivity | apply Nat.ltb_irrefl].
  - intros -> [H0 Hlt]. subst p.
    assert (E1 : (max_preview_rows =? 0)%Z = false) by (apply Z.eqb_neq; lia).
    assert (E2 : (max_preview_rows <? Z.of_nat (nrows df))%Z = true)
      by (apply Z.ltb_lt; lia).
    rewrite E1, E2. cbn [negb andb]. unfold df_head.
    assert (E3 : (0 <=? max_preview_rows)%Z = true) by (apply Z.leb_le; lia).
    rewrite E3, nrows_firstn.
    split; [lia |]. split; [apply Nat.ltb_lt; lia |].
    intros c. apply col_firstn.
  - unfold _truncate_msg. destruct (Nat.eqb_spec (nrows df) 0) as [E | E].
    + split; auto.
    + destruct (nrows p <? nrows df); split; (discriminate || done).
Qed.

(** ** The width of a column *)

Lemma max_len_loop (cells : list (option pystr)) :
  forall m0,
    let m :=
      fold_left
        (fun max_len v =>
           match v with
           | None => max_len
           | Some s => let ln := length s in
                       if max_len <? ln then ln else max_len
           end)
        cells m0 in
    m0 <= m
    /\ Forall (fun v => forall s, v = Some s -> length s <= m) cells
    /\ (m = m0 \/ exists s, (Some s ∈ cells) /\ m = length s).
Proof.
  induction cells as [| v cells IH]; intros m0; cbv zeta; simpl.
  - split; [lia |]. split; [constructor | by left].
  - set (m1 := match v with
               | Some s => if m0 <? length s then length s else m0
               | None => m0
               end).
    assert (H1 : m0 <= m1 /\ (forall s, v = Some s -> length s <= m1)
                 /\ (m1 = m0 \/ exists s, v = Some s /\ m1 = length s)).
    { subst m1. destruct v as [s |].
      - destruct (Nat.ltb_spec m0 (length s)).
        + split; [lia |]. split; [by intros ? [= <-] | right; eauto].
        + split; [lia |]. split; [intros ? [= <-]; lia | by left].
      - split; [lia |]. split; [discriminate | by left]. }
    destruct H1 as (Ha & Hb & Hc).
    destruct (IH m1) as (IHa & IHb & IHc). cbv zeta in *.
    split; [lia |]. split.
    + constructor; [intros s Hs; specialize (Hb s Hs); lia | exact IHb].
    + destruct IHc as [-> | (s & Hs & ->)].
      * destruct Hc as [-> | (s & -> & ->)]; [by left |].
        right. exists s. split; [apply list_elem_of_here | reflexivity].
      * right. exists s. split; [apply elem_of_cons; by right | reflexivity].
Qed.

(** X22: the width given to a column is between 2 and 60; it leaves room for
    every value of the column, two more than the length of its text, unless
    that is more than 60; and it is 2, 60 or two more than the length of
    the text of one of the values. *)
Theorem column_width_bounds (column_cells : list (option pystr)) :
  let w := column_width column_cells in
  2 <= w <= 60
  /\ Forall (fun v => forall s, v = Some s ->
                                Nat.min (length s + 2) 60 <= w)
            column_cells
  /\ (w = 2 \/ w = 60
      \/ exists s, (Some s ∈ column_cells) /\ w = length s + 2).
Proof.
  cbv zeta. unfold column_width.
  destruct (max_len_loop column_cells 0) as (Ha & Hb & Hc).
  cbv zeta in *. set (m := fold_left _ column_cells 0) in *.
  split; [lia |]. split.
  - eapply Forall_impl; [| exact Hb]. intros v Hv s Hs.
    specialize (Hv s Hs). simpl in Hv. lia.
  - destruct (Nat.le_gt_cases 58 m) as [H | H]; [right; left; lia |].
    destruct Hc as [-> | (s & Hs & E)]; [left; lia |].
    right; right. exists s. split; [exact Hs | lia].
Qed.

(** ** From the download to the upload *)

Lemma drop_duplicated_fixed df :
  forall seen,
    NoDup (columns df) -> (forall c, c ∈ columns df -> c ∉ seen) ->
    drop_duplicated seen df = df.
Proof.
  induction df as [| [k v] df IH]; intros seen Hnd Hs; simpl; [reflexivity |].
  simpl in Hnd. inversion Hnd as [| ? ? Hk Hnd']; subst.
  rewrite bool_decide_eq_false_2 by (apply Hs, list_elem_of_here).
  f_equal. apply IH; [exact Hnd' |].
  intros c Hc Hin. apply elem_of_cons in Hin as [-> | Hin]; [done |].
  apply (Hs c); [apply elem_of_cons; by right | exact Hin].
Qed.

Lemma normalized_fixed df :
  NoDup (columns df) -> (forall c, c ∈ columns df -> lower (strip c) = c) ->
  normalized df = df.
Proof.
  intros Hnd Hfix. unfold normalized.
  assert (E : map (fun p : pystr * Series => (lower (strip (fst p)), snd p)) df
              = df).
  { rewrite <- (map_id df) at 2. apply map_ext_in. intros [c v] Hin. simpl.
    f_equal. apply Hfix. apply list_elem_of_In, in_map_iff. by exists (c, v). }
  rewrite E. apply drop_duplicated_fixed; [exact Hnd |].
  intros c _. apply not_elem_of_nil.
Qed.

(** X23: a sheet with the header the download writes is taken by the upload
    as it is: its names are already trimmed, lower-cased and distinct, its
    key column is ['id'], every column of the registry is updated and no
    other, and each is written to the column of [articulo] it was read
    from, ['id'] addressing [art_id]. *)
Theorem downloaded_header (df : DataFrame) :
  columns df = map snd SQL_PRODUCTOS ->
  normalized df = df
  /\ key_col_of (normalized df) = Some ID
  /\ (forall clean_df rep db,
        _clean_autocorrect (normalized df) ID = inr (clean_df, rep) ->
        forall c, c ∈ batch_cols clean_df db <-> in_allowed c = true)
  /\ Forall (fun p =>
               (snd p = ID /\ fst p = where_col_of ID)
               \/ (snd p = CLAVE /\ fst p = where_col_of CLAVE)
               \/ (in_allowed (snd p) = true /\ dbcol_of (snd p) = fst p))
            SQL_PRODUCTOS.
Proof.
  intros Hcols.
  assert (Hn : normalized df = df).
  { apply normalized_fixed; rewrite Hcols.
    - apply NoDup_by_decide. vm_compute. reflexivity.
    - intros c Hc. simpl in Hc.
      repeat (apply elem_of_cons in Hc as [-> | Hc];
              [vm_compute; reflexivity |]).
      by apply elem_of_nil in Hc. }
  split; [exact Hn |]. rewrite Hn. split; [| split].
  - unfold key_col_of. rewrite Hcols. reflexivity.
  - intros clean_df rep db Hclean c.
    unfold batch_cols, update_cols_of, resolved.
    rewrite columns_resolve_units, (clean_columns _ _ _ _ Hclean), Hcols.
    split.
    + intros H. by apply elem_of_filter_list in H as [_ H].
    + intros H. apply elem_of_filter_list_2; [| exact H].
      apply in_allowed_keys in H. unfold allowed_keys in H. simpl in H.
      repeat (apply elem_of_cons in H as [-> | H];
              [vm_compute; in_list |]).
      by apply elem_of_nil in H.
  - apply Forall_forall. intros p Hp.
    assert (Hb : forallb
                   (fun p : pystr * pystr =>
                      bool_decide (snd p = ID /\ fst p = where_col_of ID)
                      || bool_decide (snd p = CLAVE
                                      /\ fst p = where_col_of CLAVE)
                      || bool_decide (in_allowed (snd p) = true
                                      /\ dbcol_of (snd p) = fst p))
                   SQL_PRODUCTOS = true) by (vm_compute; reflexivity).
    rewrite forallb_forall in Hb. specialize (Hb p Hp).
    apply orb_true_iff in Hb as [Hb | Hb];
      [apply orb_true_iff in Hb as [Hb | Hb] |];
      apply bool_decide_eq_true_1 in Hb; auto.
Qed.

Lemma downloaded_header_witness :
  normalized downloaded_df = downloaded_df
  /\ key_col_of (normalized downloaded_df) = Some ID.
Proof.
  destruct (downloaded_header downloaded_df) as (H1 & H2 & _).
  - reflexivity.
  - split; [exact H1 | exact H2].
Defined.
